(** * Grammar-check core: ranking, provider clients, result cache, orchestrator

    A shallow embedding of the request-orchestration and caching core of the
    grammar checker:

    - [src/lib/grammar/languagetool.ts]: the suggestion ranker
      ([scoreSuggestion], [getEditDistance], [smartOrderSuggestions]), the
      normaliser [normalizeMatch] and the rule-based client
      [checkWithLanguageTool];
    - the premium and free-tier language-model clients [checkWithOpenAI]
      and [checkWithOpenRouter];
    - [src/lib/grammar/cache.ts]: [generateCacheKey], [getCachedResult],
      [setCachedResult], [incrementProviderUsage], [trackSession];
    - [src/app/api/grammar-check/route.ts]: the [POST] handler.

    Conventions of the embedding.

    - A JavaScript string is a [string]: a sequence of code units.  The
      development is faithful on ASCII text, where the UTF-16 length, the
      UTF-8 encoding fed to the digest and the case mappings coincide with
      the byte-level definitions used here.
    - JavaScript numbers that the code treats as integers (offsets, lengths,
      status codes, timestamps) are [Z]; scores, which move in steps of one
      half, are [Q].
    - A thrown exception or a rejected promise is the [Err] case of [Res].
      [async] functions are run to completion in program order; detached
      promises ([f(...).catch(console.error)]) are run at the point where
      they are created and their rejection is dropped.
    - The network, the dynamic import of the key-value client, the clock and
      [JSON.parse] are fields of a [World] record: the code is verified for
      every behaviour of its collaborators. *)

From Stdlib Require Import ZArith QArith Lqa String Ascii List Lia Bool.
From Stdlib Require Import Sorting.Sorted Sorting.Permutation.
From stdpp Require Import base gmap strings pretty.
Import ListNotations.

Local Open Scope string_scope.
Local Open Scope Z_scope.

(* ================================================================== *)
(** * Exceptions and results *)
(* ================================================================== *)

(** The constructors of JavaScript's error objects that the code can see. *)
Inductive ErrorKind := KError | KTypeError | KSyntaxError.

Record Exn := mkExn { kind : ErrorKind; emessage : string }.

Inductive Res (A : Type) : Type :=
| Ok (a : A)
| Err (e : Exn).
Arguments Ok {A} a.
Arguments Err {A} e.

Definition bindRes {A B} (m : Res A) (k : A -> Res B) : Res B :=
  match m with
  | Ok a => k a
  | Err e => Err e
  end.

(** [Res] is a monad; [x ← m; k] is sequencing with exception propagation. *)
#[global] Instance res_ret : MRet Res := fun _ a => Ok a.
#[global] Instance res_bind : MBind Res := fun _ _ k m => bindRes m k.

(** [try { body } catch (error) { handler }] *)
Definition tryCatch {A} (body : Res A) (handler : Exn -> Res A) : Res A :=
  match body with
  | Ok a => Ok a
  | Err e => handler e
  end.

(** [new Error(msg)], thrown. *)
Definition throwError {A} (msg : string) : Res A := Err (mkExn KError msg).

(** [xs.map(f)] where [f] may throw: the first exception aborts the map. *)
Fixpoint mapRes {A B} (f : A -> Res B) (xs : list A) : Res (list B) :=
  match xs with
  | [] => Ok []
  | x :: xs' =>
      y ← f x; ys ← mapRes f xs'; Ok (y :: ys)
  end.

Definition isOk {A} (r : Res A) : bool :=
  match r with Ok _ => true | Err _ => false end.

(* ================================================================== *)
(** * JavaScript string primitives *)
(* ================================================================== *)

Module Js.

Definition code (c : ascii) : Z := Z.of_N (N_of_ascii c).
Definition ofCode (z : Z) : ascii := ascii_of_N (Z.to_N z).

(** The case mappings of the code units below 128.  On these they are
    JavaScript's; a letter outside ASCII is more than one unit here and its
    JavaScript mapping is not unit by unit, so what is proved from the
    properties of the case mappings is stated for [isAscii] strings. *)
Definition toLowerChar (c : ascii) : ascii :=
  if (65 <=? code c) && (code c <=? 90) then ofCode (code c + 32) else c.

Definition toUpperChar (c : ascii) : ascii :=
  if (97 <=? code c) && (code c <=? 122) then ofCode (code c - 32) else c.

Fixpoint mapString (f : ascii -> ascii) (s : string) : string :=
  match s with
  | EmptyString => EmptyString
  | String c s' => String (f c) (mapString f s')
  end.

(** [s.toLowerCase()], [s.toUpperCase()] *)
Definition toLowerCase (s : string) : string := mapString toLowerChar s.
Definition toUpperCase (s : string) : string := mapString toUpperChar s.

(** Every unit of the string is below 128. *)
Fixpoint isAscii (s : string) : bool :=
  match s with
  | EmptyString => true
  | String c s' => (code c <? 128) && isAscii s'
  end.

(** [s.length] *)
Definition len (s : string) : Z := Z.of_nat (String.length s).

(** [s[i]]: a one-unit string, or [undefined] past the end. *)
Definition index (s : string) (i : nat) : option string :=
  match String.get i s with
  | Some c => Some (String c EmptyString)
  | None => None
  end.

(** [v.toUpperCase()] on a value that may be [undefined]: reading a
    property of [undefined] throws a [TypeError]. *)
Definition undefinedToUpperCase : Exn :=
  mkExn KTypeError
        "Cannot read properties of undefined (reading 'toUpperCase')".

Definition callToUpperCase (v : option string) : Res string :=
  match v with
  | Some s => Ok (toUpperCase s)
  | None => Err undefinedToUpperCase
  end.

(** [a === b] on values that are strings or [undefined]. *)
Definition strictEq (a b : option string) : bool :=
  match a, b with
  | Some x, Some y => String.eqb x y
  | None, None => true
  | _, _ => false
  end.

Definition clamp (lo hi x : Z) : Z := Z.max lo (Z.min hi x).

(** [s.substring(a, b)]: both indices are clamped to [0 .. s.length] and
    swapped when [a > b]. *)
Definition substring (s : string) (a b : Z) : string :=
  let a' := clamp 0 (len s) a in
  let b' := clamp 0 (len s) b in
  let lo := Z.min a' b' in
  let hi := Z.max a' b' in
  String.substring (Z.to_nat lo) (Z.to_nat (hi - lo)) s.

(** The class [\s] on ASCII: tab, line feed, vertical tab, form feed,
    carriage return, space. *)
Definition isSpace (c : ascii) : bool :=
  ((9 <=? code c) && (code c <=? 13)) || (code c =? 32).

(** [s.split(/\s+/)]: the pieces between maximal runs of white space; a
    leading or trailing run yields an empty first or last piece. *)
Fixpoint splitGo (s : string) (cur : string) (inSep : bool) : list string :=
  match s with
  | EmptyString => [cur]
  | String c s' =>
      if isSpace c then
        if inSep then splitGo s' cur true
        else cur :: splitGo s' EmptyString true
      else splitGo s' (cur ++ String c EmptyString) false
  end.

Definition splitWhitespace (s : string) : list string :=
  splitGo s EmptyString false.

(** [xs.includes(x)] on an array of strings, [set.has(x)] on a [Set]. *)
Definition includes (xs : list string) (x : string) : bool :=
  existsb (String.eqb x) xs.

(** [s.includes(t)] on strings. *)
Definition strIncludes (s t : string) : bool :=
  match String.index 0 t s with
  | Some _ => true
  | None => false
  end.

(** [/[.!?]\s*$/.test(s)]: after dropping trailing white space, the last
    code unit is a full stop, an exclamation mark or a question mark. *)
Fixpoint endsSentenceRev (rev : list ascii) : bool :=
  match rev with
  | [] => false
  | c :: rest =>
      if isSpace c then endsSentenceRev rest
      else (code c =? 46) || (code c =? 33) || (code c =? 63)
  end.

Definition endsSentence (s : string) : bool :=
  endsSentenceRev (List.rev (list_ascii_of_string s)).

(** Truthiness of a string that may be [undefined]. *)
Definition truthy (v : option string) : bool :=
  match v with
  | Some s => negb (String.eqb s EmptyString)
  | None => false
  end.

End Js.

(* ================================================================== *)
(** * The suggestion ranker ([languagetool.ts]) *)
(* ================================================================== *)

Definition COMMON_WORDS : list string :=
  [ "hello"; "help"; "here"; "there"; "have"; "has"; "had"; "will"; "would";
    "could"; "should"; "can"; "may"; "might"; "must"; "the"; "be"; "to"; "of";
    "and"; "a"; "in"; "that"; "have"; "i"; "it"; "for"; "not"; "on"; "with";
    "he"; "as"; "you"; "do"; "at"; "this"; "but"; "his"; "by"; "from"; "they";
    "we"; "say"; "her"; "she"; "or"; "an"; "will"; "my"; "one"; "all"; "would";
    "there"; "their"; "what"; "so"; "up"; "out"; "if"; "about"; "who"; "get";
    "which"; "go"; "me"; "when"; "make"; "can"; "like"; "time"; "no"; "just";
    "him"; "know"; "take"; "people"; "into"; "year"; "your"; "good"; "some";
    "them"; "see"; "other"; "than"; "then"; "now"; "look"; "only"; "come";
    "its"; "over"; "think"; "also"; "back"; "after"; "use"; "two"; "how";
    "our"; "work"; "first"; "well"; "way"; "even"; "new"; "want"; "because";
    "any"; "these"; "give"; "day"; "most"; "us" ].

(** One row of the edit-distance matrix: [prev] is row [i-1] from column
    [j-1] on, [left] is [matrix[i][j-1]], [bc] is [b.charAt(i-1)]. *)
Fixpoint editRow (bc : ascii) (a : string) (prev : list Z) (left : Z)
  : list Z :=
  match a, prev with
  | String ac a', diag :: ((up :: _) as prev') =>
      let cell :=
        if Ascii.eqb bc ac then diag
        else Z.min (Z.min (diag + 1) (left + 1)) (up + 1) in
      cell :: editRow bc a' prev' cell
  | _, _ => []
  end.

(** Rows [1 .. b.length], each started with [matrix[i] = [i]]. *)
Fixpoint editRows (b a : string) (i : Z) (prev : list Z) : list Z :=
  match b with
  | EmptyString => prev
  | String bc b' => editRows b' a (i + 1) ((i + 1) :: editRow bc a prev (i + 1))
  end.

(** [getEditDistance(a, b)]: row 0 is [0 .. a.length]; the result is
    [matrix[b.length][a.length]]. *)
Definition getEditDistance (a b : string) : Z :=
  let row0 := List.map Z.of_nat (seq 0 (S (String.length a))) in
  List.last (editRows b a 0 row0) 0.

Definition greetings : list string :=
  [ "hello"; "hi"; "hey"; "dear"; "greetings" ].

Local Open Scope Q_scope.

Definition scoreSuggestion
           (suggestion originalWord contextBefore contextAfter : string)
           (isStartOfSentence : bool) : Res Q :=
  let score : Q := 0 in
  let suggestionLower := Js.toLowerCase suggestion in
  let originalLower := Js.toLowerCase originalWord in
  let score :=
    if Js.includes COMMON_WORDS suggestionLower then score + 10 else score in
  let score :=
    if isStartOfSentence then
      if Js.includes greetings suggestionLower then score + 15 else score
    else score in
  originalUpper ← Js.callToUpperCase (Js.index originalWord 0);
  capitalized ←
    (if Js.strictEq (Js.index originalWord 0) (Some originalUpper) then
       suggestionUpper ← Js.callToUpperCase (Js.index suggestion 0);
       Ok (Js.strictEq (Js.index suggestion 0) (Some suggestionUpper))
     else Ok false);
  (let score := if capitalized : bool then score + 5 else score in
   let lengthDiff := Z.abs (Js.len suggestion - Js.len originalWord) in
   let score := score - inject_Z lengthDiff * (1 # 2) in
   let editDistance := getEditDistance originalLower suggestionLower in
   let score := score - inject_Z editDistance in
   let contextWords :=
     Js.splitWhitespace
       (Js.toLowerCase (contextBefore ++ " " ++ contextAfter)) in
   let score :=
     if String.eqb suggestionLower "hello" && Js.includes contextWords "how"
     then score + 20 else score in
   let score :=
     if String.eqb suggestionLower "help"
        && (Js.includes contextWords "need" || Js.includes contextWords "can")
     then score + 10 else score in
   Ok score).

(** [xs.sort(cmp)].  The language requires the sort to be stable; for a
    comparator that is a consistent ordering this fixes the result, which
    the insertion sort below computes: an element moves past exactly those
    sorted elements that the comparator puts strictly before it. *)
Fixpoint sortInsert {A} (cmp : A -> A -> Q) (x : A) (sorted : list A)
  : list A :=
  match sorted with
  | [] => [x]
  | y :: rest =>
      if Qlt_le_dec 0 (cmp x y) then y :: sortInsert cmp x rest
      else x :: y :: rest
  end.

Definition sort {A} (cmp : A -> A -> Q) (xs : list A) : list A :=
  List.fold_right (sortInsert cmp) [] xs.

Record Scored := mkScored { suggestion : string; score : Q }.

Definition smartOrderSuggestions
           (suggestions : list string) (originalWord fullText : string)
           (errorOffset : Z) : Res (list string) :=
  let contextBefore :=
    Js.substring fullText (Z.max 0 (errorOffset - 50)) errorOffset in
  let contextAfter :=
    Js.substring fullText (errorOffset + Js.len originalWord)
                 (errorOffset + Js.len originalWord + 50) in
  let isStartOfSentence :=
    (errorOffset =? 0)%Z || Js.endsSentence contextBefore in
  scoredSuggestions ←
    mapRes (fun suggestion =>
              score ← scoreSuggestion suggestion originalWord contextBefore
                                      contextAfter isStartOfSentence;
              Ok (mkScored suggestion score))
           suggestions;
  (let scoredSuggestions :=
     sort (fun a b => score b - score a) scoredSuggestions in
   Ok (List.map suggestion scoredSuggestions)).

Local Close Scope Q_scope.

(* ================================================================== *)
(** * SHA-256 ([createHash('sha256')] of Node's [crypto]) *)
(* ================================================================== *)

(** The digest of FIPS 180-4 on 32-bit words, written with [Z] and explicit
    reduction modulo [2^32].  The round constants and the initial hash value
    are computed from their definition: the fractional parts of the cube and
    square roots of the first primes. *)
Module Sha256.

Definition mask32 : Z := 2 ^ 32 - 1.

Definition add32 (x y : Z) : Z := (x + y) mod 2 ^ 32.

Definition rotr (n x : Z) : Z :=
  Z.lor (Z.shiftr x n) (Z.land (Z.shiftl x (32 - n)) mask32).

Definition shr (n x : Z) : Z := Z.shiftr x n.

Definition not32 (x : Z) : Z := Z.lxor x mask32.

Definition Ch (x y z : Z) : Z :=
  Z.lxor (Z.land x y) (Z.land (not32 x) z).

Definition Maj (x y z : Z) : Z :=
  Z.lxor (Z.lxor (Z.land x y) (Z.land x z)) (Z.land y z).

Definition bigSigma0 (x : Z) : Z :=
  Z.lxor (Z.lxor (rotr 2 x) (rotr 13 x)) (rotr 22 x).

Definition bigSigma1 (x : Z) : Z :=
  Z.lxor (Z.lxor (rotr 6 x) (rotr 11 x)) (rotr 25 x).

Definition smallSigma0 (x : Z) : Z :=
  Z.lxor (Z.lxor (rotr 7 x) (rotr 18 x)) (shr 3 x).

Definition smallSigma1 (x : Z) : Z :=
  Z.lxor (Z.lxor (rotr 17 x) (rotr 19 x)) (shr 10 x).

Definition isPrime (n : nat) : bool :=
  forallb (fun d => negb (Nat.eqb (n mod d) 0)) (seq 2 (n - 2)).

(** The first sixty-four primes. *)
Definition primes : list Z :=
  Eval vm_compute in
    List.map Z.of_nat (firstn 64 (List.filter isPrime (seq 2 400))).

(** Integer cube root by bisection on the bits of the result. *)
Fixpoint cubeRootBits (bits : nat) (n r : Z) : Z :=
  match bits with
  | O => r
  | S k =>
      let r' := r + 2 ^ Z.of_nat k in
      cubeRootBits k n (if r' * r' * r' <=? n then r' else r)
  end.

Definition cubeRoot (n : Z) : Z := cubeRootBits 40 n 0.

(** [K]: the first 32 bits of the fractional part of the cube root of
    each prime. *)
Definition K : list Z :=
  Eval vm_compute in
    List.map (fun p => cubeRoot (p * 2 ^ 96) mod 2 ^ 32) primes.

(** [H0]: the first 32 bits of the fractional part of the square root of
    each of the first eight primes. *)
Definition H0 : list Z :=
  Eval vm_compute in
    List.map (fun p => Z.sqrt (p * 2 ^ 64) mod 2 ^ 32) (firstn 8 primes).

Record Hash := mkHash { ha : Z; hb : Z; hc : Z; hd : Z;
                        he : Z; hf : Z; hg : Z; hh : Z }.

Definition initial : Hash :=
  mkHash (nth 0 H0 0) (nth 1 H0 0) (nth 2 H0 0) (nth 3 H0 0)
         (nth 4 H0 0) (nth 5 H0 0) (nth 6 H0 0) (nth 7 H0 0).

(** Big-endian bytes of a number, [n] of them. *)
Fixpoint bigEndian (n : nat) (x : Z) : list Z :=
  match n with
  | O => []
  | S k => (Z.shiftr x (8 * Z.of_nat k)) mod 256 :: bigEndian k x
  end.

(** Padding: a one bit, zeros up to 56 modulo 64, the bit length on
    eight bytes. *)
Definition pad (msg : list Z) : list Z :=
  let l := Z.of_nat (List.length msg) in
  msg ++ [128] ++ repeat 0 (Z.to_nat ((55 - l) mod 64))
      ++ bigEndian 8 (8 * l).

Fixpoint wordsOf (n : nat) (bytes : list Z) : list Z :=
  match n, bytes with
  | S k, b0 :: b1 :: b2 :: b3 :: rest =>
      (b0 * 2 ^ 24 + b1 * 2 ^ 16 + b2 * 2 ^ 8 + b3) :: wordsOf k rest
  | _, _ => []
  end.

(** The message schedule: sixteen words of the block, extended to
    sixty-four. *)
Fixpoint extend (n : nat) (w : list Z) : list Z :=
  match n with
  | O => w
  | S k =>
      let t := List.length w in
      let wt :=
        add32 (add32 (add32 (smallSigma1 (nth (t - 2) w 0))
                            (nth (t - 7) w 0))
                     (smallSigma0 (nth (t - 15) w 0)))
              (nth (t - 16) w 0) in
      extend k (w ++ [wt])
  end.

Definition round (h : Hash) (kw : Z * Z) : Hash :=
  let '(k, w) := kw in
  let t1 :=
    add32 (add32 (add32 (add32 (hh h) (bigSigma1 (he h)))
                        (Ch (he h) (hf h) (hg h))) k) w in
  let t2 := add32 (bigSigma0 (ha h)) (Maj (ha h) (hb h) (hc h)) in
  mkHash (add32 t1 t2) (ha h) (hb h) (hc h)
         (add32 (hd h) t1) (he h) (hf h) (hg h).

Definition compress (h : Hash) (block : list Z) : Hash :=
  let w := extend 48 (wordsOf 16 block) in
  let r := List.fold_left round (combine K w) h in
  mkHash (add32 (ha h) (ha r)) (add32 (hb h) (hb r))
         (add32 (hc h) (hc r)) (add32 (hd h) (hd r))
         (add32 (he h) (he r)) (add32 (hf h) (hf r))
         (add32 (hg h) (hg r)) (add32 (hh h) (hh r)).

Fixpoint blocks (n : nat) (bytes : list Z) : list (list Z) :=
  match n with
  | O => []
  | S k => firstn 64 bytes :: blocks k (skipn 64 bytes)
  end.

Definition hashBytes (msg : list Z) : Hash :=
  let padded := pad msg in
  List.fold_left compress (blocks (List.length padded / 64) padded) initial.

Definition digestWords (h : Hash) : list Z :=
  [ ha h; hb h; hc h; hd h; he h; hf h; hg h; hh h ].

(** The 32 bytes of the digest. *)
Definition digest (msg : list Z) : list Z :=
  List.flat_map (bigEndian 4) (digestWords (hashBytes msg)).

Definition hexDigit (d : Z) : ascii :=
  if d <? 10 then Js.ofCode (48 + d) else Js.ofCode (87 + d).

Fixpoint hexOfBytes (bytes : list Z) : string :=
  match bytes with
  | [] => EmptyString
  | b :: rest =>
      String (hexDigit (b / 16)) (String (hexDigit (b mod 16))
                                         (hexOfBytes rest))
  end.

(** [.update(text)]: the bytes of the text. *)
Definition bytesOfString (s : string) : list Z :=
  List.map Js.code (list_ascii_of_string s).

(** [createHash('sha256').update(text).digest('hex')] *)
Definition digestHex (text : string) : string :=
  hexOfBytes (digest (bytesOfString text)).

End Sha256.

(* ================================================================== *)
(** * The cache key ([cache.ts]) *)
(* ================================================================== *)

Definition generateCacheKey (provider language text : string) : string :=
  let hash := Js.substring (Sha256.digestHex text) 0 16 in
  "grammar:" ++ provider ++ ":" ++ language ++ ":" ++ hash.

(* ================================================================== *)
(** * The data model ([types/grammar.ts]) *)
(* ================================================================== *)

Inductive ErrorType := grammar | spelling | style | punctuation | other.

Record Rule := mkRule
  { rule_id : string; rule_description : string; rule_category : string }.

Record Context := mkContext
  { ctx_text : string; ctx_offset : Z; ctx_length : Z }.

Record GrammarError := mkGrammarError
  { e_message : string;
    e_shortMessage : option string;
    e_offset : Z;
    e_length : Z;
    e_replacements : list string;
    e_rule : Rule;
    e_type : ErrorType;
    e_context : option Context }.

(** [process.env]: each variable is a string or [undefined]. *)
Record Env := mkEnv
  { KV_URL : option string;
    KV_REST_API_URL : option string;
    KV_REST_API_TOKEN : option string;
    OPENAI_API_KEY : option string;
    OPENROUTER_API_KEY : option string;
    NEXT_PUBLIC_APP_URL : option string }.

(* ================================================================== *)
(** * HTTP and the language-model wire format *)
(* ================================================================== *)

(** What [response.json()] resolves to, or its rejection. *)
Record HttpResponse (B : Type) := mkHttpResponse
  { status : Z; statusText : string; json : Res B }.
Arguments mkHttpResponse {B} _ _ _.
Arguments status {B} _.
Arguments statusText {B} _.
Arguments json {B} _.

(** [response.ok]: the status is in the range 200-299. *)
Definition ok {B} (r : HttpResponse B) : bool :=
  (200 <=? status r) && (status r <=? 299).

(** [await fetch(...)]: a response, or a rejection (no connection). *)
Inductive FetchResult (B : Type) :=
| FetchRejected (e : Exn)
| FetchResponse (r : HttpResponse B).
Arguments FetchRejected {B} e.
Arguments FetchResponse {B} r.

(** The LanguageTool payload, at its declared type. *)
Record LTCategory := mkLTCategory { cat_id : string; cat_name : string }.
Record LTRule := mkLTRule
  { lr_id : string; lr_description : string; lr_category : LTCategory }.
Record LTType := mkLTType { typeName : string }.
Record LTReplacement := mkLTReplacement { value : string }.

Record LanguageToolMatch := mkLanguageToolMatch
  { m_message : string;
    m_shortMessage : option string;
    m_offset : Z;
    m_length : Z;
    m_replacements : list LTReplacement;
    m_rule : LTRule;
    m_context : Context;
    m_type : option LTType }.

Record LanguageToolResponse := mkLanguageToolResponse
  { matches : list LanguageToolMatch }.

(** The body of the POST to [api.languagetool.org/v2/check]. *)
Record LanguageToolRequest := mkLanguageToolRequest
  { lt_text : string; lt_language : string }.

(** The error objects the language models are asked for.  The two clients
    declare the same interface under two names. *)
Record OpenAIGrammarError := mkOpenAIGrammarError
  { g_message : string;
    g_shortMessage : option string;
    g_offset : Z;
    g_length : Z;
    g_replacements : list string;
    g_ruleId : string;
    g_ruleDescription : string;
    g_category : string;
    g_type : ErrorType }.

Definition OpenRouterGrammarError : Type := OpenAIGrammarError.

(** An element of the parsed [errors] array.  [JSON.parse] checks no shape,
    so an element need not be an error object.  The normalisers read
    [error.message] first and call [error.replacements.slice(0, 5)] later:
    - [ItemNull]: the element is [null], and reading a property of it
      throws;
    - [ReplacementsUndefined]: the element has no [replacements] (an object
      without the field, or a number, a string, a boolean or an array);
    - [ReplacementsNull]: the field is [null];
    - [ReplacementsNotSliceable]: the field is a number, a boolean or an
      object, none of which has a [slice];
    - [ItemObject]: an object whose [replacements] is an array; its fields
      are taken at their declared types (a string in place of the array
      has a [slice] too and does not throw). *)
Inductive ErrorItem :=
| ItemNull
| ReplacementsUndefined
| ReplacementsNull
| ReplacementsNotSliceable
| ItemObject (error : OpenAIGrammarError).

(** What [JSON.parse(content)] returns, as far as the clients look at it:
    [null] (reading [.errors] throws), a value whose [errors] is falsy, a
    value whose [errors] is truthy but no array, or a value whose [errors]
    is an array. *)
Inductive GrammarResponse :=
| ParsedNull
| ErrorsFalsy
| ErrorsNotArray
| ErrorsArray (errors : list ErrorItem).

Record ChatMessage := mkChatMessage { content : option string }.
Record Choice := mkChoice { message : option ChatMessage }.

(** The OpenAI SDK's completion object. *)
Record ChatCompletion := mkChatCompletion { completionChoices : list Choice }.

(** The OpenRouter body; [choices] is absent in error bodies. *)
Record OpenRouterResponse := mkOpenRouterResponse
  { choices : option (list Choice) }.

Record ChatRequest := mkChatRequest
  { model : string;
    systemContent : string;
    userContent : string;
    temperature : Q;
    jsonObjectFormat : bool }.

Record OpenRouterRequest := mkOpenRouterRequest
  { authorization : string;
    httpReferer : string;
    xTitle : string;
    chat : ChatRequest }.

(* ================================================================== *)
(** * The key-value store ([@vercel/kv]) *)
(* ================================================================== *)

Inductive KVValue :=
| VErrors (errors : list GrammarError)
| VNumber (n : Z).

(** A stored entry with the expiry it was written with ([{ ex: ttl }]). *)
Record Entry := mkEntry { entryValue : KVValue; entryTtl : option Z }.

Definition Store : Type := gmap string Entry.

(** The client object.  Every operation may reject, and may leave the
    store in any state. *)
Record KVInstance := mkKVInstance
  { kv_get : string -> Store -> Res (option (list GrammarError)) * Store;
    kv_set : string -> KVValue -> Z -> Store -> Res unit * Store;
    kv_incr : string -> Store -> Res Z * Store;
    kv_exists : string -> Store -> Res Z * Store }.

(** The collaborators of the core. *)
Record World := mkWorld
  { fetchLanguageTool : LanguageToolRequest -> FetchResult LanguageToolResponse;
    fetchOpenRouter : OpenRouterRequest -> FetchResult OpenRouterResponse;
    openaiCreate : string -> ChatRequest -> Res ChatCompletion;
    JSON_parse : string -> Res GrammarResponse;
    importKV : Res KVInstance;
    clock : nat -> Z }.

(* ================================================================== *)
(** * The rule-based client ([languagetool.ts]) *)
(* ================================================================== *)

Definition mapErrorType (category : string) (typeName : option string)
  : ErrorType :=
  let categoryLower := Js.toLowerCase category in
  let typeNameLower :=
    match typeName with
    | Some t => Js.toLowerCase t
    | None => ""
    end in
  if Js.strIncludes categoryLower "spell"
     || Js.strIncludes typeNameLower "spell" then spelling
  else if Js.strIncludes categoryLower "grammar"
          || Js.strIncludes typeNameLower "grammar" then grammar
  else if Js.strIncludes categoryLower "style"
          || Js.strIncludes typeNameLower "style" then style
  else if Js.strIncludes categoryLower "punctuation"
          || Js.strIncludes typeNameLower "punctuation" then punctuation
  else other.

Definition normalizeMatch (m : LanguageToolMatch) (fullText : string)
  : Res GrammarError :=
  let originalWord :=
    Js.substring fullText (m_offset m) (m_offset m + m_length m) in
  let suggestions := List.map value (m_replacements m) in
  orderedSuggestions ←
    smartOrderSuggestions suggestions originalWord fullText (m_offset m);
  Ok {| e_message := m_message m;
        e_shortMessage := m_shortMessage m;
        e_offset := m_offset m;
        e_length := m_length m;
        e_replacements := firstn 5 orderedSuggestions;
        e_rule := {| rule_id := lr_id (m_rule m);
                     rule_description := lr_description (m_rule m);
                     rule_category := cat_name (lr_category (m_rule m)) |};
        e_type := mapErrorType (cat_id (lr_category (m_rule m)))
                               (option_map typeName (m_type m));
        e_context := Some (m_context m) |}.

(** The body of the [try] block of [checkWithLanguageTool]. *)
Definition languageToolRequest (w : World) (text language : string)
  : Res (list GrammarError) :=
  match fetchLanguageTool w (mkLanguageToolRequest text language) with
  | FetchRejected e => Err e
  | FetchResponse response =>
      if negb (ok response) then
        throwError ("LanguageTool API error: " ++ pretty (status response)
                      ++ " " ++ statusText response)
      else
        data ← json response;
        mapRes (fun m => normalizeMatch m text) (matches data)
  end.

Definition checkWithLanguageTool (w : World) (text language : string)
  : Res (list GrammarError) :=
  tryCatch (languageToolRequest w text language)
           (fun error =>
              throwError ("Failed to check text with LanguageTool: "
                            ++ emessage error)).

(* ================================================================== *)
(** * The language-model clients *)
(* ================================================================== *)

Definition dq : string := String (Ascii.ascii_of_nat 34) EmptyString.
Definition nl : string := String (Ascii.ascii_of_nat 10) EmptyString.
Definition quoted (s : string) : string := dq ++ s ++ dq.

Definition systemPrompt : string :=
  "You are a professional grammar and style checker. Analyze the provided text and identify all grammar, spelling, punctuation, and style errors."
  ++ nl ++ nl
  ++ "For each error, provide:" ++ nl
  ++ "1. A clear error message explaining the issue" ++ nl
  ++ "2. The exact character offset where the error starts (0-indexed)" ++ nl
  ++ "3. The length of the error in characters" ++ nl
  ++ "4. Up to 5 suggested replacements" ++ nl
  ++ "5. A rule ID (e.g., " ++ quoted "GRAMMAR_001" ++ ")" ++ nl
  ++ "6. A brief rule description" ++ nl
  ++ "7. The category (e.g., " ++ quoted "Grammar" ++ ", "
  ++ quoted "Spelling" ++ ", " ++ quoted "Style" ++ ", "
  ++ quoted "Punctuation" ++ ")" ++ nl
  ++ "8. The error type: " ++ quoted "grammar" ++ ", " ++ quoted "spelling"
  ++ ", " ++ quoted "style" ++ ", " ++ quoted "punctuation" ++ ", or "
  ++ quoted "other" ++ nl ++ nl
  ++ "Return the results as a JSON object with an " ++ quoted "errors"
  ++ " array containing all identified issues.".

Definition userPrompt (language text : string) : string :=
  "Check this " ++ language ++ " text for errors:" ++ nl ++ nl ++ text.

(** [completion.choices[0]?.message?.content] *)
Definition firstContent (choices : list Choice) : option string :=
  match choices with
  | [] => None
  | c :: _ =>
      match message c with
      | Some m => content m
      | None => None
      end
  end.

Definition undefinedRead (prop : string) : Exn :=
  mkExn KTypeError
        ("Cannot read properties of undefined (reading '" ++ prop ++ "')").

Definition nullRead (prop : string) : Exn :=
  mkExn KTypeError
        ("Cannot read properties of null (reading '" ++ prop ++ "')").

Definition notAFunction (what : string) : Exn :=
  mkExn KTypeError (what ++ " is not a function").

(** The object literal is evaluated field by field: [error.message] is
    read first, and throws on [null]; [error.replacements.slice(0, 5)] is
    the first call that can throw on any other element. *)
Definition normalizeOpenAIError (error : ErrorItem) : Res GrammarError :=
  match error with
  | ItemNull => Err (nullRead "message")
  | ReplacementsUndefined => Err (undefinedRead "slice")
  | ReplacementsNull => Err (nullRead "slice")
  | ReplacementsNotSliceable =>
      Err (notAFunction "error.replacements.slice")
  | ItemObject error =>
      Ok {| e_message := g_message error;
            e_shortMessage := g_shortMessage error;
            e_offset := g_offset error;
            e_length := g_length error;
            e_replacements := firstn 5 (g_replacements error);
            e_rule := {| rule_id := g_ruleId error;
                         rule_description := g_ruleDescription error;
                         rule_category := g_category error |};
            e_type := g_type error;
            e_context := None |}
  end.

(** The body of the [try] block of [checkWithOpenAI]. *)
Definition openAIRequest (w : World) (apiKey text language : string)
  : Res (list GrammarError) :=
  completion ←
    openaiCreate w apiKey
      {| model := "gpt-4o-mini";
         systemContent := systemPrompt;
         userContent := userPrompt language text;
         temperature := 3 # 10;
         jsonObjectFormat := true |};
  let content := firstContent (completionChoices completion) in
  if negb (Js.truthy content) then throwError "No response from OpenAI"
  else
    response ← JSON_parse w (default "" content);
    (* (response.errors || []).map(normalizeOpenAIError) *)
    match response with
    | ParsedNull => Err (nullRead "errors")
    | ErrorsFalsy => Ok []
    | ErrorsNotArray => Err (notAFunction "(response.errors || []).map")
    | ErrorsArray errors => mapRes normalizeOpenAIError errors
    end.

Definition checkWithOpenAI (env : Env) (w : World) (text language : string)
  : Res (list GrammarError) :=
  let apiKey := OPENAI_API_KEY env in
  if negb (Js.truthy apiKey) then throwError "OpenAI API key not configured"
  else
    tryCatch (openAIRequest w (default "" apiKey) text language)
             (fun error =>
                throwError ("Failed to check text with OpenAI: "
                              ++ emessage error)).

Definition normalizeOpenRouterError (error : ErrorItem) : Res GrammarError :=
  match error with
  | ItemNull => Err (nullRead "message")
  | ReplacementsUndefined => Err (undefinedRead "slice")
  | ReplacementsNull => Err (nullRead "slice")
  | ReplacementsNotSliceable =>
      Err (notAFunction "error.replacements.slice")
  | ItemObject error =>
      Ok {| e_message := g_message error;
            e_shortMessage := g_shortMessage error;
            e_offset := g_offset error;
            e_length := g_length error;
            e_replacements := firstn 5 (g_replacements error);
            e_rule := {| rule_id := g_ruleId error;
                         rule_description := g_ruleDescription error;
                         rule_category := g_category error |};
            e_type := g_type error;
            e_context := None |}
  end.

(** The inner [try] of [checkWithOpenRouter]: [Some errors] when the
    function returns from inside it, [None] when control falls through to
    [return []]; the handler rethrows, also what the normaliser threw from
    inside [.map]. *)
Definition parseGrammarResponse (w : World) (content : string)
  : Res (option (list GrammarError)) :=
  tryCatch
    (grammarResponse ← JSON_parse w content;
     match grammarResponse with
     | ParsedNull => Err (nullRead "errors")
     | ErrorsFalsy => Ok None
     | ErrorsNotArray => Ok None
     | ErrorsArray errors =>
         normalized ← mapRes normalizeOpenRouterError errors;
         Ok (Some normalized)
     end)
    (fun parseError => Err parseError).

(** The request of [checkWithOpenRouter]: headers and JSON body. *)
Definition openRouterCall (env : Env) (apiKey text language : string)
  : OpenRouterRequest :=
  {| authorization := "Bearer " ++ apiKey;
     httpReferer :=
       (if Js.truthy (NEXT_PUBLIC_APP_URL env)
        then default "" (NEXT_PUBLIC_APP_URL env)
        else "http://localhost:3000");
     xTitle := "Grammar Checker";
     chat := {| model := "meta-llama/llama-3.1-8b-instruct:free";
                systemContent := systemPrompt;
                userContent := userPrompt language text;
                temperature := 3 # 10;
                jsonObjectFormat := false |} |}.

(** The body of the outer [try] block of [checkWithOpenRouter]. *)
Definition openRouterRequest (env : Env) (w : World)
           (apiKey text language : string) : Res (list GrammarError) :=
  match fetchOpenRouter w (openRouterCall env apiKey text language) with
  | FetchRejected e => Err e
  | FetchResponse response =>
      if negb (ok response) then throwError "OpenRouter unavailable"
      else
        data ← json response;
        choices ← match choices data with
                  | Some cs => Ok cs
                  | None => Err (undefinedRead "0")
                  end;
        let content := firstContent choices in
        if negb (Js.truthy content) then
          throwError "No response from OpenRouter"
        else
          returned ← parseGrammarResponse w (default "" content);
          match returned with
          | Some errors => Ok errors
          | None => Ok []
          end
  end.

Definition checkWithOpenRouter (env : Env) (w : World) (text language : string)
  : Res (list GrammarError) :=
  let apiKey := OPENROUTER_API_KEY env in
  if negb (Js.truthy apiKey) then checkWithLanguageTool w text language
  else
    tryCatch (openRouterRequest env w (default "" apiKey) text language)
             (fun _ => checkWithLanguageTool w text language).

(* ================================================================== *)
(** * Request state and the [async] monad *)
(* ================================================================== *)

(** The calls the orchestrator makes to its collaborators, in order.  The
    trace is ghost state: it records a call when the handler makes it. *)
Inductive Event :=
| EvTrackSession (sessionId : string)
| EvCacheGet (key : string)
| EvProviderCall (provider text language : string)
| EvCacheSet (key : string)
| EvUsage (provider : string).

Record State := mkState
  { kvModule : option KVInstance;   (* [let kv: any = null] of cache.ts *)
    store : Store;                  (* the remote key-value store *)
    ticks : nat;                    (* readings of the clock so far *)
    trace : list Event }.

Definition M (A : Type) : Type := State -> Res A * State.

#[global] Instance m_ret : MRet M := fun _ a st => (Ok a, st).
#[global] Instance m_bind : MBind M := fun _ _ k m st =>
  match m st with
  | (Ok a, st') => k a st'
  | (Err e, st') => (Err e, st')
  end.

Definition liftRes {A} (r : Res A) : M A := fun st => (r, st).

(** [try { body } catch (error) { handler }] around awaited code: changes
    made before the exception stay. *)
Definition tryCatchM {A} (body : M A) (handler : Exn -> M A) : M A :=
  fun st =>
    match body st with
    | (Ok a, st') => (Ok a, st')
    | (Err e, st') => handler e st'
    end.

(** [promise.catch(console.error)], not awaited. *)
Definition detach (task : M unit) : M unit :=
  tryCatchM task (fun _ => mret tt).

(** An operation of the client, on the remote store. *)
Definition onStore {A} (op : Store -> Res A * Store) : M A :=
  fun st =>
    let '(r, store') := op (store st) in
    (r, {| kvModule := kvModule st; store := store';
           ticks := ticks st; trace := trace st |}).

Definition setKvModule (k : KVInstance) : M unit :=
  fun st =>
    (Ok tt, {| kvModule := Some k; store := store st;
               ticks := ticks st; trace := trace st |}).

Definition readKvModule : M (option KVInstance) :=
  fun st => (Ok (kvModule st), st).

(** [Date.now()] *)
Definition dateNow (w : World) : M Z :=
  fun st =>
    (Ok (clock w (ticks st)),
     {| kvModule := kvModule st; store := store st;
        ticks := S (ticks st); trace := trace st |}).

Definition emit (ev : Event) : M unit :=
  fun st =>
    (Ok tt, {| kvModule := kvModule st; store := store st;
               ticks := ticks st; trace := trace st ++ [ev] |}).

(* ================================================================== *)
(** * The result cache ([cache.ts]) *)
(* ================================================================== *)

Definition isKVConfigured (env : Env) : bool :=
  Js.truthy (KV_URL env) && Js.truthy (KV_REST_API_URL env)
  && Js.truthy (KV_REST_API_TOKEN env).

Definition getKV (env : Env) (w : World) : M (option KVInstance) :=
  if negb (isKVConfigured env) then mret None
  else
    kv ← readKvModule;
    match kv with
    | Some kvInstance => mret (Some kvInstance)
    | None =>
        kvInstance ← liftRes (importKV w);
        _ ← setKvModule kvInstance;
        mret (Some kvInstance)
    end.

Definition CACHE_TTL : Z := 24 * 60 * 60.

Definition getCachedResult (env : Env) (w : World) (key : string)
  : M (option (list GrammarError)) :=
  tryCatchM
    (kvInstance ← getKV env w;
     match kvInstance with
     | None => mret None
     | Some kvInstance =>
         cached ← onStore (kv_get kvInstance key);
         mret cached
     end)
    (fun error => mret None).

Definition setCachedResult (env : Env) (w : World) (key : string)
           (errors : list GrammarError) (ttl : Z) : M unit :=
  tryCatchM
    (kvInstance ← getKV env w;
     match kvInstance with
     | None => mret tt
     | Some kvInstance => onStore (kv_set kvInstance key (VErrors errors) ttl)
     end)
    (fun error => mret tt).

Definition incrementProviderUsage (env : Env) (w : World) (provider : string)
  : M unit :=
  tryCatchM
    (kvInstance ← getKV env w;
     match kvInstance with
     | None => mret tt
     | Some kvInstance =>
         let key := "usage:" ++ provider ++ ":count" in
         _ ← onStore (kv_incr kvInstance key);
         mret tt
     end)
    (fun error => mret tt).

Definition trackSession (env : Env) (w : World) (sessionId : string)
  : M unit :=
  tryCatchM
    (kvInstance ← getKV env w;
     match kvInstance with
     | None => mret tt
     | Some kvInstance =>
         let key := "session:" ++ sessionId in
         exists_ ← onStore (kv_exists kvInstance key);
         if (exists_ =? 0)%Z then
           now ← dateNow w;
           _ ← onStore (kv_set kvInstance key (VNumber now)
                               (30 * 24 * 60 * 60));
           _ ← onStore (kv_incr kvInstance "sessions:total");
           mret tt
         else mret tt
     end)
    (fun error => mret tt).

(* ================================================================== *)
(** * The orchestrator ([app/api/grammar-check/route.ts]) *)
(* ================================================================== *)

(** A value of the request body before any check of its type. *)
Inductive JsValue :=
| JsUndefined
| JsNull
| JsBoolean (b : bool)
| JsNumber (n : Q)
| JsString (s : string)
| JsObject.

(** [!v] is [negb (jsTruthy v)]. *)
Definition jsTruthy (v : JsValue) : bool :=
  match v with
  | JsUndefined | JsNull => false
  | JsBoolean b => b
  | JsNumber n => negb (Qeq_bool n 0)
  | JsString s => negb (String.eqb s "")
  | JsObject => true
  end.

(** [typeof v === 'string'] *)
Definition isString (v : JsValue) : bool :=
  match v with
  | JsString _ => true
  | _ => false
  end.

(** The string that a value is, once [isString] has been checked. *)
Definition stringOf (v : JsValue) : string :=
  match v with
  | JsString s => s
  | _ => ""
  end.

(** [knownProviders.includes(v)]: only a string can be equal to a member. *)
Definition includesValue (xs : list string) (v : JsValue) : bool :=
  isString v && Js.includes xs (stringOf v).

Record RequestBody := mkRequestBody
  { text : JsValue;
    provider : JsValue;
    sessionId : option string;
    language : option string }.

Record Metadata := mkMetadata
  { md_provider : string;
    md_processingTime : Z;
    md_cached : bool;
    md_timestamp : Z;
    md_language : string }.

Record GrammarCheckResponse := mkGrammarCheckResponse
  { errors : list GrammarError; metadata : Metadata }.

Inductive ResponseBody :=
| ErrorBody (error : string)
| CheckBody (response : GrammarCheckResponse).

(** [NextResponse.json(body, { status })]; the status defaults to 200. *)
Record Response := mkResponse { httpStatus : Z; body : ResponseBody }.

Definition MAX_TEXT_LENGTH : Z := 10000.

Definition knownProviders : list string :=
  [ "languagetool"; "openai"; "openrouter" ].

(** The [switch (provider)] of the handler. *)
Definition dispatch (env : Env) (w : World) (provider text language : string)
  : Res (list GrammarError) :=
  if String.eqb provider "languagetool" then
    checkWithLanguageTool w text language
  else if String.eqb provider "openai" then
    checkWithOpenAI env w text language
  else if String.eqb provider "openrouter" then
    checkWithOpenRouter env w text language
  else throwError "Invalid provider".

(** The handler after validation: [text] is a non-empty string of at most
    [MAX_TEXT_LENGTH] units and [provider] is a known identifier. *)
Definition serve (env : Env) (w : World) (startTime : Z)
           (text provider : string) (sessionId : option string)
           (language : string) : M Response :=
  _ ← (if Js.truthy sessionId then
         _ ← emit (EvTrackSession (default "" sessionId));
         detach (trackSession env w (default "" sessionId))
       else mret tt);
  let cacheKey := generateCacheKey provider language text in
  _ ← emit (EvCacheGet cacheKey);
  cachedResult ← getCachedResult env w cacheKey;
  match cachedResult with
  | Some cachedResult =>
      now ← dateNow w;
      let processingTime := now - startTime in
      timestamp ← dateNow w;
      mret (mkResponse 200
              (CheckBody
                 {| errors := cachedResult;
                    metadata := {| md_provider := provider;
                                   md_processingTime := processingTime;
                                   md_cached := true;
                                   md_timestamp := timestamp;
                                   md_language := language |} |}))
  | None =>
      _ ← emit (EvProviderCall provider text language);
      match dispatch env w provider text language with
      | Err providerError =>
          mret (mkResponse 500
                  (ErrorBody ("Grammar check failed: "
                                ++ emessage providerError)))
      | Ok errors =>
          _ ← emit (EvCacheSet cacheKey);
          _ ← detach (setCachedResult env w cacheKey errors CACHE_TTL);
          _ ← emit (EvUsage provider);
          _ ← detach (incrementProviderUsage env w provider);
          now ← dateNow w;
          let processingTime := now - startTime in
          timestamp ← dateNow w;
          mret (mkResponse 200
                  (CheckBody
                     {| errors := errors;
                        metadata := {| md_provider := provider;
                                       md_processingTime := processingTime;
                                       md_cached := false;
                                       md_timestamp := timestamp;
                                       md_language := language |} |}))
      end
  end.

(** [POST(request)].  [requestJson] is what [await request.json()] gives:
    the body, or a rejection when the body is not JSON (or is [null], on
    which the destructuring throws). *)
Definition POST (env : Env) (w : World) (requestJson : Res RequestBody)
  : M Response :=
  startTime ← dateNow w;
  tryCatchM
    (body ← liftRes requestJson;
     let language := default "en-US" (language body) in
     if negb (jsTruthy (text body)) || negb (isString (text body))
     then mret (mkResponse 400 (ErrorBody "Text is required"))
     else
       let text := stringOf (text body) in
       if Js.len text >? MAX_TEXT_LENGTH then
         mret (mkResponse 400
                 (ErrorBody ("Text exceeds maximum length of "
                               ++ pretty MAX_TEXT_LENGTH ++ " characters")))
       else if negb (jsTruthy (provider body))
               || negb (includesValue knownProviders (provider body))
       then mret (mkResponse 400 (ErrorBody "Invalid provider"))
       else
         serve env w startTime text (stringOf (provider body))
               (sessionId body) language)
    (fun error => mret (mkResponse 500 (ErrorBody "Internal server error"))).

(* ================================================================== *)
(** * Reference collaborators *)
(* ================================================================== *)

(** An in-memory client: entries are kept with the expiry they were
    written with; a counter that is absent counts from zero. *)
Definition counterOf (e : option Entry) : Z :=
  match e with
  | Some {| entryValue := VNumber n |} => n
  | _ => 0
  end.

Definition memoryKV : KVInstance :=
  {| kv_get := fun key st =>
       (match st !! key with
        | Some {| entryValue := VErrors errors |} => Ok (Some errors)
        | _ => Ok None
        end, st);
     kv_set := fun key v ttl st => (Ok tt, <[key := mkEntry v (Some ttl)]> st);
     kv_incr := fun key st =>
       let n := counterOf (st !! key) + 1 in
       (Ok n, <[key := mkEntry (VNumber n)
                         ((st !! key) ≫= entryTtl)]> st);
     kv_exists := fun key st =>
       (Ok (if st !! key is Some _ then 1 else 0), st) |}.

(** A client whose every operation rejects. *)
Definition unreachableKV : KVInstance :=
  let down := mkExn KError "fetch failed" in
  {| kv_get := fun _ st => (Err down, st);
     kv_set := fun _ _ _ st => (Err down, st);
     kv_incr := fun _ st => (Err down, st);
     kv_exists := fun _ st => (Err down, st) |}.

Definition initialState : State :=
  {| kvModule := None; store := ∅; ticks := 0; trace := [] |}.

Definition noEnv : Env :=
  {| KV_URL := None; KV_REST_API_URL := None; KV_REST_API_TOKEN := None;
     OPENAI_API_KEY := None; OPENROUTER_API_KEY := None;
     NEXT_PUBLIC_APP_URL := None |}.

Definition fullEnv : Env :=
  {| KV_URL := Some "redis://kv"; KV_REST_API_URL := Some "https://kv";
     KV_REST_API_TOKEN := Some "token";
     OPENAI_API_KEY := Some "sk-test"; OPENROUTER_API_KEY := Some "or-test";
     NEXT_PUBLIC_APP_URL := None |}.

Definition sampleMatch (offset length : Z) (replacements : list string)
  : LanguageToolMatch :=
  {| m_message := "Possible spelling mistake found.";
     m_shortMessage := Some "Spelling mistake";
     m_offset := offset;
     m_length := length;
     m_replacements := List.map mkLTReplacement replacements;
     m_rule := {| lr_id := "MORFOLOGIK_RULE_EN_US";
                  lr_description := "Possible spelling mistake";
                  lr_category := {| cat_id := "TYPOS";
                                    cat_name := "Possible Typo" |} |};
     m_context := {| ctx_text := ""; ctx_offset := offset;
                     ctx_length := length |};
     m_type := Some {| typeName := "Other" |} |}.

Definition sampleLLMError : OpenAIGrammarError :=
  {| g_message := "Spelling"; g_shortMessage := None; g_offset := 0;
     g_length := 4;
     g_replacements := [ "hello"; "help"; "helot"; "held"; "hell"; "helm";
                         "hero" ];
     g_ruleId := "SPELLING_001"; g_ruleDescription := "Misspelt word";
     g_category := "Spelling"; g_type := spelling |}.

(** What the normalisers make of [sampleLLMError]: its first five
    replacements are kept. *)
Definition sampleNormalized : GrammarError :=
  {| e_message := "Spelling"; e_shortMessage := None; e_offset := 0;
     e_length := 4;
     e_replacements := [ "hello"; "help"; "helot"; "held"; "hell" ];
     e_rule := {| rule_id := "SPELLING_001";
                  rule_description := "Misspelt word";
                  rule_category := "Spelling" |};
     e_type := spelling; e_context := None |}.

(** A world in which the rule-based service answers with the given matches,
    the OpenRouter endpoint answers with the given status and content, and
    [JSON.parse] accepts two documents: one whose [errors] holds
    [sampleLLMError], one whose [errors] holds an object without
    [replacements]. *)
Definition sampleWorld (ltMatches : list LanguageToolMatch)
           (routerStatus : Z) (routerContent : option string)
           (kv : Res KVInstance) : World :=
  {| fetchLanguageTool := fun _ =>
       FetchResponse (mkHttpResponse 200 "OK"
                        (Ok (mkLanguageToolResponse ltMatches)));
     fetchOpenRouter := fun _ =>
       FetchResponse
         (mkHttpResponse routerStatus ""
            (Ok (mkOpenRouterResponse
                   (Some [ mkChoice (Some (mkChatMessage routerContent)) ]))));
     openaiCreate := fun _ _ =>
       Ok (mkChatCompletion
             [ mkChoice (Some (mkChatMessage (Some "{errors}"))) ]);
     JSON_parse := fun s =>
       if String.eqb s "{errors}" then
         Ok (ErrorsArray [ ItemObject sampleLLMError ])
       else if String.eqb s "{errors:[{message}]}" then
         Ok (ErrorsArray [ ReplacementsUndefined ])
       else Err (mkExn KSyntaxError "Unexpected token in JSON");
     importKV := kv;
     clock := fun n => 1000 + Z.of_nat n |}.

(** A text of exactly 10,001 units. *)
Definition text10001 : string :=
  string_of_list_ascii (repeat "a"%char (Z.to_nat 10001)).

(* ================================================================== *)
(** * Vocabulary of the specification *)
(* ================================================================== *)

(** The score the ranker gives a candidate at a given error: the context
    window and the sentence-start test are those of
    [smartOrderSuggestions]. *)
Definition rankScore (originalWord fullText : string) (errorOffset : Z)
           (candidate : string) : Res Q :=
  let contextBefore :=
    Js.substring fullText (Z.max 0 (errorOffset - 50)) errorOffset in
  let contextAfter :=
    Js.substring fullText (errorOffset + Js.len originalWord)
                 (errorOffset + Js.len originalWord + 50) in
  let isStartOfSentence :=
    (errorOffset =? 0)%Z || Js.endsSentence contextBefore in
  scoreSuggestion candidate originalWord contextBefore contextAfter
                  isStartOfSentence.

(** The candidate is scored, and its score is [q]. *)
Definition scoreIs (originalWord fullText : string) (errorOffset : Z)
           (q : Q) (candidate : string) : bool :=
  match rankScore originalWord fullText errorOffset candidate with
  | Ok q' => Qeq_bool q' q
  | Err _ => false
  end.

(** The first code unit of the word is its own upper-case form. *)
Definition startsUpper (word : string) : bool :=
  match Js.index word 0 with
  | Some c => String.eqb c (Js.toUpperCase c)
  | None => false
  end.

(** The first code unit of the word is not its own upper-case form: a
    lower-case letter. *)
Definition startsLower (word : string) : bool :=
  match Js.index word 0 with
  | Some c => negb (String.eqb c (Js.toUpperCase c))
  | None => false
  end.

(** The rules of the score other than the capitalization bonus, added up:
    common word, greeting at a sentence start, length difference, edit
    distance, and the two context bonuses. *)
Definition scoreOtherRules
           (suggestion originalWord contextBefore contextAfter : string)
           (isStartOfSentence : bool) : Q :=
  let suggestionLower := Js.toLowerCase suggestion in
  let contextWords :=
    Js.splitWhitespace
      (Js.toLowerCase (contextBefore ++ " " ++ contextAfter)) in
  ((if Js.includes COMMON_WORDS suggestionLower then 10 else 0)
   + (if isStartOfSentence && Js.includes greetings suggestionLower
      then 15 else 0)
   - inject_Z (Z.abs (Js.len suggestion - Js.len originalWord)) * (1 # 2)
   - inject_Z (getEditDistance (Js.toLowerCase originalWord) suggestionLower)
   + (if String.eqb suggestionLower "hello" && Js.includes contextWords "how"
      then 20 else 0)
   + (if String.eqb suggestionLower "help"
         && (Js.includes contextWords "need" || Js.includes contextWords "can")
      then 10 else 0))%Q.


(** A lower-case hexadecimal digit. *)
Definition isHexChar (c : ascii) : bool :=
  existsb (Ascii.eqb c) (list_ascii_of_string "0123456789abcdef").

(** The ways in which the free-tier client finds OpenRouter unavailable:
    no credential, or a call that fails for one of the listed reasons, or
    for any other. *)
Inductive OpenRouterUnavailable (env : Env) (w : World)
          (text language : string) : Prop :=
| NoCredential :
    Js.truthy (OPENROUTER_API_KEY env) = false ->
    OpenRouterUnavailable env w text language
| FetchFails (e : Exn) :
    fetchOpenRouter w
      (openRouterCall env (default "" (OPENROUTER_API_KEY env)) text language)
    = FetchRejected e ->
    OpenRouterUnavailable env w text language
| Non2xx (response : HttpResponse OpenRouterResponse) :
    fetchOpenRouter w
      (openRouterCall env (default "" (OPENROUTER_API_KEY env)) text language)
    = FetchResponse response ->
    ok response = false ->
    OpenRouterUnavailable env w text language
| BodyNotJson (response : HttpResponse OpenRouterResponse) (e : Exn) :
    fetchOpenRouter w
      (openRouterCall env (default "" (OPENROUTER_API_KEY env)) text language)
    = FetchResponse response ->
    json response = Err e ->
    OpenRouterUnavailable env w text language
| EmptyContent (response : HttpResponse OpenRouterResponse)
               (data : OpenRouterResponse) (cs : list Choice) :
    fetchOpenRouter w
      (openRouterCall env (default "" (OPENROUTER_API_KEY env)) text language)
    = FetchResponse response ->
    json response = Ok data ->
    choices data = Some cs ->
    Js.truthy (firstContent cs) = false ->
    OpenRouterUnavailable env w text language
| MalformedContent (response : HttpResponse OpenRouterResponse)
                   (data : OpenRouterResponse) (cs : list Choice)
                   (content : string) (e : Exn) :
    fetchOpenRouter w
      (openRouterCall env (default "" (OPENROUTER_API_KEY env)) text language)
    = FetchResponse response ->
    json response = Ok data ->
    choices data = Some cs ->
    firstContent cs = Some content ->
    JSON_parse w content = Err e ->
    OpenRouterUnavailable env w text language
| CallFails (e : Exn) :
    openRouterRequest env w (default "" (OPENROUTER_API_KEY env))
                      text language = Err e ->
    OpenRouterUnavailable env w text language.

(** Every error of the list carries at most five replacements. *)
Definition capped (errors : list GrammarError) : Prop :=
  Forall (fun e => (List.length (e_replacements e) <= 5)%nat) errors.

(** What a returned error keeps of a LanguageTool match: the first five
    candidates of the order in which the ranker returns the match's
    replacements. *)
Definition rankedFirstFive (fullText : string) (m : LanguageToolMatch)
           (e : GrammarError) : Prop :=
  exists ordered,
    smartOrderSuggestions
      (List.map value (m_replacements m))
      (Js.substring fullText (m_offset m) (m_offset m + m_length m))
      fullText (m_offset m) = Ok ordered
    /\ e_replacements e = firstn 5 ordered.

(** What a returned error keeps of an element of a language model's
    [errors] array: the element is an error object, and the error has the
    first five of its replacements. *)
Definition firstFive (item : ErrorItem) (e : GrammarError) : Prop :=
  exists error,
    item = ItemObject error
    /\ e_replacements e = firstn 5 (g_replacements error).

(** The elements a language-model client maps over: those of the [errors]
    array, none when [errors] is no array. *)
Definition itemsOf (parsed : GrammarResponse) : list ErrorItem :=
  match parsed with
  | ErrorsArray errors => errors
  | _ => []
  end.

(** The request of [checkWithOpenAI]. *)
Definition openAICall (language text : string) : ChatRequest :=
  {| model := "gpt-4o-mini";
     systemContent := systemPrompt;
     userContent := userPrompt language text;
     temperature := 3 # 10;
     jsonObjectFormat := true |}.

(** The client an operation of the cache works with: the one the module
    holds, or else the one the dynamic import yields. *)
Definition resolveKV (w : World) (st : State) : Res KVInstance :=
  match kvModule st with
  | Some kvInstance => Ok kvInstance
  | None => importKV w
  end.

(** The situations in which a lookup has nothing to return: the store is
    not configured, the client cannot be loaded, the backend fails, or the
    key is absent. *)
Inductive CacheYieldsNothing (env : Env) (w : World) (key : string)
          (st : State) : Prop :=
| StoreUnconfigured :
    isKVConfigured env = false ->
    CacheYieldsNothing env w key st
| ClientUnavailable (e : Exn) :
    resolveKV w st = Err e ->
    CacheYieldsNothing env w key st
| BackendFailure (kvInstance : KVInstance) (e : Exn) (store' : Store) :
    resolveKV w st = Ok kvInstance ->
    kv_get kvInstance key (store st) = (Err e, store') ->
    CacheYieldsNothing env w key st
| CacheMiss (kvInstance : KVInstance) (store' : Store) :
    resolveKV w st = Ok kvInstance ->
    kv_get kvInstance key (store st) = (Ok None, store') ->
    CacheYieldsNothing env w key st.

(** The requests that validation rejects, as the specification lists them:
    [text] missing or not a string, [text] longer than 10,000 units,
    [provider] not one of the three identifiers. *)
Inductive InvalidRequest (request : RequestBody) : Prop :=
| TextNotString :
    isString (text request) = false ->
    InvalidRequest request
| TextTooLong (s : string) :
    text request = JsString s ->
    10000 < Js.len s ->
    InvalidRequest request
| UnknownProvider :
    includesValue knownProviders (provider request) = false ->
    InvalidRequest request.

(** The state after one reading of the clock and nothing else. *)
Definition afterClockRead (st : State) : State :=
  {| kvModule := kvModule st; store := store st;
     ticks := S (ticks st); trace := trace st |}.

(* ================================================================== *)
(** * Vocabulary for the rest of the code *)
(* ================================================================== *)

(** The code units of a string, first to last. *)
Definition chars (s : string) : list ascii := list_ascii_of_string s.

(** The recurrence the matrix of [getEditDistance] is filled with, on the
    reversed prefixes: [lev rb ra] is [matrix[i][j]] when [rb] is the first
    [i] units of [b] and [ra] the first [j] units of [a], last unit first. *)
Fixpoint lev (xs ys : list ascii) : Z :=
  match xs with
  | [] => Z.of_nat (List.length ys)
  | x :: xs' =>
      (fix inner (ys : list ascii) : Z :=
         match ys with
         | [] => Z.of_nat (S (List.length xs'))
         | y :: ys' =>
             if Ascii.eqb x y then lev xs' ys'
             else Z.min (Z.min (lev xs' ys' + 1) (inner ys' + 1))
                        (lev xs' ys + 1)
         end) ys
  end.

(** Row [rb] of the matrix from column [ra] on: the entries for [ra] and
    for [ra] extended by each further unit of [rest]. *)
Fixpoint rowFrom (rb ra : list ascii) (rest : string) : list Z :=
  lev rb ra ::
  match rest with
  | EmptyString => []
  | String c rest' => rowFrom rb (c :: ra) rest'
  end.

(** The string has no colon. *)
Definition noColon (s : string) : bool :=
  forallb (fun c => negb (Ascii.eqb c ":"%char)) (chars s).

(** The request passes the three checks of the handler. *)
Definition validRequest (request : RequestBody) : bool :=
  jsTruthy (text request) && isString (text request)
  && (Js.len (stringOf (text request)) <=? MAX_TEXT_LENGTH)
  && jsTruthy (provider request)
  && includesValue knownProviders (provider request).

(** A computation that makes no recorded call: it leaves the trace as it
    found it. *)
Definition silent {A} (m : M A) : Prop :=
  forall st, trace (snd (m st)) = trace st.

(** The call recorded for the session, if the request names one. *)
Definition sessionEvents (sessionId : option string) : list Event :=
  if Js.truthy sessionId then [ EvTrackSession (default "" sessionId) ]
  else [].

(** The state in which the handler of a valid request looks the cache up:
    the clock has been read, the session call has been made if the request
    names a session, and the lookup is recorded. *)
Definition beforeLookup (env : Env) (w : World) (sessionId : option string)
           (cacheKey : string) (st : State) : State :=
  snd ((_ ← (if Js.truthy sessionId then
               _ ← emit (EvTrackSession (default "" sessionId));
               detach (trackSession env w (default "" sessionId))
             else mret tt);
        emit (EvCacheGet cacheKey)) (afterClockRead st)).


(** [typeName?.toLowerCase()] and the like reach a string only when there
    is one. *)
Definition isAsciiOpt (s : option string) : bool :=
  from_option Js.isAscii true s.

(* ================================================================== *)
(** * The editor ([GrammarEditor], [HighlightedText]) *)
(* ================================================================== *)

(** [s.substring(a)]: from [a] to the end. *)
Definition substringFrom (s : string) (a : Z) : string :=
  Js.substring s a (Js.len s).

(** The state of [GrammarEditor] that the correction handlers write.  The
    selected error is kept without its DOM element. *)
Record EditorState := mkEditorState
  { ed_text : string;
    ed_selectedError : option GrammarError;
    ed_popoverOpen : bool;
    ed_fixedErrors : Z }.

(** [text.substring(0, offset) + suggestion
     + text.substring(offset + length)], the new text of
    [handleApplySuggestion] and of the auto-correct effect. *)
Definition replaceSpan (text : string) (offset length : Z)
           (suggestion : string) : string :=
  Js.substring text 0 offset ++ suggestion
    ++ substringFrom text (offset + length).

Definition handleApplySuggestion (st : EditorState) (error : GrammarError)
           (suggestion : string) : EditorState :=
  let newText :=
    replaceSpan (ed_text st) (e_offset error) (e_length error) suggestion in
  {| ed_text := newText;
     ed_selectedError := None;
     ed_popoverOpen := false;
     ed_fixedErrors := ed_fixedErrors st + 1 |}.

(** [error.replacements.length > 0] guards the first replacement. *)
Definition handleAutoCorrect (st : EditorState) (error : GrammarError)
  : EditorState :=
  match e_replacements error with
  | [] => st
  | first :: _ => handleApplySuggestion st error first
  end.

(** A piece of the overlay of [HighlightedText]: plain text in a [span], or
    the text of an error in a [mark]. *)
Inductive Segment :=
| Plain (s : string)
| Mark (error : GrammarError) (s : string).

Definition segmentText (seg : Segment) : string :=
  match seg with
  | Plain s => s
  | Mark _ s => s
  end.

(** One turn of the [forEach] of [renderHighlightedText]. *)
Definition highlightStep (text : string) (acc : list Segment * Z)
           (error : GrammarError) : list Segment * Z :=
  let '(segments, lastIndex) := acc in
  let offset := e_offset error in
  let length := e_length error in
  let segments :=
    if offset >? lastIndex
    then (segments ++ [ Plain (Js.substring text lastIndex offset) ])%list
    else segments in
  let errorText := Js.substring text offset (offset + length) in
  ((segments ++ [ Mark error errorText ])%list, offset + length).

Definition renderHighlightedText (text : string) (errors : list GrammarError)
  : list Segment :=
  if (Z.of_nat (List.length errors) =? 0) || (Js.len text =? 0) then
    [ Plain (if String.eqb text "" then " " else text) ]
  else
    let sortedErrors :=
      sort (fun a b => inject_Z (e_offset a - e_offset b)) errors in
    let '(segments, lastIndex) :=
      List.fold_left (highlightStep text) sortedErrors ([], 0) in
    if lastIndex <? Js.len text
    then (segments ++ [ Plain (substringFrom text lastIndex) ])%list
    else segments.

(** The text the overlay shows: its pieces, one after the other. *)
Definition overlayText (segments : list Segment) : string :=
  List.fold_right (fun seg rest => (segmentText seg ++ rest)%string) ""
                  segments.

(** The marks of the overlay, in order. *)
Definition marks (segments : list Segment) : list (GrammarError * string) :=
  List.flat_map (fun seg => match seg with
                            | Plain _ => []
                            | Mark error s => [ (error, s) ]
                            end) segments.

(** Spans read in order, none starting before the one before it ends, all
    within [len] units: [from] is where the previous span ended. *)
Fixpoint chained (from : Z) (errors : list GrammarError) (len : Z) : Prop :=
  match errors with
  | [] => from <= len
  | error :: rest =>
      from <= e_offset error /\ 0 <= e_length error
      /\ chained (e_offset error + e_length error) rest len
  end.

(* ================================================================== *)
(** * The client hook ([useGrammarCheck]) and the statistics *)
(* ================================================================== *)

Inductive GrammarProvider := LanguageToolProvider | OpenAIProvider
                           | OpenRouterProvider.

(** The string a value of the type ['languagetool' | 'openai' |
    'openrouter'] is. *)
Definition providerName (p : GrammarProvider) : string :=
  match p with
  | LanguageToolProvider => "languagetool"
  | OpenAIProvider => "openai"
  | OpenRouterProvider => "openrouter"
  end.

(** The body the effect of [useGrammarCheck] posts to [/api/grammar-check],
    or [None] when the effect returns before any request: the hook is
    disabled, the debounced text has fewer than 3 units, or there is no
    session yet. *)
Definition useGrammarCheckRequest
           (enabled : bool) (debouncedText : string)
           (provider : GrammarProvider) (sessionId : option string)
           (language : string) : option RequestBody :=
  if negb enabled || (Js.len debouncedText <? 3) || negb (Js.truthy sessionId)
  then None
  else Some {| text := JsString debouncedText;
               provider := JsString (providerName provider);
               sessionId := sessionId;
               language := Some language |}.

#[global] Instance ErrorType_eq_dec : EqDecision ErrorType.
Proof. solve_decision. Defined.

(** [acc[type] = (acc[type] || 0) + 1] on an object: a key that is present
    keeps its place, a new key goes last. *)
Fixpoint bump (type : ErrorType) (acc : list (ErrorType * Z))
  : list (ErrorType * Z) :=
  match acc with
  | [] => [ (type, 1) ]
  | (t, n) :: rest =>
      if decide (t = type) then (t, (if n =? 0 then 0 else n) + 1) :: rest
      else (t, n) :: bump type rest
  end.

(** [errorsByType]: the entries of the object that [reduce] builds. *)
Definition errorsByType (errors : list GrammarError) : list (ErrorType * Z) :=
  List.fold_left (fun acc error => bump (e_type error) acc) errors [].

(** [sortedTypes] *)
Definition sortedTypes (errors : list GrammarError) : list (ErrorType * Z) :=
  sort (fun a b => inject_Z (snd b - snd a)) (errorsByType errors).

(** The "Remaining" figure: [Math.max(0, errors.length - fixedErrors)]. *)
Definition remaining (errors : list GrammarError) (fixedErrors : Z) : Z :=
  Z.max 0 (Z.of_nat (List.length errors) - fixedErrors).

(* ================================================================== *)
(** * The analytics endpoint ([app/api/analytics/route.ts]) *)
(* ================================================================== *)

(** The event as it arrives: a required field may be missing. *)
Record AnalyticsEvent := mkAnalyticsEvent
  { ev_sessionId : option string;
    ev_provider : option string;
    ev_cached : bool;
    ev_timestamp : option Z;
    ev_textLength : option Z;
    ev_errorCount : option Z }.

Inductive AnalyticsValue :=
| AEvent (event : AnalyticsEvent)
| ANumber (n : Z).

Definition AnalyticsStore : Type := gmap string AnalyticsValue.

(** The client as this file uses it.  Every operation may reject, and may
    leave the store in any state. *)
Record AnalyticsKV := mkAnalyticsKV
  { a_set : string -> AnalyticsEvent -> Z -> AnalyticsStore
            -> Res unit * AnalyticsStore;
    a_incr : string -> AnalyticsStore -> Res Z * AnalyticsStore;
    a_incrby : string -> Z -> AnalyticsStore -> Res Z * AnalyticsStore;
    a_get : string -> AnalyticsStore -> Res (option Z) * AnalyticsStore }.

(** The module variable [kv] of this file, and the remote store. *)
Record AnalyticsState := mkAnalyticsState
  { an_kv : option AnalyticsKV; an_store : AnalyticsStore }.

Definition AM (A : Type) : Type := AnalyticsState -> Res A * AnalyticsState.

#[global] Instance am_ret : MRet AM := fun _ a st => (Ok a, st).
#[global] Instance am_bind : MBind AM := fun _ _ k m st =>
  match m st with
  | (Ok a, st') => k a st'
  | (Err e, st') => (Err e, st')
  end.

Definition onAnalyticsStore {A}
           (op : AnalyticsStore -> Res A * AnalyticsStore) : AM A :=
  fun st =>
    let '(r, store') := op (an_store st) in
    (r, {| an_kv := an_kv st; an_store := store' |}).

Definition getAnalyticsKV (env : Env) (import : Res AnalyticsKV)
  : AM (option AnalyticsKV) :=
  fun st =>
    if negb (isKVConfigured env) then (Ok None, st)
    else match an_kv st with
         | Some kvInstance => (Ok (Some kvInstance), st)
         | None =>
             match import with
             | Ok kvInstance =>
                 (Ok (Some kvInstance),
                  {| an_kv := Some kvInstance; an_store := an_store st |})
             | Err e => (Err e, st)
             end
         end.

Inductive AnalyticsBody :=
| AnalyticsError (error : string)
| AnalyticsSuccess (cached : option bool).

Record AnalyticsResponse := mkAnalyticsResponse
  { an_status : Z; an_body : AnalyticsBody }.

(** [!sessionId || !provider || !timestamp] *)
Definition missingFields (event : AnalyticsEvent) : bool :=
  negb (Js.truthy (ev_sessionId event))
  || negb (Js.truthy (ev_provider event))
  || match ev_timestamp event with
     | Some t => t =? 0
     | None => true
     end.

(** The inner [try] block of the analytics [POST]: [Some response] when it
    returns from inside the block, [None] when it runs to its end. *)
Definition storeEvent (env : Env) (import : Res AnalyticsKV)
           (event : AnalyticsEvent) : AM (option AnalyticsResponse) :=
  let sessionId := default "" (ev_sessionId event) in
  let provider := default "" (ev_provider event) in
  let timestamp := default 0 (ev_timestamp event) in
  kvInstance ← getAnalyticsKV env import;
  match kvInstance with
  | None =>
      mret (Some (mkAnalyticsResponse 200 (AnalyticsSuccess (Some false))))
  | Some kvInstance =>
      let eventKey :=
        ("event:" ++ sessionId ++ ":" ++ pretty timestamp)%string in
      _ ← onAnalyticsStore (a_set kvInstance eventKey event
                                  (30 * 24 * 60 * 60));
      _ ← onAnalyticsStore
            (a_incr kvInstance ("provider:" ++ provider ++ ":total")%string);
      _ ← (if ev_cached event then
             _ ← onAnalyticsStore
                   (a_incr kvInstance
                           ("provider:" ++ provider ++ ":cached")%string);
             mret tt
           else mret tt);
      _ ← match ev_textLength event with
          | Some textLength =>
              _ ← onAnalyticsStore
                    (a_incrby kvInstance
                              ("provider:" ++ provider ++ ":chars")%string
                              textLength);
              mret tt
          | None => mret tt
          end;
      _ ← match ev_errorCount event with
          | Some errorCount =>
              _ ← onAnalyticsStore
                    (a_incrby kvInstance
                              ("provider:" ++ provider ++ ":errors")%string
                              errorCount);
              mret tt
          | None => mret tt
          end;
      mret None
  end.

(** The analytics [POST]. *)
Definition analyticsPOST (env : Env) (import : Res AnalyticsKV)
           (requestJson : Res AnalyticsEvent) : AM AnalyticsResponse :=
  fun st =>
    match requestJson with
    | Err _ =>
        (Ok (mkAnalyticsResponse 500 (AnalyticsError "Internal server error")),
         st)
    | Ok event =>
        if missingFields event then
          (Ok (mkAnalyticsResponse 400
                 (AnalyticsError "Missing required fields")), st)
        else
          match storeEvent env import event st with
          | (Ok (Some response), st') => (Ok response, st')
          | (Ok None, st') =>
              (Ok (mkAnalyticsResponse 200 (AnalyticsSuccess None)), st')
          | (Err kvError, st') =>
              (Ok (mkAnalyticsResponse 200 (AnalyticsSuccess None)), st')
          end
    end.

(** An in-memory client for the analytics file: a counter that is absent
    counts from zero. *)
Definition analyticsCounter (v : option AnalyticsValue) : Z :=
  match v with
  | Some (ANumber n) => n
  | _ => 0
  end.

Definition memoryAnalyticsKV : AnalyticsKV :=
  {| a_set := fun key event _ st => (Ok tt, <[key := AEvent event]> st);
     a_incr := fun key st =>
       let n := analyticsCounter (st !! key) + 1 in
       (Ok n, <[key := ANumber n]> st);
     a_incrby := fun key by_ st =>
       let n := analyticsCounter (st !! key) + by_ in
       (Ok n, <[key := ANumber n]> st);
     a_get := fun key st =>
       (Ok (match st !! key with
            | Some (ANumber n) => Some n
            | _ => None
            end), st) |}.

(** A computation that never sets the count of clock readings back. *)
Definition advancing {A} (m : M A) : Prop :=
  forall st, (ticks st <= ticks (snd (m st)))%nat.

(** Leading white space dropped. *)
Fixpoint dropSpaces (l : list ascii) : list ascii :=
  match l with
  | [] => []
  | c :: rest => if Js.isSpace c then dropSpaces rest else l
  end.

(** [s.trim()]: white space dropped at both ends. *)
Definition trim (s : string) : string :=
  string_of_list_ascii
    (List.rev (dropSpaces (List.rev (dropSpaces (chars s))))).

(** The word count of [GrammarEditor]:
    [text.trim().split(/\s+/).filter(w => w.length > 0).length]. *)
Definition wordCount (text : string) : Z :=
  Z.of_nat
    (List.length
       (List.filter (fun w => Js.len w >? 0) (Js.splitWhitespace (trim text)))).

(** The places where a word starts: a unit that is not white space and
    that follows white space or, when [inWord] is false, begins the text. *)
Fixpoint wordStarts (l : list ascii) (inWord : bool) : nat :=
  match l with
  | [] => 0
  | c :: rest =>
      if Js.isSpace c then wordStarts rest false
      else ((if inWord then 0 else 1) + wordStarts rest true)%nat
  end.

(* ================================================================== *)
(** * Results and exceptions: basic facts *)
(* ================================================================== *)

Lemma bindRes_ok {A B} (m : Res A) (k : A -> Res B) (b : B) :
  (m ≫= k) = Ok b -> exists a, m = Ok a /\ k a = Ok b.
Proof.
  destruct m as [a | e]; simpl; intros H.
  - exists a. split; [reflexivity | exact H].
  - discriminate H.
Qed.

Lemma tryCatch_rethrow_ok {A} (body : Res A) (wrap : Exn -> Exn) (a : A) :
  tryCatch body (fun e => Err (wrap e)) = Ok a -> body = Ok a.
Proof. destruct body; simpl; congruence. Qed.

Lemma mapRes_ok_Forall2 {A B} (f : A -> Res B) (xs : list A) (ys : list B) :
  mapRes f xs = Ok ys -> Forall2 (fun x y => f x = Ok y) xs ys.
Proof.
  revert ys. induction xs as [| x xs IH]; simpl; intros ys H.
  - injection H as <-. constructor.
  - apply bindRes_ok in H as (y & Hy & H).
    apply bindRes_ok in H as (ys' & Hys & H).
    injection H as <-. constructor; auto.
Qed.

Lemma Forall2_mapRes_ok {A B} (f : A -> Res B) (xs : list A) (ys : list B) :
  Forall2 (fun x y => f x = Ok y) xs ys -> mapRes f xs = Ok ys.
Proof.
  induction 1 as [| x y xs ys Hxy _ IH]; simpl.
  - reflexivity.
  - rewrite Hxy. simpl. rewrite IH. reflexivity.
Qed.

(** A map over a list with a throwing element throws. *)
Lemma mapRes_In_err {A B} (f : A -> Res B) (xs : list A) (x : A) (e : Exn) :
  In x xs -> f x = Err e -> exists e', mapRes f xs = Err e'.
Proof.
  induction xs as [| y xs IH]; simpl; intros Hin Hx.
  - contradiction.
  - destruct (f y) as [b | e0] eqn:Hy; simpl.
    + destruct Hin as [-> | Hin]; [congruence |].
      destruct (IH Hin Hx) as (e' & ->). simpl. eauto.
    + eauto.
Qed.

(** The exception of a map is the exception of one of its elements. *)
Lemma mapRes_err_In {A B} (f : A -> Res B) (xs : list A) (e : Exn) :
  mapRes f xs = Err e -> exists x, In x xs /\ f x = Err e.
Proof.
  induction xs as [| y xs IH]; simpl; intros H.
  - discriminate H.
  - destruct (f y) as [b | e0] eqn:Hy; simpl in H.
    + destruct (mapRes f xs) as [ys | e1]; simpl in H; [discriminate H |].
      injection H as ->. destruct (IH eq_refl) as (x & Hin & Hx). eauto.
    + injection H as ->. eauto.
Qed.

(* ================================================================== *)
(** * The sort: order, permutation, stability *)
(* ================================================================== *)

Section SortFacts.

Context {A : Type} (key : A -> Q).

(** The comparator of the ranker, [(a, b) => b.score - a.score]. *)
Let cmp : A -> A -> Q := fun a b => (key b - key a)%Q.

Definition descending (l : list A) : Prop :=
  StronglySorted (fun a b => (key b <= key a)%Q) l.

Lemma sortInsert_perm (x : A) (l : list A) :
  Permutation (sortInsert cmp x l) (x :: l).
Proof.
  induction l as [| y l IH]; simpl.
  - reflexivity.
  - destruct (Qlt_le_dec 0 (cmp x y)).
    + rewrite IH. apply perm_swap.
    + reflexivity.
Qed.

Lemma sort_perm (l : list A) : Permutation (sort cmp l) l.
Proof.
  induction l as [| x l IH]; simpl.
  - reflexivity.
  - unfold sort in *. simpl. rewrite sortInsert_perm. now constructor.
Qed.

Lemma sortInsert_descending (x : A) (l : list A) :
  descending l -> descending (sortInsert cmp x l).
Proof.
  unfold descending.
  induction l as [| y l IH]; simpl; intros Hl.
  - repeat constructor.
  - apply StronglySorted_inv in Hl as [Hl Hy].
    destruct (Qlt_le_dec 0 (cmp x y)) as [Hlt | Hle]; unfold cmp in *.
    + constructor; [auto |].
      eapply Permutation_Forall; [symmetry; apply sortInsert_perm |].
      constructor; [lra | exact Hy].
    + constructor; [constructor; assumption |].
      constructor; [lra |].
      eapply List.Forall_impl; [| exact Hy]. simpl. intros b Hb. lra.
Qed.

Lemma sort_descending (l : list A) : descending (sort cmp l).
Proof.
  induction l as [| x l IH].
  - constructor.
  - apply sortInsert_descending. exact IH.
Qed.

(** A list already in descending order is left as it is. *)
Lemma sort_descending_id (l : list A) : descending l -> sort cmp l = l.
Proof.
  unfold descending.
  induction l as [| x l IH]; intros Hl.
  - reflexivity.
  - apply StronglySorted_inv in Hl as [Hl Hx].
    change (sort cmp (x :: l)) with (sortInsert cmp x (sort cmp l)).
    rewrite (IH Hl).
    destruct l as [| y l]; simpl; [reflexivity |].
    destruct (Qlt_le_dec 0 (cmp x y)) as [Hlt | Hle]; [| reflexivity].
    apply Forall_inv in Hx. unfold cmp in Hlt. lra.
Qed.

Lemma sort_idempotent (l : list A) : sort cmp (sort cmp l) = sort cmp l.
Proof. apply sort_descending_id, sort_descending. Qed.

(** Stability: the elements of one score keep their relative order. *)
Lemma sortInsert_ties (v : Q) (x : A) (l : list A) :
  List.filter (fun a => Qeq_bool (key a) v) (sortInsert cmp x l)
  = List.filter (fun a => Qeq_bool (key a) v) (x :: l).
Proof.
  induction l as [| y l IH]; [reflexivity |].
  simpl sortInsert.
  destruct (Qlt_le_dec 0 (cmp x y)) as [Hlt | Hle]; [| reflexivity].
  unfold cmp in Hlt. simpl in *. rewrite IH.
  destruct (Qeq_bool (key x) v) eqn:Hx, (Qeq_bool (key y) v) eqn:Hy;
    try reflexivity.
  apply Qeq_bool_iff in Hx, Hy. lra.
Qed.

Lemma sort_ties (v : Q) (l : list A) :
  List.filter (fun a => Qeq_bool (key a) v) (sort cmp l)
  = List.filter (fun a => Qeq_bool (key a) v) l.
Proof.
  induction l as [| x l IH]; [reflexivity |].
  change (sort cmp (x :: l)) with (sortInsert cmp x (sort cmp l)).
  rewrite sortInsert_ties. simpl. rewrite IH. reflexivity.
Qed.

End SortFacts.

(* ================================================================== *)
(** * The ranker *)
(* ================================================================== *)

Lemma smartOrderSuggestions_eq
      (suggestions : list string) (originalWord fullText : string)
      (errorOffset : Z) :
  smartOrderSuggestions suggestions originalWord fullText errorOffset
  = (scored ←
       mapRes (fun s =>
                 q ← rankScore originalWord fullText errorOffset s;
                 Ok (mkScored s q))
              suggestions;
     Ok (List.map suggestion
                  (sort (fun a b => (score b - score a)%Q) scored))).
Proof. reflexivity. Qed.

(** Every pair the ranker builds carries the score of its candidate. *)
Lemma scored_wellformed
      (originalWord fullText : string) (errorOffset : Z)
      (suggestions : list string) (scored : list Scored) :
  mapRes (fun s =>
            q ← rankScore originalWord fullText errorOffset s;
            Ok (mkScored s q))
         suggestions = Ok scored ->
  List.map suggestion scored = suggestions
  /\ Forall (fun x =>
               rankScore originalWord fullText errorOffset (suggestion x)
               = Ok (score x))
            scored.
Proof.
  intros H. apply mapRes_ok_Forall2 in H.
  induction H as [| s x ss xs Hsx _ [IHm IHf]]; simpl.
  - split; [reflexivity | constructor].
  - apply bindRes_ok in Hsx as (q & Hq & Hx). injection Hx as <-. simpl.
    split; [now rewrite IHm | constructor; assumption].
Qed.

Lemma wellformed_rescored
      (originalWord fullText : string) (errorOffset : Z)
      (scored : list Scored) :
  Forall (fun x =>
            rankScore originalWord fullText errorOffset (suggestion x)
            = Ok (score x))
         scored ->
  mapRes (fun s =>
            q ← rankScore originalWord fullText errorOffset s;
            Ok (mkScored s q))
         (List.map suggestion scored) = Ok scored.
Proof.
  induction 1 as [| [s q] xs Hx _ IH]; simpl in *.
  - reflexivity.
  - rewrite Hx. simpl. rewrite IH. reflexivity.
Qed.

Lemma filter_map_agree {A B} (g : A -> B) (p : A -> bool) (p' : B -> bool)
      (l : list A) :
  Forall (fun x => p' (g x) = p x) l ->
  List.filter p' (List.map g l) = List.map g (List.filter p l).
Proof.
  induction 1 as [| x l Hx _ IH]; simpl.
  - reflexivity.
  - rewrite Hx, IH. destruct (p x); reflexivity.
Qed.

(** C6. With the original word "helo", the candidates "hello", "help",
    "helot", the error at offset 0 of "helo how are you", the ranker
    returns "hello" first: the scores are 43.5, 9 and -1.5.  This holds in
    whatever order the three candidates arrive. *)
Theorem smartOrderSuggestions_helo_hello_first :
  smartOrderSuggestions [ "hello"; "help"; "helot" ] "helo"
                        "helo how are you" 0
  = Ok [ "hello"; "help"; "helot" ]
  /\ List.map (rankScore "helo" "helo how are you" 0)
              [ "hello"; "help"; "helot" ]
     = [ Ok (87 # 2)%Q; Ok (18 # 2)%Q; Ok (-3 # 2)%Q ]
  /\ List.map (fun candidates =>
                 smartOrderSuggestions candidates "helo" "helo how are you" 0)
              [ [ "hello"; "helot"; "help" ]; [ "help"; "hello"; "helot" ];
                [ "help"; "helot"; "hello" ]; [ "helot"; "hello"; "help" ];
                [ "helot"; "help"; "hello" ] ]
     = [ Ok [ "hello"; "help"; "helot" ]; Ok [ "hello"; "help"; "helot" ];
         Ok [ "hello"; "help"; "helot" ]; Ok [ "hello"; "help"; "helot" ];
         Ok [ "hello"; "help"; "helot" ] ].
Proof. repeat split; vm_compute; reflexivity. Qed.

(** The order the ranker returns: a fixed point of the ranker, and a
    stable rearrangement of the candidates. *)
Lemma smartOrderSuggestions_reorders
        (suggestions ordered : list string) (originalWord fullText : string)
        (errorOffset : Z) :
  smartOrderSuggestions suggestions originalWord fullText errorOffset
  = Ok ordered ->
  smartOrderSuggestions ordered originalWord fullText errorOffset = Ok ordered
  /\ Permutation suggestions ordered
  /\ (forall q : Q,
        List.filter (scoreIs originalWord fullText errorOffset q) ordered
        = List.filter (scoreIs originalWord fullText errorOffset q)
                      suggestions).
Proof.
  intros H. rewrite smartOrderSuggestions_eq in H.
  apply bindRes_ok in H as (scored & Hscored & H). injection H as <-.
  apply scored_wellformed in Hscored as [Hmap Hwf].
  set (sorted := sort (fun a b => (score b - score a)%Q) scored).
  assert (Hperm : Permutation sorted scored) by apply (sort_perm score).
  assert (Hwf' : Forall (fun x =>
                           rankScore originalWord fullText errorOffset
                                     (suggestion x) = Ok (score x)) sorted).
  { eapply Permutation_Forall; [symmetry; exact Hperm | exact Hwf]. }
  assert (Hagree : forall q l,
             Forall (fun x =>
                       rankScore originalWord fullText errorOffset
                                 (suggestion x) = Ok (score x)) l ->
             Forall (fun x =>
                       scoreIs originalWord fullText errorOffset q
                               (suggestion x)
                       = Qeq_bool (score x) q) l).
  { intros q l Hl. eapply List.Forall_impl; [| exact Hl].
    intros x Hx. unfold scoreIs. now rewrite Hx. }
  split; [| split].
  - rewrite smartOrderSuggestions_eq.
    rewrite (wellformed_rescored _ _ _ _ Hwf'). simpl.
    unfold sorted. now rewrite (sort_idempotent score).
  - rewrite <- Hmap. apply Permutation_map. now symmetry.
  - intros q. rewrite <- Hmap.
    rewrite (filter_map_agree _ _ _ _ (Hagree q sorted Hwf')).
    rewrite (filter_map_agree _ _ _ _ (Hagree q scored Hwf)).
    unfold sorted. now rewrite (sort_ties score).
Qed.

(** C8. When the ranker returns an order, ranking that order again returns
    it unchanged; the order is a rearrangement of the candidates in which
    the candidates of any one score keep the order they arrived in. *)
Theorem smartOrderSuggestions_idempotent_stable
        (suggestions ordered : list string) (originalWord fullText : string)
        (errorOffset : Z) :
  smartOrderSuggestions suggestions originalWord fullText errorOffset
  = Ok ordered ->
  smartOrderSuggestions ordered originalWord fullText errorOffset = Ok ordered
  /\ Permutation suggestions ordered
  /\ (forall q : Q,
        List.filter (scoreIs originalWord fullText errorOffset q) ordered
        = List.filter (scoreIs originalWord fullText errorOffset q)
                      suggestions).
Proof. apply smartOrderSuggestions_reorders. Qed.

Lemma smartOrderSuggestions_idempotent_stable_witness :
  smartOrderSuggestions [ "helot"; "hero"; "help"; "hello"; "held" ] "helo"
                        "helo how are you" 0
  = Ok [ "hello"; "help"; "hero"; "held"; "helot" ]
  /\ smartOrderSuggestions [ "hello"; "help"; "hero"; "held"; "helot" ] "helo"
                           "helo how are you" 0
     = Ok [ "hello"; "help"; "hero"; "held"; "helot" ].
Proof.
  assert (H : smartOrderSuggestions
                [ "helot"; "hero"; "help"; "hello"; "held" ] "helo"
                "helo how are you" 0
              = Ok [ "hello"; "help"; "hero"; "held"; "helot" ])
    by (vm_compute; reflexivity).
  split; [exact H |].
  exact (proj1 (smartOrderSuggestions_idempotent_stable _ _ _ _ _ H)).
Defined.

(** ** Where the scoring function throws *)

Lemma scoreSuggestion_empty_candidate
      (originalWord contextBefore contextAfter : string)
      (isStartOfSentence : bool) :
  startsUpper originalWord = true ->
  scoreSuggestion "" originalWord contextBefore contextAfter isStartOfSentence
  = Err Js.undefinedToUpperCase.
Proof.
  unfold startsUpper, scoreSuggestion. intros H.
  destruct (Js.index originalWord 0) as [c |]; [| discriminate H].
  cbn [Js.callToUpperCase mbind res_bind bindRes Js.strictEq].
  rewrite H. reflexivity.
Qed.

(** The only exception of the scoring function is the [TypeError] of
    [undefined.toUpperCase()]. *)
Lemma scoreSuggestion_err
      (suggestion originalWord contextBefore contextAfter : string)
      (isStartOfSentence : bool) (e : Exn) :
  scoreSuggestion suggestion originalWord contextBefore contextAfter
                  isStartOfSentence = Err e ->
  e = Js.undefinedToUpperCase.
Proof.
  unfold scoreSuggestion.
  destruct (Js.index originalWord 0) as [c |];
    cbn [Js.callToUpperCase mbind res_bind bindRes]; [| congruence].
  destruct (Js.strictEq (Some c) (Some (Js.toUpperCase c)));
    [destruct (Js.index suggestion 0) as [d |] |];
    cbn [Js.callToUpperCase mbind res_bind bindRes]; congruence.
Qed.

(** The scoring function returns a score exactly when the original word is
    not empty and, if it starts with its own upper-case form, the candidate
    is not empty either. *)
Lemma scoreSuggestion_total_iff
      (suggestion originalWord contextBefore contextAfter : string)
      (isStartOfSentence : bool) :
  isOk (scoreSuggestion suggestion originalWord contextBefore contextAfter
                        isStartOfSentence)
  = match Js.index originalWord 0 with
    | None => false
    | Some _ =>
        if startsUpper originalWord
        then negb (String.eqb suggestion "")
        else true
    end.
Proof.
  unfold scoreSuggestion, startsUpper.
  destruct originalWord as [| c o]; [reflexivity |].
  cbn [Js.index String.get Js.callToUpperCase mbind res_bind bindRes
       Js.strictEq].
  destruct (String.eqb (String c "") (Js.toUpperCase (String c ""))).
  - destruct suggestion as [| d s]; reflexivity.
  - reflexivity.
Qed.

Lemma mapRes_all_ok {A B} (f : A -> Res B) (xs : list A) :
  (forall x, In x xs -> isOk (f x) = true) ->
  exists ys, mapRes f xs = Ok ys.
Proof.
  induction xs as [| x xs IH]; simpl; intros H; [eauto |].
  destruct (f x) as [y | e] eqn:Hx.
  - destruct IH as (ys & ->); [auto |]. simpl. eauto.
  - specialize (H x (or_introl eq_refl)). rewrite Hx in H. discriminate H.
Qed.

(** The ranker returns an order whenever the original word is not empty
    and, if that word starts with its own upper-case form, no candidate is
    empty.  In particular it is total on every lower-case original word. *)
Lemma smartOrderSuggestions_total
      (suggestions : list string) (originalWord fullText : string)
      (errorOffset : Z) :
  originalWord <> "" ->
  (startsUpper originalWord = true -> ~ In "" suggestions) ->
  exists ordered,
    smartOrderSuggestions suggestions originalWord fullText errorOffset
    = Ok ordered.
Proof.
  intros Hne Hcand. rewrite smartOrderSuggestions_eq.
  destruct (mapRes_all_ok
              (fun s =>
                 q ← rankScore originalWord fullText errorOffset s;
                 Ok (mkScored s q))
              suggestions) as (scored & ->); [| simpl; eauto].
  intros s Hs. unfold rankScore.
  match goal with
  | |- context [scoreSuggestion ?a ?b ?c ?d ?e] =>
      pose proof (scoreSuggestion_total_iff a b c d e) as Htot;
      destruct (scoreSuggestion a b c d e) as [q | err]; [reflexivity |]
  end.
  simpl in Htot. destruct originalWord as [| c o]; [congruence |].
  cbn [Js.index String.get] in Htot.
  destruct (startsUpper (String c o)); [| discriminate Htot].
  destruct (String.eqb_spec s ""); [| discriminate Htot].
  subst s. exfalso. now apply Hcand.
Qed.

Lemma smartOrderSuggestions_err
      (suggestions : list string) (originalWord fullText : string)
      (errorOffset : Z) (e : Exn) :
  smartOrderSuggestions suggestions originalWord fullText errorOffset = Err e ->
  e = Js.undefinedToUpperCase.
Proof.
  rewrite smartOrderSuggestions_eq. intros H.
  destruct (mapRes _ suggestions) as [scored | e'] eqn:Hmap;
    [discriminate H |].
  injection H as ->.
  apply mapRes_err_In in Hmap as (s & _ & Hs).
  unfold rankScore in Hs.
  destruct (scoreSuggestion _ _ _ _ _) as [q | e'] eqn:Hq;
    [discriminate Hs |].
  injection Hs as ->. exact (scoreSuggestion_err _ _ _ _ _ _ Hq).
Qed.

Lemma normalizeMatch_err (m : LanguageToolMatch) (fullText : string) (e : Exn) :
  normalizeMatch m fullText = Err e -> e = Js.undefinedToUpperCase.
Proof.
  unfold normalizeMatch. intros H.
  destruct (smartOrderSuggestions _ _ _ _) as [l | e'] eqn:Hs;
    [discriminate H |].
  injection H as ->. exact (smartOrderSuggestions_err _ _ _ _ _ Hs).
Qed.

Lemma normalizeMatch_empty_replacement (m : LanguageToolMatch)
      (fullText : string) :
  In "" (List.map value (m_replacements m)) ->
  startsUpper (Js.substring fullText (m_offset m) (m_offset m + m_length m))
  = true ->
  normalizeMatch m fullText = Err Js.undefinedToUpperCase.
Proof.
  intros Hin Hup. unfold normalizeMatch.
  rewrite smartOrderSuggestions_eq.
  destruct (mapRes_In_err
              (fun s =>
                 q ← rankScore
                       (Js.substring fullText (m_offset m)
                                     (m_offset m + m_length m))
                       fullText (m_offset m) s;
                 Ok (mkScored s q))
              _ "" Js.undefinedToUpperCase Hin) as (e & He).
  { unfold rankScore. now rewrite scoreSuggestion_empty_candidate. }
  pose proof He as He'.
  apply mapRes_err_In in He' as (s & _ & Hs).
  unfold rankScore in Hs.
  destruct (scoreSuggestion _ _ _ _ _) as [q | e'] eqn:Hq;
    [discriminate Hs |].
  injection Hs as ->. apply scoreSuggestion_err in Hq as ->.
  rewrite He. reflexivity.
Qed.

(** C10. The scoring function is partial: on an empty candidate and an
    original word that starts with its own upper-case form it throws the
    [TypeError] of [undefined.toUpperCase()], whatever the context.  The
    rule-based client reaches it: when the service answers with a match on
    such a word and an empty string among its replacements, the check fails
    with that error's message. *)
Theorem scoreSuggestion_throws_on_empty_candidate (originalWord : string) :
  startsUpper originalWord = true ->
  (forall contextBefore contextAfter isStartOfSentence,
      scoreSuggestion "" originalWord contextBefore contextAfter
                      isStartOfSentence
      = Err Js.undefinedToUpperCase)
  /\ Js.undefinedToUpperCase
     = mkExn KTypeError
             "Cannot read properties of undefined (reading 'toUpperCase')"
  /\ (forall w text language response data m,
        fetchLanguageTool w (mkLanguageToolRequest text language)
        = FetchResponse response ->
        ok response = true ->
        json response = Ok data ->
        In m (matches data) ->
        In "" (List.map value (m_replacements m)) ->
        Js.substring text (m_offset m) (m_offset m + m_length m)
        = originalWord ->
        checkWithLanguageTool w text language
        = Err (mkExn KError
                 ("Failed to check text with LanguageTool: "
                    ++ emessage Js.undefinedToUpperCase))).
Proof.
  intros Hup. split; [| split].
  - intros. now apply scoreSuggestion_empty_candidate.
  - reflexivity.
  - intros w text language response data m Hfetch Hok Hjson Hm Hempty Hword.
    unfold checkWithLanguageTool, languageToolRequest.
    rewrite Hfetch, Hok, Hjson.
    cbn [negb mbind res_bind bindRes].
    destruct (mapRes_In_err (fun m => normalizeMatch m text) _ m
                            Js.undefinedToUpperCase Hm) as (e & He).
    { apply normalizeMatch_empty_replacement; [exact Hempty |].
      now rewrite Hword. }
    pose proof He as He'.
    apply mapRes_err_In in He' as (m' & _ & Hm').
    apply normalizeMatch_err in Hm' as ->.
    rewrite He. reflexivity.
Qed.

Lemma scoreSuggestion_throws_on_empty_candidate_witness :
  scoreSuggestion "" "Helo" "" " how are you" true
  = Err Js.undefinedToUpperCase
  /\ checkWithLanguageTool
       (sampleWorld [ sampleMatch 0 4 [ "Hello"; "" ] ] 200 None
                    (Ok memoryKV))
       "Helo how are you" "en-US"
     = Err (mkExn KError
              ("Failed to check text with LanguageTool: "
                 ++ emessage Js.undefinedToUpperCase)).
Proof.
  destruct (scoreSuggestion_throws_on_empty_candidate "Helo" eq_refl)
    as (Hscore & _ & Hcheck).
  split.
  - apply Hscore.
  - eapply (Hcheck _ _ _ _ _ (sampleMatch 0 4 [ "Hello"; "" ])).
    + reflexivity.
    + reflexivity.
    + reflexivity.
    + simpl. left. reflexivity.
    + simpl. right. left. reflexivity.
    + reflexivity.
Defined.

(** ** The capitalization bonus *)

(** On non-empty words the score is the sum of the other rules, plus 5
    exactly when both the original word and the candidate start with their
    own upper-case form. *)
Lemma scoreSuggestion_capitalization
      (suggestion originalWord contextBefore contextAfter : string)
      (isStartOfSentence : bool) :
  originalWord <> "" -> suggestion <> "" ->
  exists q,
    scoreSuggestion suggestion originalWord contextBefore contextAfter
                    isStartOfSentence = Ok q
    /\ (q == scoreOtherRules suggestion originalWord contextBefore
                             contextAfter isStartOfSentence
              + (if startsUpper originalWord && startsUpper suggestion
                 then 5 else 0))%Q.
Proof.
  intros Ho Hs.
  destruct originalWord as [| c o]; [congruence |].
  destruct suggestion as [| d s]; [congruence |].
  unfold scoreSuggestion, scoreOtherRules, startsUpper.
  cbn [Js.index String.get Js.callToUpperCase mbind res_bind bindRes
       Js.strictEq].
  generalize (Js.includes COMMON_WORDS (Js.toLowerCase (String d s))).
  generalize (Js.includes greetings (Js.toLowerCase (String d s))).
  generalize (inject_Z (Z.abs (Js.len (String d s) - Js.len (String c o)))).
  generalize (inject_Z (getEditDistance (Js.toLowerCase (String c o))
                                        (Js.toLowerCase (String d s)))).
  generalize (String.eqb (Js.toLowerCase (String d s)) "hello"
              && Js.includes
                   (Js.splitWhitespace
                      (Js.toLowerCase (contextBefore ++ " " ++ contextAfter)))
                   "how").
  generalize (String.eqb (Js.toLowerCase (String d s)) "help"
              && (Js.includes
                    (Js.splitWhitespace
                       (Js.toLowerCase (contextBefore ++ " " ++ contextAfter)))
                    "need"
                  || Js.includes
                       (Js.splitWhitespace
                          (Js.toLowerCase
                             (contextBefore ++ " " ++ contextAfter)))
                       "can")).
  generalize (String.eqb (String c "") (Js.toUpperCase (String c ""))).
  generalize (String.eqb (String d "") (Js.toUpperCase (String d ""))).
  intros upS upO help hello ed ld greet common.
  destruct upO, upS; cbn [mbind res_bind bindRes andb];
    eexists; (split; [reflexivity |]);
    destruct common, isStartOfSentence, greet, hello, help;
    cbn [andb]; ring.
Qed.

(** C7, on the code.  Original word and candidate both start with a
    lower-case letter in "helo" / "hello", both with an upper-case letter in
    "Helo" / "Hello".  Every other rule scores the two pairs alike (8.5);
    the bonus of 5 goes to the upper-case pair only.  So for the lower-case
    word "helo" the candidates "Hello" and "hello" tie, and the one that
    changes the capitalization stays ahead when it arrives first. *)
Theorem scoreSuggestion_no_bonus_for_lowercase_pair :
  scoreSuggestion "hello" "helo" "" "" false = Ok (17 # 2)%Q
  /\ scoreSuggestion "Hello" "Helo" "" "" false = Ok (27 # 2)%Q
  /\ scoreOtherRules "hello" "helo" "" "" false
     = scoreOtherRules "Hello" "Helo" "" "" false
  /\ startsLower "helo" = true /\ startsLower "hello" = true
  /\ startsUpper "Helo" = true /\ startsUpper "Hello" = true
  /\ smartOrderSuggestions [ "Hello"; "hello" ] "helo" "helo there" 0
     = Ok [ "Hello"; "hello" ].
Proof. repeat split; vm_compute; reflexivity. Qed.

(* ================================================================== *)
(** * The cache key *)
(* ================================================================== *)

(** The digest is SHA-256: the test vectors of FIPS 180-4 (the empty
    message, one block, two blocks). *)
Example digestHex_empty :
  Sha256.digestHex ""
  = "e3b0c44298fc1c149afbf4c8996fb92427ae41e4649b934ca495991b7852b855".
Proof. vm_compute. reflexivity. Qed.

Example digestHex_abc :
  Sha256.digestHex "abc"
  = "ba7816bf8f01cfea414140de5dae2223b00361a396177a9cb410ff61f20015ad".
Proof. vm_compute. reflexivity. Qed.

Example digestHex_two_blocks :
  Sha256.digestHex "abcdbcdecdefdefgefghfghighijhijkijkljklmklmnlmnomnopnopq"
  = "248d6a61d20638b8e5c026930c3e6039a33ce45964ff2167f6ecedd419db06c1".
Proof. vm_compute. reflexivity. Qed.

Example generateCacheKey_example :
  generateCacheKey "languagetool" "en-US" "helo how are you"
  = "grammar:languagetool:en-US:0caedd70293888dc".
Proof. vm_compute. reflexivity. Qed.

Lemma bigEndian_length (n : nat) (x : Z) :
  List.length (Sha256.bigEndian n x) = n.
Proof. induction n as [| n IH]; simpl; [reflexivity | now rewrite IH]. Qed.

Lemma bigEndian_bytes (n : nat) (x : Z) :
  Forall (fun b => 0 <= b < 256) (Sha256.bigEndian n x).
Proof.
  induction n as [| n IH]; simpl; constructor; [| exact IH].
  apply Z.mod_pos_bound. lia.
Qed.

Lemma digest_length (msg : list Z) : List.length (Sha256.digest msg) = 32%nat.
Proof.
  unfold Sha256.digest, Sha256.digestWords.
  cbn [List.flat_map]. rewrite !length_app, !bigEndian_length. reflexivity.
Qed.

Lemma digest_bytes (msg : list Z) :
  Forall (fun b => 0 <= b < 256) (Sha256.digest msg).
Proof.
  unfold Sha256.digest, Sha256.digestWords. cbn [List.flat_map].
  repeat (apply Forall_app; split); try apply bigEndian_bytes. constructor.
Qed.

Lemma hexOfBytes_length (bytes : list Z) :
  String.length (Sha256.hexOfBytes bytes) = (2 * List.length bytes)%nat.
Proof.
  induction bytes as [| b bytes IH]; simpl; [reflexivity |].
  rewrite IH. lia.
Qed.

Lemma hexDigit_isHexChar (d : Z) :
  0 <= d < 16 -> isHexChar (Sha256.hexDigit d) = true.
Proof.
  intros H.
  assert (Hd : d = 0 \/ d = 1 \/ d = 2 \/ d = 3 \/ d = 4 \/ d = 5 \/ d = 6
               \/ d = 7 \/ d = 8 \/ d = 9 \/ d = 10 \/ d = 11 \/ d = 12
               \/ d = 13 \/ d = 14 \/ d = 15) by lia.
  repeat (destruct Hd as [-> | Hd]; [reflexivity |]).
  subst d. reflexivity.
Qed.

Lemma hexOfBytes_chars (bytes : list Z) :
  Forall (fun b => 0 <= b < 256) bytes ->
  Forall (fun c => isHexChar c = true)
         (list_ascii_of_string (Sha256.hexOfBytes bytes)).
Proof.
  induction 1 as [| b bytes Hb _ IH]; simpl; [constructor |].
  constructor; [| constructor; [| exact IH]]; apply hexDigit_isHexChar.
  - split; [apply Z.div_pos; lia | apply Z.div_lt_upper_bound; lia].
  - apply Z.mod_pos_bound. lia.
Qed.

(** A prefix that fits: [substring 0 n s] has [n] units and [s] starts
    with it. *)
Lemma substring_prefix (n : nat) (s : string) :
  (n <= String.length s)%nat ->
  String.length (String.substring 0 n s) = n
  /\ exists rest, s = (String.substring 0 n s ++ rest)%string.
Proof.
  revert s. induction n as [| n IH]; intros s Hn.
  - destruct s; simpl; split; eauto.
  - destruct s as [| c s]; simpl in *; [lia |].
    destruct (IH s) as (Hlen & rest & Hrest); [lia |].
    split; [now rewrite Hlen |].
    exists rest.
    change (String c s = String c (String.substring 0 n s ++ rest)%string).
    now rewrite <- Hrest.
Qed.

Lemma prefix_chars (P : ascii -> Prop) (h rest : string) :
  Forall P (list_ascii_of_string (h ++ rest)%string) ->
  Forall P (list_ascii_of_string h).
Proof.
  induction h as [| c h IH]; simpl; intros H; [constructor |].
  apply List.Forall_cons_iff in H as [Hc H]. constructor; auto.
Qed.

Lemma digestHex_length (text : string) :
  String.length (Sha256.digestHex text) = 64%nat.
Proof.
  unfold Sha256.digestHex. rewrite hexOfBytes_length, digest_length.
  reflexivity.
Qed.

Lemma substring_digest (text : string) :
  Js.substring (Sha256.digestHex text) 0 16
  = String.substring 0 16 (Sha256.digestHex text).
Proof.
  unfold Js.substring, Js.len. rewrite digestHex_length. reflexivity.
Qed.

(** C2. The key is "grammar:", the provider, ":", the language, ":" and
    the first 16 of the 64 lower-case hexadecimal digits of the SHA-256
    digest of the text.  It is a function of the three strings alone: equal
    arguments give equal keys, and there is no failure case. *)
Theorem generateCacheKey_format (provider language text : string) :
  let h := String.substring 0 16 (Sha256.digestHex text) in
  generateCacheKey provider language text
  = ("grammar:" ++ provider ++ ":" ++ language ++ ":" ++ h)%string
  /\ String.length (Sha256.digestHex text) = 64%nat
  /\ String.length h = 16%nat
  /\ (exists rest, Sha256.digestHex text = (h ++ rest)%string)
  /\ Forall (fun c => isHexChar c = true) (list_ascii_of_string h)
  /\ (forall provider' language' text',
        provider' = provider -> language' = language -> text' = text ->
        generateCacheKey provider' language' text'
        = generateCacheKey provider language text).
Proof.
  intros h.
  destruct (substring_prefix 16 (Sha256.digestHex text)) as (Hlen & rest & Hrest).
  { rewrite digestHex_length. lia. }
  split; [| split; [| split; [| split; [| split]]]].
  - unfold generateCacheKey. rewrite substring_digest. reflexivity.
  - apply digestHex_length.
  - exact Hlen.
  - exists rest. exact Hrest.
  - apply (prefix_chars _ h rest). fold h in Hrest. rewrite <- Hrest.
    apply hexOfBytes_chars, digest_bytes.
  - intros ? ? ? -> -> ->. reflexivity.
Qed.

Lemma generateCacheKey_format_witness :
  generateCacheKey "openai" "en-US" "abc" = "grammar:openai:en-US:ba7816bf8f01cfea"
  /\ generateCacheKey "openai" "en-US" "abc"
     = generateCacheKey "openai" "en-US" "abc".
Proof.
  destruct (generateCacheKey_format "openai" "en-US" "abc")
    as (Hkey & _ & _ & _ & _ & Hsame).
  split.
  - rewrite Hkey. vm_compute. reflexivity.
  - apply Hsame; reflexivity.
Defined.

(* ================================================================== *)
(** * The provider clients *)
(* ================================================================== *)

Lemma checkWithOpenRouter_no_key (env : Env) (w : World)
      (text language : string) :
  Js.truthy (OPENROUTER_API_KEY env) = false ->
  checkWithOpenRouter env w text language
  = checkWithLanguageTool w text language.
Proof. unfold checkWithOpenRouter. now intros ->. Qed.

Lemma checkWithOpenRouter_failed_call (env : Env) (w : World)
      (text language : string) :
  isOk (openRouterRequest env w (default "" (OPENROUTER_API_KEY env))
                          text language) = false ->
  checkWithOpenRouter env w text language
  = checkWithLanguageTool w text language.
Proof.
  unfold checkWithOpenRouter.
  destruct (openRouterRequest _ _ _ _ _); simpl; [discriminate |].
  now destruct (Js.truthy (OPENROUTER_API_KEY env)).
Qed.

(** C1. When no OpenRouter credential is configured, or the call fails
    (the connection, a status outside 200-299, a body that is not JSON, no
    or empty content, content that is not JSON, or anything else thrown),
    the free-tier client returns what the rule-based client returns on the
    same text and language.  Whatever it throws, then or otherwise, is the
    error of the rule-based client; no error of OpenRouter leaves it. *)
Theorem checkWithOpenRouter_falls_back (env : Env) (w : World)
        (text language : string) :
  OpenRouterUnavailable env w text language ->
  checkWithOpenRouter env w text language
  = checkWithLanguageTool w text language
  /\ (forall e,
        checkWithOpenRouter env w text language = Err e ->
        exists cause,
          e = mkExn KError
                    ("Failed to check text with LanguageTool: " ++ cause)).
Proof.
  intros H. split.
  - destruct H as [Hkey | e Hf | r Hf Hok | r e Hf Hj
                   | r data cs Hf Hj Hcs Hc | r data cs c e Hf Hj Hcs Hc Hp
                   | e Hcall];
      [now apply checkWithOpenRouter_no_key | ..];
      apply checkWithOpenRouter_failed_call; unfold openRouterRequest;
      try rewrite Hf.
    + reflexivity.
    + rewrite Hok. reflexivity.
    + rewrite Hj. destruct (ok r); reflexivity.
    + rewrite Hj. destruct (ok r); [| reflexivity].
      cbn [negb mbind res_bind bindRes]. rewrite Hcs.
      cbn [mbind res_bind bindRes]. rewrite Hc. reflexivity.
    + rewrite Hj. destruct (ok r); [| reflexivity].
      cbn [negb mbind res_bind bindRes]. rewrite Hcs.
      cbn [mbind res_bind bindRes]. rewrite Hc.
      destruct (Js.truthy (Some c)); [| reflexivity].
      cbn [negb from_option id]. unfold parseGrammarResponse.
      rewrite Hp. reflexivity.
    + fold (openRouterRequest env w (default "" (OPENROUTER_API_KEY env))
                              text language).
      now rewrite Hcall.
  - intros e. unfold checkWithOpenRouter.
    assert (Hlt : checkWithLanguageTool w text language = Err e ->
                  exists cause,
                    e = mkExn KError
                          ("Failed to check text with LanguageTool: "
                             ++ cause)).
    { unfold checkWithLanguageTool.
      destruct (languageToolRequest w text language) as [l | e0]; simpl;
        [discriminate |].
      intros [= <-]. eauto. }
    destruct (Js.truthy (OPENROUTER_API_KEY env)); simpl; [| exact Hlt].
    destruct (openRouterRequest _ _ _ _ _); simpl; [discriminate | exact Hlt].
Qed.

Lemma checkWithOpenRouter_falls_back_witness :
  checkWithOpenRouter fullEnv
    (sampleWorld [ sampleMatch 0 4 [ "hello"; "help"; "helot" ] ] 503 None
                 (Ok memoryKV))
    "helo how are you" "en-US"
  = checkWithLanguageTool
      (sampleWorld [ sampleMatch 0 4 [ "hello"; "help"; "helot" ] ] 503 None
                   (Ok memoryKV))
      "helo how are you" "en-US".
Proof.
  refine (proj1 (checkWithOpenRouter_falls_back fullEnv _ _ _ _)).
  eapply Non2xx; reflexivity.
Defined.

(** ** The cap on replacements *)

Lemma normalizeMatch_capped (m : LanguageToolMatch) (fullText : string)
      (e : GrammarError) :
  normalizeMatch m fullText = Ok e ->
  (List.length (e_replacements e) <= 5)%nat.
Proof.
  unfold normalizeMatch. intros H.
  apply bindRes_ok in H as (ordered & _ & H). injection H as <-.
  simpl. apply List.firstn_le_length.
Qed.

Lemma normalizeMatch_ranked (m : LanguageToolMatch) (fullText : string)
      (e : GrammarError) :
  normalizeMatch m fullText = Ok e -> rankedFirstFive fullText m e.
Proof.
  unfold normalizeMatch. intros H.
  apply bindRes_ok in H as (ordered & Hord & H). injection H as <-.
  exists ordered. split; [exact Hord | reflexivity].
Qed.

Lemma normalizeOpenAIError_firstFive (item : ErrorItem) (e : GrammarError) :
  normalizeOpenAIError item = Ok e -> firstFive item e.
Proof.
  destruct item as [| | | | error]; try discriminate.
  intros [= <-]. exists error. split; reflexivity.
Qed.

Lemma normalizeOpenRouterError_firstFive (item : ErrorItem)
      (e : GrammarError) :
  normalizeOpenRouterError item = Ok e -> firstFive item e.
Proof.
  destruct item as [| | | | error]; try discriminate.
  intros [= <-]. exists error. split; reflexivity.
Qed.

Lemma rankedFirstFive_capped (fullText : string) (m : LanguageToolMatch)
      (e : GrammarError) :
  rankedFirstFive fullText m e -> (List.length (e_replacements e) <= 5)%nat.
Proof. intros (ordered & _ & ->). apply List.firstn_le_length. Qed.

Lemma firstFive_capped (item : ErrorItem) (e : GrammarError) :
  firstFive item e -> (List.length (e_replacements e) <= 5)%nat.
Proof. intros (error & _ & ->). apply List.firstn_le_length. Qed.

Lemma Forall2_capped {A} (R : A -> GrammarError -> Prop) (xs : list A)
      (errs : list GrammarError) :
  (forall x e, R x e -> (List.length (e_replacements e) <= 5)%nat) ->
  Forall2 R xs errs -> capped errs.
Proof.
  intros HR H. unfold capped.
  induction H as [| x e xs es Hxe _ IH]; constructor; eauto.
Qed.

Lemma Forall2_weaken {A B} (R R' : A -> B -> Prop) (xs : list A)
      (ys : list B) :
  (forall x y, R x y -> R' x y) -> Forall2 R xs ys -> Forall2 R' xs ys.
Proof. intros HR H. induction H; constructor; auto. Qed.

(** A list the rule-based client returns comes from the matches of the
    service's answer, one error per match and in their order. *)
Lemma checkWithLanguageTool_payload (w : World) (text language : string)
      (errs : list GrammarError) :
  checkWithLanguageTool w text language = Ok errs ->
  exists response data,
    fetchLanguageTool w (mkLanguageToolRequest text language)
    = FetchResponse response
    /\ json response = Ok data
    /\ Forall2 (rankedFirstFive text) (matches data) errs.
Proof.
  unfold checkWithLanguageTool, throwError. intros H.
  apply tryCatch_rethrow_ok
    with (wrap := fun error =>
                    mkExn KError ("Failed to check text with LanguageTool: "
                                    ++ emessage error)) in H.
  unfold languageToolRequest in H.
  destruct (fetchLanguageTool w _) as [e | response]; [discriminate H |].
  destruct (ok response); [| discriminate H].
  cbn [negb] in H. apply bindRes_ok in H as (data & Hjson & H).
  exists response, data. split; [reflexivity |]. split; [exact Hjson |].
  apply mapRes_ok_Forall2 in H.
  apply (Forall2_weaken _ _ _ _ (fun m e => normalizeMatch_ranked m text e) H).
Qed.

(** A list the premium client returns comes from the [errors] of the
    document in the completion's first choice. *)
Lemma checkWithOpenAI_payload (env : Env) (w : World) (text language : string)
      (errs : list GrammarError) :
  checkWithOpenAI env w text language = Ok errs ->
  exists completion parsed,
    openaiCreate w (default "" (OPENAI_API_KEY env)) (openAICall language text)
    = Ok completion
    /\ JSON_parse w (default "" (firstContent (completionChoices completion)))
       = Ok parsed
    /\ Forall2 firstFive (itemsOf parsed) errs.
Proof.
  unfold checkWithOpenAI, throwError. intros H.
  destruct (Js.truthy (OPENAI_API_KEY env)); [| discriminate H].
  cbn [negb] in H.
  apply tryCatch_rethrow_ok
    with (wrap := fun error =>
                    mkExn KError ("Failed to check text with OpenAI: "
                                    ++ emessage error)) in H.
  unfold openAIRequest in H.
  apply bindRes_ok in H as (completion & Hcreate & H).
  destruct (Js.truthy (firstContent (completionChoices completion)));
    [| discriminate H].
  cbn [negb] in H. apply bindRes_ok in H as (parsed & Hparse & H).
  exists completion, parsed. split; [exact Hcreate |]. split; [exact Hparse |].
  destruct parsed as [| | | errors]; try discriminate H; cbn [itemsOf].
  - injection H as <-. constructor.
  - apply mapRes_ok_Forall2 in H.
    apply (Forall2_weaken _ _ _ _ normalizeOpenAIError_firstFive H).
Qed.

(** A list the free-tier client returns as its own answer comes from the
    [errors] of the document in the first choice of OpenRouter's answer. *)
Lemma openRouterRequest_payload (env : Env) (w : World)
      (apiKey text language : string) (errs : list GrammarError) :
  openRouterRequest env w apiKey text language = Ok errs ->
  exists response data cs parsed,
    fetchOpenRouter w (openRouterCall env apiKey text language)
    = FetchResponse response
    /\ json response = Ok data
    /\ choices data = Some cs
    /\ JSON_parse w (default "" (firstContent cs)) = Ok parsed
    /\ Forall2 firstFive (itemsOf parsed) errs.
Proof.
  unfold openRouterRequest, throwError. intros H.
  destruct (fetchOpenRouter w _) as [e | response]; [discriminate H |].
  destruct (ok response); [| discriminate H].
  cbn [negb] in H. apply bindRes_ok in H as (data & Hjson & H).
  apply bindRes_ok in H as (cs & Hcs & H).
  destruct (choices data) as [cs' |] eqn:Hchoices; [| discriminate Hcs].
  injection Hcs as ->.
  destruct (Js.truthy (firstContent cs)); [| discriminate H].
  cbn [negb] in H. apply bindRes_ok in H as (returned & Hparse & H).
  unfold parseGrammarResponse in Hparse.
  apply tryCatch_rethrow_ok with (wrap := fun e => e) in Hparse.
  apply bindRes_ok in Hparse as (parsed & Hjs & Hparse).
  exists response, data, cs, parsed.
  repeat (split; [first [reflexivity | assumption] |]).
  destruct parsed as [| | | errors]; try discriminate Hparse; cbn [itemsOf].
  - injection Hparse as <-. injection H as <-. constructor.
  - injection Hparse as <-. injection H as <-. constructor.
  - apply bindRes_ok in Hparse as (normalized & Hmap & Hparse).
    injection Hparse as <-. injection H as <-.
    apply mapRes_ok_Forall2 in Hmap.
    apply (Forall2_weaken _ _ _ _ normalizeOpenRouterError_firstFive Hmap).
Qed.

(** A list the free-tier client returns is its own answer, or else the
    rule-based client's. *)
Lemma checkWithOpenRouter_cases (env : Env) (w : World)
      (text language : string) (errs : list GrammarError) :
  checkWithOpenRouter env w text language = Ok errs ->
  (Js.truthy (OPENROUTER_API_KEY env) = true
   /\ openRouterRequest env w (default "" (OPENROUTER_API_KEY env))
                        text language = Ok errs)
  \/ ((Js.truthy (OPENROUTER_API_KEY env) = false
       \/ isOk (openRouterRequest env w (default "" (OPENROUTER_API_KEY env))
                                  text language) = false)
      /\ checkWithLanguageTool w text language = Ok errs).
Proof.
  unfold checkWithOpenRouter.
  destruct (Js.truthy (OPENROUTER_API_KEY env)); cbn [negb]; [| auto].
  destruct (openRouterRequest _ _ _ _ _) as [l | e]; simpl; auto.
Qed.

Lemma checkWithLanguageTool_capped (w : World) (text language : string)
      (errs : list GrammarError) :
  checkWithLanguageTool w text language = Ok errs -> capped errs.
Proof.
  intros H.
  destruct (checkWithLanguageTool_payload _ _ _ _ H)
    as (_ & data & _ & _ & H2).
  exact (Forall2_capped _ _ _ (rankedFirstFive_capped text) H2).
Qed.

(** C4. Whichever client returns a list of errors (the rule-based one, the
    premium one, or the free-tier one, on its own answer or on the fallback),
    every error of the list has at most five replacements, because each
    returned error keeps the first five candidates of its source.  The list
    has one error per element of the payload the client received, in the
    payload's order: for a LanguageTool match the first five of the order
    the ranker returns for the match's replacements, for an error object of
    a language model the first five of its replacements. *)
Theorem replacements_capped (env : Env) (w : World) (text language : string)
        (errs : list GrammarError) :
  checkWithLanguageTool w text language = Ok errs
  \/ checkWithOpenAI env w text language = Ok errs
  \/ checkWithOpenRouter env w text language = Ok errs ->
  Forall (fun e => (List.length (e_replacements e) <= 5)%nat) errs
  /\ (checkWithLanguageTool w text language = Ok errs ->
      exists response data,
        fetchLanguageTool w (mkLanguageToolRequest text language)
        = FetchResponse response
        /\ json response = Ok data
        /\ Forall2 (rankedFirstFive text) (matches data) errs)
  /\ (checkWithOpenAI env w text language = Ok errs ->
      exists completion parsed,
        openaiCreate w (default "" (OPENAI_API_KEY env))
                     (openAICall language text) = Ok completion
        /\ JSON_parse w
             (default "" (firstContent (completionChoices completion)))
           = Ok parsed
        /\ Forall2 firstFive (itemsOf parsed) errs)
  /\ (checkWithOpenRouter env w text language = Ok errs ->
      (Js.truthy (OPENROUTER_API_KEY env) = true
       /\ exists response data cs parsed,
           fetchOpenRouter w
             (openRouterCall env (default "" (OPENROUTER_API_KEY env))
                             text language)
           = FetchResponse response
           /\ json response = Ok data
           /\ choices data = Some cs
           /\ JSON_parse w (default "" (firstContent cs)) = Ok parsed
           /\ Forall2 firstFive (itemsOf parsed) errs)
      \/ ((Js.truthy (OPENROUTER_API_KEY env) = false
           \/ isOk (openRouterRequest
                      env w (default "" (OPENROUTER_API_KEY env))
                      text language) = false)
          /\ checkWithLanguageTool w text language = Ok errs)).
Proof.
  intros H.
  assert (Hrouter :
            checkWithOpenRouter env w text language = Ok errs ->
            (Js.truthy (OPENROUTER_API_KEY env) = true
             /\ exists response data cs parsed,
                 fetchOpenRouter w
                   (openRouterCall env (default "" (OPENROUTER_API_KEY env))
                                   text language)
                 = FetchResponse response
                 /\ json response = Ok data
                 /\ choices data = Some cs
                 /\ JSON_parse w (default "" (firstContent cs)) = Ok parsed
                 /\ Forall2 firstFive (itemsOf parsed) errs)
            \/ ((Js.truthy (OPENROUTER_API_KEY env) = false
                 \/ isOk (openRouterRequest
                            env w (default "" (OPENROUTER_API_KEY env))
                            text language) = false)
                /\ checkWithLanguageTool w text language = Ok errs)).
  { intros Hr.
    destruct (checkWithOpenRouter_cases _ _ _ _ _ Hr) as [[Hkey Hown] | Hlt].
    - left. split; [exact Hkey |].
      exact (openRouterRequest_payload _ _ _ _ _ _ Hown).
    - right. exact Hlt. }
  split; [| split; [| split]].
  - destruct H as [H | [H | H]].
    + exact (checkWithLanguageTool_capped _ _ _ _ H).
    + destruct (checkWithOpenAI_payload _ _ _ _ _ H)
        as (_ & parsed & _ & _ & H2).
      exact (Forall2_capped _ _ _ firstFive_capped H2).
    + destruct (Hrouter H) as [(_ & _ & _ & _ & parsed & _ & _ & _ & _ & H2)
                              | (_ & Hlt)].
      * exact (Forall2_capped _ _ _ firstFive_capped H2).
      * exact (checkWithLanguageTool_capped _ _ _ _ Hlt).
  - apply checkWithLanguageTool_payload.
  - apply checkWithOpenAI_payload.
  - exact Hrouter.
Qed.

Lemma replacements_capped_witness :
  checkWithOpenAI fullEnv
    (sampleWorld [] 200 None (Ok memoryKV)) "helo how are you" "en-US"
  = Ok [ sampleNormalized ]
  /\ List.length (g_replacements sampleLLMError) = 7%nat
  /\ Forall (fun e => (List.length (e_replacements e) <= 5)%nat)
            [ sampleNormalized ].
Proof.
  assert (H : checkWithOpenAI fullEnv
                (sampleWorld [] 200 None (Ok memoryKV))
                "helo how are you" "en-US"
              = Ok [ sampleNormalized ])
    by reflexivity.
  split; [exact H | split; [reflexivity |]].
  exact (proj1 (replacements_capped fullEnv _ _ _ _ (or_intror (or_introl H)))).
Defined.

(* ================================================================== *)
(** * The result cache *)
(* ================================================================== *)

Lemma getKV_unconfigured (env : Env) (w : World) (st : State) :
  isKVConfigured env = false -> getKV env w st = (Ok None, st).
Proof. unfold getKV. now intros ->. Qed.

(** With a configured store, [getKV] yields the resolved client, and
    touches nothing but the module variable. *)
Lemma getKV_configured (env : Env) (w : World) (st : State) :
  isKVConfigured env = true ->
  match resolveKV w st with
  | Ok kvInstance =>
      exists st', getKV env w st = (Ok (Some kvInstance), st')
                  /\ store st' = store st /\ trace st' = trace st
  | Err e => getKV env w st = (Err e, st)
  end.
Proof.
  unfold getKV, resolveKV. intros ->. cbn [negb].
  unfold mbind, m_bind, readKvModule.
  destruct (kvModule st) as [kvInstance |] eqn:Hkv.
  - exists st. auto.
  - unfold liftRes. destruct (importKV w) as [kvInstance | e].
    + eexists. split; [reflexivity | split; reflexivity].
    + reflexivity.
Qed.

Lemma getCachedResult_never_raises (env : Env) (w : World) (key : string)
      (st : State) :
  exists v, fst (getCachedResult env w key st) = Ok v.
Proof.
  unfold getCachedResult, tryCatchM, mbind, m_bind.
  destruct (getKV env w st) as [[[kvInstance |] | e] st1]; simpl; eauto.
  unfold onStore. destruct (kv_get kvInstance key (store st1)) as [[v | e] s'];
    simpl; eauto.
Qed.

Lemma setCachedResult_never_raises (env : Env) (w : World) (key : string)
      (errors : list GrammarError) (ttl : Z) (st : State) :
  fst (setCachedResult env w key errors ttl st) = Ok tt.
Proof.
  unfold setCachedResult, tryCatchM, mbind, m_bind.
  destruct (getKV env w st) as [[[kvInstance |] | e] st1]; simpl; auto.
  unfold onStore.
  destruct (kv_set kvInstance key (VErrors errors) ttl (store st1))
    as [[[] | e] s']; reflexivity.
Qed.

Lemma getCachedResult_nothing (env : Env) (w : World) (key : string)
      (st : State) :
  CacheYieldsNothing env w key st ->
  fst (getCachedResult env w key st) = Ok None.
Proof.
  intros H.
  destruct (isKVConfigured env) eqn:Hconf.
  2: { unfold getCachedResult, tryCatchM, mbind, m_bind.
       now rewrite (getKV_unconfigured _ _ _ Hconf). }
  pose proof (getKV_configured env w st Hconf) as Hget.
  unfold getCachedResult, tryCatchM, mbind, m_bind.
  destruct H as [Hun | e He | kvInstance e store' Hkv Hfail
                 | kvInstance store' Hkv Hmiss].
  - congruence.
  - rewrite He in Hget. now rewrite Hget.
  - rewrite Hkv in Hget. destruct Hget as (st' & -> & Hstore & _).
    unfold onStore. now rewrite Hstore, Hfail.
  - rewrite Hkv in Hget. destruct Hget as (st' & -> & Hstore & _).
    unfold onStore. now rewrite Hstore, Hmiss.
Qed.

(** C5. A lookup never raises: it returns a value, and that value is
    [null] when the store is not configured, when the client cannot be
    loaded, when the backend fails and on a miss.  A write never raises
    either, whatever the backend does.  With no store configured both are
    no-ops: the state is left as it was. *)
Theorem cache_unavailability_is_never_fatal (env : Env) (w : World)
        (key : string) (st : State) :
  (exists v, fst (getCachedResult env w key st) = Ok v)
  /\ (CacheYieldsNothing env w key st ->
      fst (getCachedResult env w key st) = Ok None)
  /\ (forall errors ttl,
        fst (setCachedResult env w key errors ttl st) = Ok tt)
  /\ (isKVConfigured env = false ->
      getCachedResult env w key st = (Ok None, st)
      /\ forall errors ttl,
          setCachedResult env w key errors ttl st = (Ok tt, st)).
Proof.
  split; [apply getCachedResult_never_raises |].
  split; [apply getCachedResult_nothing |].
  split; [intros; apply setCachedResult_never_raises |].
  intros Hconf.
  unfold getCachedResult, setCachedResult, tryCatchM, mbind, m_bind.
  rewrite (getKV_unconfigured _ _ _ Hconf). split; reflexivity.
Qed.

Lemma cache_unavailability_is_never_fatal_witness :
  fst (getCachedResult fullEnv
         (sampleWorld [] 200 None (Ok unreachableKV))
         "grammar:openai:en-US:ba7816bf8f01cfea" initialState)
  = Ok None
  /\ fst (setCachedResult fullEnv
            (sampleWorld [] 200 None (Ok unreachableKV))
            "grammar:openai:en-US:ba7816bf8f01cfea" [] CACHE_TTL initialState)
     = Ok tt
  /\ getCachedResult noEnv
       (sampleWorld [] 200 None (Ok memoryKV))
       "grammar:openai:en-US:ba7816bf8f01cfea" initialState
     = (Ok None, initialState).
Proof.
  split; [| split].
  - refine (proj1 (proj2 (cache_unavailability_is_never_fatal _ _ _ _)) _).
    eapply (BackendFailure _ _ _ _ unreachableKV); reflexivity.
  - exact (proj1 (proj2 (proj2 (cache_unavailability_is_never_fatal
                                  _ _ _ _))) _ _).
  - exact (proj1 (proj2 (proj2 (proj2 (cache_unavailability_is_never_fatal
                                         noEnv _ _ _))) eq_refl)).
Defined.

(* ================================================================== *)
(** * The orchestrator: validation *)
(* ================================================================== *)

Lemma POST_text_required (env : Env) (w : World) (request : RequestBody)
      (st : State) :
  jsTruthy (text request) && isString (text request) = false ->
  POST env w (Ok request) st
  = (Ok (mkResponse 400 (ErrorBody "Text is required")), afterClockRead st).
Proof.
  intros H. unfold POST, tryCatchM, mbind, m_bind, dateNow, liftRes.
  cbn iota beta.
  assert (Hneg : negb (jsTruthy (text request))
                 || negb (isString (text request)) = true).
  { destruct (jsTruthy (text request)), (isString (text request));
      simpl in *; congruence. }
  rewrite Hneg. reflexivity.
Qed.

Lemma POST_text_too_long (env : Env) (w : World) (request : RequestBody)
      (s : string) (st : State) :
  text request = JsString s ->
  10000 < Js.len s ->
  POST env w (Ok request) st
  = (Ok (mkResponse 400
           (ErrorBody "Text exceeds maximum length of 10000 characters")),
     afterClockRead st).
Proof.
  intros Htext Hlen. unfold POST, tryCatchM, mbind, m_bind, dateNow, liftRes.
  cbn iota beta. rewrite Htext.
  assert (Hs : String.eqb s "" = false).
  { destruct s; [cbv in Hlen; discriminate Hlen | reflexivity]. }
  cbn [jsTruthy isString stringOf]. rewrite Hs. cbn [negb orb].
  assert (Hgt : (Js.len s >? MAX_TEXT_LENGTH) = true).
  { unfold MAX_TEXT_LENGTH. apply Z.gtb_lt. lia. }
  rewrite Hgt. reflexivity.
Qed.

Lemma POST_invalid_provider (env : Env) (w : World) (request : RequestBody)
      (st : State) :
  includesValue knownProviders (provider request) = false ->
  exists msg,
    In msg [ "Text is required";
             "Text exceeds maximum length of 10000 characters";
             "Invalid provider" ]
    /\ POST env w (Ok request) st
       = (Ok (mkResponse 400 (ErrorBody msg)), afterClockRead st).
Proof.
  intros Hprov.
  destruct (jsTruthy (text request) && isString (text request)) eqn:Htext.
  2: { eexists. split; [| now apply POST_text_required]. now left. }
  apply andb_prop in Htext as [Htruthy Hstring].
  destruct (text request) as [| | | | s |] eqn:Ht; try discriminate Hstring.
  destruct (Js.len s >? MAX_TEXT_LENGTH) eqn:Hlen.
  { eexists. split; [| apply (POST_text_too_long _ _ _ s); [exact Ht |]].
    - right. now left.
    - apply Z.gtb_lt in Hlen. unfold MAX_TEXT_LENGTH in Hlen. lia. }
  exists "Invalid provider". split; [right; right; now left |].
  unfold POST, tryCatchM, mbind, m_bind, dateNow, liftRes.
  cbn iota beta. rewrite Ht. cbn [isString stringOf negb orb].
  rewrite Htruthy. cbn [negb orb]. rewrite Hlen, Hprov.
  rewrite orb_true_r. reflexivity.
Qed.

(** C3. A request whose text is missing or not a string, or longer than
    10,000 units, or whose provider is not one of the three identifiers, is
    answered with status 400 and an error message.  The handler has then
    read the clock once and done nothing else: no call is recorded in the
    trace, the store and the client handle are untouched. *)
Theorem validation_is_terminal (env : Env) (w : World)
        (request : RequestBody) (st : State) :
  InvalidRequest request ->
  exists msg,
    In msg [ "Text is required";
             "Text exceeds maximum length of 10000 characters";
             "Invalid provider" ]
    /\ POST env w (Ok request) st
       = (Ok {| httpStatus := 400; body := ErrorBody msg |},
          afterClockRead st)
    /\ trace (snd (POST env w (Ok request) st)) = trace st
    /\ store (snd (POST env w (Ok request) st)) = store st
    /\ kvModule (snd (POST env w (Ok request) st)) = kvModule st.
Proof.
  intros H.
  assert (Hpost : exists msg,
             In msg [ "Text is required";
                      "Text exceeds maximum length of 10000 characters";
                      "Invalid provider" ]
             /\ POST env w (Ok request) st
                = (Ok (mkResponse 400 (ErrorBody msg)), afterClockRead st)).
  { destruct H as [Hstr | s Htext Hlen | Hprov].
    - eexists. split; [| apply POST_text_required; now rewrite Hstr, andb_false_r].
      now left.
    - eexists. split; [| now apply (POST_text_too_long _ _ _ s)].
      right. now left.
    - now apply POST_invalid_provider. }
  destruct Hpost as (msg & Hin & Hpost). exists msg.
  rewrite Hpost. repeat split; assumption || reflexivity.
Qed.

Lemma validation_is_terminal_witness :
  Js.len text10001 = 10001
  /\ POST fullEnv
       (sampleWorld [ sampleMatch 0 4 [ "hello" ] ] 200 (Some "{errors}")
                    (Ok memoryKV))
       (Ok (mkRequestBody (JsString text10001) (JsString "languagetool")
                          (Some "session-1") None))
       initialState
     = (Ok {| httpStatus := 400;
              body := ErrorBody
                        "Text exceeds maximum length of 10000 characters" |},
        afterClockRead initialState).
Proof.
  assert (Hlen : Js.len text10001 = 10001) by (vm_compute; reflexivity).
  split; [exact Hlen |].
  destruct (validation_is_terminal fullEnv
              (sampleWorld [ sampleMatch 0 4 [ "hello" ] ] 200
                           (Some "{errors}") (Ok memoryKV))
              (mkRequestBody (JsString text10001) (JsString "languagetool")
                             (Some "session-1") None)
              initialState)
    as (msg & Hin & Hpost & _).
  - apply (TextTooLong _ text10001); [reflexivity | rewrite Hlen; lia].
  - rewrite Hpost. f_equal.
    assert (Hpost' := Hpost).
    rewrite (POST_text_too_long _ _ _ text10001) in Hpost';
      [| reflexivity | rewrite Hlen; lia].
    congruence.
Defined.

(** C9. The empty string is a string, yet the request that carries it as
    its text is answered with status 400 and "Text is required": the
    presence test is truthiness, which the empty string fails like a missing
    field.  The handler has then read the clock once and done nothing else. *)
Theorem empty_text_is_rejected (env : Env) (w : World)
        (providerValue : JsValue) (sessionId language : option string)
        (st : State) :
  isString (JsString "") = true
  /\ jsTruthy (JsString "") = jsTruthy JsUndefined
  /\ POST env w
          (Ok {| text := JsString ""; provider := providerValue;
                 sessionId := sessionId; language := language |})
          st
     = (Ok {| httpStatus := 400; body := ErrorBody "Text is required" |},
        afterClockRead st)
  /\ POST env w
          (Ok {| text := JsUndefined; provider := providerValue;
                 sessionId := sessionId; language := language |})
          st
     = (Ok {| httpStatus := 400; body := ErrorBody "Text is required" |},
        afterClockRead st)
  /\ trace (afterClockRead st) = trace st
  /\ store (afterClockRead st) = store st.
Proof.
  repeat split; try reflexivity; now apply POST_text_required.
Qed.

(* ================================================================== *)
(** * The orchestrator: a served request *)
(* ================================================================== *)

(** A valid request on an empty cache: the provider is called, the result
    is stored and counted. *)
Example POST_miss_then_store :
  let w := sampleWorld [ sampleMatch 0 4 [ "help"; "hello"; "helot" ] ] 200
                       None (Ok memoryKV) in
  let request := mkRequestBody (JsString "helo how are you")
                               (JsString "languagetool") None None in
  let '(response, st) := POST fullEnv w (Ok request) initialState in
  option_map httpStatus (match response with Ok r => Some r | Err _ => None end)
  = Some 200
  /\ trace st
     = [ EvCacheGet "grammar:languagetool:en-US:0caedd70293888dc";
         EvProviderCall "languagetool" "helo how are you" "en-US";
         EvCacheSet "grammar:languagetool:en-US:0caedd70293888dc";
         EvUsage "languagetool" ]
  /\ option_map entryTtl
                (store st !! "grammar:languagetool:en-US:0caedd70293888dc")
     = Some (Some 86400).
Proof. vm_compute. repeat split; reflexivity. Qed.

(** The same request again: answered from the cache, no provider call. *)
Example POST_hit :
  let w := sampleWorld [ sampleMatch 0 4 [ "help"; "hello"; "helot" ] ] 200
                       None (Ok memoryKV) in
  let request := mkRequestBody (JsString "helo how are you")
                               (JsString "languagetool") None None in
  let '(first, st1) := POST fullEnv w (Ok request) initialState in
  let '(second, st2) := POST fullEnv w (Ok request) st1 in
  match first, second with
  | Ok {| body := CheckBody r1 |}, Ok {| body := CheckBody r2 |} =>
      errors r1 = errors r2
      /\ md_cached (metadata r1) = false
      /\ md_cached (metadata r2) = true
      /\ List.map e_replacements (errors r2) = [ [ "hello"; "help"; "helot" ] ]
  | _, _ => False
  end
  /\ skipn 4 (trace st2)
     = [ EvCacheGet "grammar:languagetool:en-US:0caedd70293888dc" ].
Proof. vm_compute. repeat split; reflexivity. Qed.

(* ================================================================== *)
(** * The edit distance *)
(* ================================================================== *)

Lemma lev_cons (x y : ascii) (xs ys : list ascii) :
  lev (x :: xs) (y :: ys)
  = if Ascii.eqb x y then lev xs ys
    else Z.min (Z.min (lev xs ys + 1) (lev (x :: xs) ys + 1))
               (lev xs (y :: ys) + 1).
Proof. reflexivity. Qed.

Lemma lev_nil_l (ys : list ascii) : lev [] ys = Z.of_nat (List.length ys).
Proof. reflexivity. Qed.

Lemma lev_nil_r (xs : list ascii) : lev xs [] = Z.of_nat (List.length xs).
Proof. destruct xs; reflexivity. Qed.

Lemma lev_refl (xs : list ascii) : lev xs xs = 0.
Proof.
  induction xs as [| x xs IH]; [reflexivity |].
  rewrite lev_cons, Ascii.eqb_refl. exact IH.
Qed.

Lemma lev_bounds (xs ys : list ascii) :
  Z.abs (Z.of_nat (List.length xs) - Z.of_nat (List.length ys)) <= lev xs ys
  /\ lev xs ys <= Z.max (Z.of_nat (List.length xs)) (Z.of_nat (List.length ys)).
Proof.
  revert ys. induction xs as [| x xs IHx]; intros ys.
  - rewrite lev_nil_l. simpl List.length. lia.
  - induction ys as [| y ys IHy].
    + rewrite lev_nil_r. simpl List.length. lia.
    + rewrite lev_cons.
      pose proof (IHx ys) as H1. pose proof (IHx (y :: ys)) as H2.
      simpl List.length in *.
      destruct (Ascii.eqb x y); lia.
Qed.

Lemma lev_zero_eq (xs ys : list ascii) : lev xs ys = 0 -> xs = ys.
Proof.
  revert ys. induction xs as [| x xs IHx]; intros ys.
  - rewrite lev_nil_l. destruct ys; simpl; [reflexivity | lia].
  - destruct ys as [| y ys].
    + rewrite lev_nil_r. simpl. lia.
    + rewrite lev_cons.
      pose proof (lev_bounds xs ys) as H1.
      pose proof (lev_bounds (x :: xs) ys) as H2.
      pose proof (lev_bounds xs (y :: ys)) as H3.
      destruct (Ascii.eqb_spec x y) as [-> | Hne]; intros H.
      * f_equal. now apply IHx.
      * lia.
Qed.

Lemma lev_sym (xs ys : list ascii) : lev xs ys = lev ys xs.
Proof.
  revert ys. induction xs as [| x xs IHx]; intros ys.
  - now rewrite lev_nil_l, lev_nil_r.
  - induction ys as [| y ys IHy].
    + now rewrite lev_nil_l, lev_nil_r.
    + rewrite !lev_cons, (Ascii.eqb_sym y x), IHy, (IHx ys), (IHx (y :: ys)).
      destruct (Ascii.eqb x y); [reflexivity | lia].
Qed.

(** ** The matrix computes the recurrence *)

Lemma rowFrom_length (rb ra : list ascii) (rest : string) :
  List.length (rowFrom rb ra rest) = S (String.length rest).
Proof.
  revert ra. induction rest as [| c rest IH]; intros ra; simpl;
    [reflexivity | now rewrite IH].
Qed.

Lemma rowFrom_unfold (rb ra : list ascii) (rest : string) :
  rowFrom rb ra rest
  = lev rb ra :: match rest with
                 | EmptyString => []
                 | String c rest' => rowFrom rb (c :: ra) rest'
                 end.
Proof. destruct rest; reflexivity. Qed.

(** Row 0 is [0 .. a.length]. *)
Lemma rowFrom_first (ra : list ascii) (rest : string) :
  rowFrom [] ra rest
  = List.map Z.of_nat (seq (List.length ra) (S (String.length rest))).
Proof.
  revert ra. induction rest as [| c rest IH]; intros ra.
  - reflexivity.
  - rewrite rowFrom_unfold, IH. reflexivity.
Qed.

(** The inner loop: from the row above and the entry to the left, the rest
    of the row. *)
Lemma editRow_rowFrom (bc : ascii) (rb ra : list ascii) (rest : string) :
  editRow bc rest (rowFrom rb ra rest) (lev (bc :: rb) ra)
  = List.tl (rowFrom (bc :: rb) ra rest).
Proof.
  revert ra. induction rest as [| ac rest IH]; intros ra.
  - reflexivity.
  - rewrite (rowFrom_unfold rb ra), (rowFrom_unfold rb (ac :: ra)).
    cbn [editRow].
    rewrite <- (rowFrom_unfold rb (ac :: ra)).
    rewrite (rowFrom_unfold (bc :: rb) ra). cbn [List.tl].
    rewrite (rowFrom_unfold (bc :: rb) (ac :: ra)).
    rewrite <- lev_cons. f_equal.
    rewrite IH, (rowFrom_unfold (bc :: rb) (ac :: ra)). reflexivity.
Qed.

(** The outer loop: from the row of the units read so far, the last row. *)
Lemma editRows_rowFrom (b a : string) (rb : list ascii) :
  editRows b a (Z.of_nat (List.length rb)) (rowFrom rb [] a)
  = rowFrom (List.rev (chars b) ++ rb) [] a.
Proof.
  revert rb. induction b as [| bc b IH]; intros rb.
  - reflexivity.
  - cbn [editRows].
    replace (Z.of_nat (List.length rb) + 1)
      with (Z.of_nat (List.length (bc :: rb)))
      by (simpl List.length; lia).
    replace (Z.of_nat (List.length (bc :: rb))
               :: editRow bc a (rowFrom rb [] a)
                    (Z.of_nat (List.length (bc :: rb))))
      with (rowFrom (bc :: rb) [] a).
    + rewrite IH. unfold chars. simpl. now rewrite <- app_assoc.
    + rewrite <- (lev_nil_r (bc :: rb)), editRow_rowFrom.
      now rewrite (rowFrom_unfold (bc :: rb) []).
Qed.

Lemma rowFrom_last (rb ra : list ascii) (rest : string) :
  List.last (rowFrom rb ra rest) 0 = lev rb (List.rev (chars rest) ++ ra).
Proof.
  revert ra. induction rest as [| c rest IH]; intros ra.
  - reflexivity.
  - rewrite rowFrom_unfold.
    change (List.last (lev rb ra :: rowFrom rb (c :: ra) rest) 0)
      with (match rowFrom rb (c :: ra) rest with
            | [] => lev rb ra
            | _ :: _ => List.last (rowFrom rb (c :: ra) rest) 0
            end).
    pose proof (rowFrom_length rb (c :: ra) rest) as Hlen.
    destruct (rowFrom rb (c :: ra) rest) as [| z l] eqn:Hrow;
      [discriminate Hlen |].
    rewrite <- Hrow, IH. unfold chars. simpl. now rewrite <- app_assoc.
Qed.

(** [getEditDistance] is the recurrence on the two strings read backwards. *)
Lemma getEditDistance_lev (a b : string) :
  getEditDistance a b = lev (List.rev (chars b)) (List.rev (chars a)).
Proof.
  unfold getEditDistance.
  pose proof (rowFrom_first [] a) as Hrow0. cbn [List.length] in Hrow0.
  cbv zeta. rewrite <- Hrow0.
  pose proof (editRows_rowFrom b a []) as Hrows.
  change (Z.of_nat (List.length (@nil ascii))) with 0 in Hrows.
  rewrite Hrows.
  rewrite rowFrom_last, !app_nil_r. reflexivity.
Qed.

Lemma chars_length (s : string) : List.length (chars s) = String.length s.
Proof. induction s as [| c s IH]; simpl; [reflexivity | now rewrite IH]. Qed.

Lemma chars_inj (s t : string) : chars s = chars t -> s = t.
Proof.
  unfold chars. intros H.
  rewrite <- (string_of_list_ascii_of_string s),
          <- (string_of_list_ascii_of_string t).
  now rewrite H.
Qed.

(** X1. The edit distance of two strings is 0 exactly when they are the
    same string. *)
Theorem getEditDistance_zero_iff (a b : string) :
  getEditDistance a b = 0 <-> a = b.
Proof.
  rewrite getEditDistance_lev. split.
  - intros H. apply lev_zero_eq in H.
    apply (f_equal (@List.rev ascii)) in H. rewrite !rev_involutive in H.
    symmetry. now apply chars_inj.
  - intros ->. apply lev_refl.
Qed.

(** X2. The edit distance does not depend on the order of its arguments. *)
Theorem getEditDistance_symmetric (a b : string) :
  getEditDistance a b = getEditDistance b a.
Proof. rewrite !getEditDistance_lev. apply lev_sym. Qed.

(** X3. The edit distance lies between the difference of the two lengths
    and the larger of them; against the empty string it is the length of the
    other string. *)
Theorem getEditDistance_bounds (a b : string) :
  Z.abs (Js.len a - Js.len b) <= getEditDistance a b
  /\ getEditDistance a b <= Z.max (Js.len a) (Js.len b)
  /\ getEditDistance a "" = Js.len a
  /\ getEditDistance "" b = Js.len b.
Proof.
  rewrite !getEditDistance_lev. unfold Js.len.
  pose proof (lev_bounds (List.rev (chars b)) (List.rev (chars a))) as H.
  rewrite !length_rev, !chars_length in H.
  split; [lia | split; [lia |]].
  change (chars "") with (@nil ascii). cbn [List.rev].
  rewrite lev_nil_l, lev_nil_r, !length_rev, !chars_length. split; reflexivity.
Qed.

(* ================================================================== *)
(** * The error type *)
(* ================================================================== *)

Lemma toLowerChar_toUpperChar (c : ascii) :
  (Js.code c <? 128) = true ->
  Js.toLowerChar (Js.toUpperChar c) = Js.toLowerChar c.
Proof. intros _. destruct c as [[] [] [] [] [] [] [] []]; reflexivity. Qed.

Lemma toLowerChar_idempotent (c : ascii) :
  (Js.code c <? 128) = true ->
  Js.toLowerChar (Js.toLowerChar c) = Js.toLowerChar c.
Proof. intros _. destruct c as [[] [] [] [] [] [] [] []]; reflexivity. Qed.

Lemma toLowerCase_toUpperCase (s : string) :
  Js.isAscii s = true ->
  Js.toLowerCase (Js.toUpperCase s) = Js.toLowerCase s.
Proof.
  unfold Js.toLowerCase, Js.toUpperCase.
  induction s as [| c s IH]; simpl; [reflexivity |].
  intros H. apply andb_prop in H as [Hc Hs].
  now rewrite (toLowerChar_toUpperChar c Hc), (IH Hs).
Qed.

Lemma toLowerCase_idempotent (s : string) :
  Js.isAscii s = true ->
  Js.toLowerCase (Js.toLowerCase s) = Js.toLowerCase s.
Proof.
  unfold Js.toLowerCase.
  induction s as [| c s IH]; simpl; [reflexivity |].
  intros H. apply andb_prop in H as [Hc Hs].
  now rewrite (toLowerChar_idempotent c Hc), (IH Hs).
Qed.

(** Two ASCII strings with the same upper-case form have the same
    lower-case form. *)
Lemma toLowerCase_of_same_upper (s s' : string) :
  Js.isAscii s = true -> Js.isAscii s' = true ->
  Js.toUpperCase s = Js.toUpperCase s' ->
  Js.toLowerCase s = Js.toLowerCase s'.
Proof.
  intros Hs Hs' H.
  rewrite <- (toLowerCase_toUpperCase s Hs), H.
  now apply toLowerCase_toUpperCase.
Qed.

(** X4. On ASCII input the error type does not depend on letter case.
    Two categories that are the same word once upper-cased, with two type
    names that are, are mapped alike; so the upper-cased and the lower-cased
    forms of a category and a type name are mapped as the originals are. *)
Theorem mapErrorType_case_insensitive
        (category category' : string) (typeName typeName' : option string) :
  Js.isAscii category = true -> Js.isAscii category' = true ->
  isAsciiOpt typeName = true -> isAsciiOpt typeName' = true ->
  Js.toUpperCase category = Js.toUpperCase category' ->
  option_map Js.toUpperCase typeName = option_map Js.toUpperCase typeName' ->
  mapErrorType category typeName = mapErrorType category' typeName'
  /\ mapErrorType (Js.toUpperCase category)
                  (option_map Js.toUpperCase typeName)
     = mapErrorType category typeName
  /\ mapErrorType (Js.toLowerCase category)
                  (option_map Js.toLowerCase typeName)
     = mapErrorType category typeName.
Proof.
  intros Hc Hc' Ht Ht' Hcat Hname.
  split; [| split].
  - unfold mapErrorType.
    rewrite (toLowerCase_of_same_upper _ _ Hc Hc' Hcat).
    destruct typeName as [t |], typeName' as [t' |];
      try discriminate Hname; [| reflexivity].
    injection Hname as Hname.
    now rewrite (toLowerCase_of_same_upper _ _ Ht Ht' Hname).
  - unfold mapErrorType. rewrite (toLowerCase_toUpperCase _ Hc).
    destruct typeName as [t |]; simpl; [| reflexivity].
    now rewrite (toLowerCase_toUpperCase _ Ht).
  - unfold mapErrorType. rewrite (toLowerCase_idempotent _ Hc).
    destruct typeName as [t |]; simpl; [| reflexivity].
    now rewrite (toLowerCase_idempotent _ Ht).
Qed.

Lemma mapErrorType_case_insensitive_witness :
  mapErrorType "Grammar" (Some "Misspelling")
  = mapErrorType "GRAMMAR" (Some "misSPELLing")
  /\ mapErrorType "GRAMMAR" (Some "misSPELLing") = spelling.
Proof.
  split; [| reflexivity].
  exact (proj1 (mapErrorType_case_insensitive
                  "Grammar" "GRAMMAR" (Some "Misspelling")
                  (Some "misSPELLing") eq_refl eq_refl eq_refl eq_refl
                  eq_refl eq_refl)).
Defined.

(* ================================================================== *)
(** * The ranker: order of the result, and when there is one *)
(* ================================================================== *)

Lemma StronglySorted_map {A B} (f : A -> B) (R : B -> B -> Prop)
      (l : list A) :
  StronglySorted (fun a a' => R (f a) (f a')) l ->
  StronglySorted R (List.map f l).
Proof.
  induction 1 as [| a l _ IH Ha]; simpl; constructor; [exact IH |].
  apply List.Forall_map. exact Ha.
Qed.

(** X5. The order the ranker returns is by descending score: the scores of
    the returned candidates, read in order, never increase. *)
Theorem smartOrderSuggestions_descending
        (suggestions ordered : list string) (originalWord fullText : string)
        (errorOffset : Z) :
  smartOrderSuggestions suggestions originalWord fullText errorOffset
  = Ok ordered ->
  exists scores : list Q,
    Forall2 (fun s q => rankScore originalWord fullText errorOffset s = Ok q)
            ordered scores
    /\ StronglySorted (fun q q' => (q' <= q)%Q) scores.
Proof.
  intros H. rewrite smartOrderSuggestions_eq in H.
  apply bindRes_ok in H as (scored & Hscored & H). injection H as <-.
  apply scored_wellformed in Hscored as [_ Hwf].
  set (sorted := sort (fun a b => (score b - score a)%Q) scored).
  assert (Hwf' : Forall (fun x =>
                           rankScore originalWord fullText errorOffset
                                     (suggestion x) = Ok (score x)) sorted).
  { eapply Permutation_Forall; [symmetry; apply (sort_perm score) | exact Hwf]. }
  exists (List.map score sorted). split.
  - clear -Hwf'. induction Hwf' as [| x l Hx _ IH]; simpl; constructor; auto.
  - apply StronglySorted_map. apply (sort_descending score).
Qed.

Lemma smartOrderSuggestions_descending_witness :
  exists scores : list Q,
    Forall2 (fun s q => rankScore "helo" "helo how are you" 0 s = Ok q)
            [ "hello"; "help"; "hero"; "held"; "helot" ] scores
    /\ StronglySorted (fun q q' => (q' <= q)%Q) scores.
Proof.
  apply (smartOrderSuggestions_descending
           [ "helot"; "hero"; "help"; "hello"; "held" ]).
  vm_compute. reflexivity.
Defined.

(** X6. The ranker returns an order exactly when there is no candidate, or
    the original word is not empty and, if it starts with its own upper-case
    form, no candidate is empty.  In every other case it throws the
    [TypeError] of [undefined.toUpperCase()]. *)
Theorem smartOrderSuggestions_returns_iff
        (suggestions : list string) (originalWord fullText : string)
        (errorOffset : Z) :
  (isOk (smartOrderSuggestions suggestions originalWord fullText errorOffset)
   = true
   <-> suggestions = []
       \/ (originalWord <> ""
           /\ (startsUpper originalWord = true -> ~ In "" suggestions)))
  /\ (forall e,
        smartOrderSuggestions suggestions originalWord fullText errorOffset
        = Err e ->
        e = Js.undefinedToUpperCase).
Proof.
  split; [| intros e; apply smartOrderSuggestions_err].
  split.
  - intros Hok.
    destruct suggestions as [| s0 rest]; [now left |]. right.
    destruct (smartOrderSuggestions (s0 :: rest) originalWord fullText
                                    errorOffset) as [ordered | e] eqn:H;
      [| discriminate Hok].
    rewrite smartOrderSuggestions_eq in H.
    apply bindRes_ok in H as (scored & Hscored & _).
    apply mapRes_ok_Forall2 in Hscored.
    assert (Hall : forall s, In s (s0 :: rest) ->
                             isOk (rankScore originalWord fullText errorOffset s)
                             = true).
    { clear -Hscored. induction Hscored as [| s x ss xs Hsx _ IH];
        intros s' Hin; [contradiction |].
      destruct Hin as [<- | Hin]; [| now apply IH].
      apply bindRes_ok in Hsx as (q & -> & _). reflexivity. }
    unfold rankScore in Hall.
    split.
    + intros ->. specialize (Hall s0 (or_introl eq_refl)).
      rewrite scoreSuggestion_total_iff in Hall. discriminate Hall.
    + intros Hup Hin. specialize (Hall "" Hin).
      rewrite scoreSuggestion_total_iff, Hup in Hall.
      destruct (Js.index originalWord 0); discriminate Hall.
  - intros [-> | [Hne Hcand]]; [reflexivity |].
    destruct (smartOrderSuggestions_total suggestions originalWord fullText
                                          errorOffset Hne Hcand)
      as (ordered & ->).
    reflexivity.
Qed.

(* ================================================================== *)
(** * The rule-based client: what it returns *)
(* ================================================================== *)

Lemma String_substring_zero (n : nat) (s : string) :
  String.substring n 0 s = "".
Proof.
  revert s. induction n as [| n IH]; intros [| c s]; simpl; auto.
Qed.

(** A span of length 0, and a span that starts at or after the end of the
    text, select nothing. *)
Lemma substring_empty_span (text : string) (offset length : Z) :
  length = 0 \/ (Js.len text <= offset /\ 0 <= length) ->
  Js.substring text offset (offset + length) = "".
Proof.
  intros H. unfold Js.substring, Js.clamp.
  assert (Hlen : 0 <= Js.len text) by (unfold Js.len; lia).
  replace (Z.max (Z.max 0 (Z.min (Js.len text) offset))
                 (Z.max 0 (Z.min (Js.len text) (offset + length)))
           - Z.min (Z.max 0 (Z.min (Js.len text) offset))
                   (Z.max 0 (Z.min (Js.len text) (offset + length))))
    with 0 by lia.
  apply String_substring_zero.
Qed.

Lemma scoreSuggestion_empty_original
      (suggestion contextBefore contextAfter : string)
      (isStartOfSentence : bool) :
  scoreSuggestion suggestion "" contextBefore contextAfter isStartOfSentence
  = Err Js.undefinedToUpperCase.
Proof. reflexivity. Qed.

(** X7. A match whose span selects nothing (length 0, or an offset at or
    after the end of the text) and that carries at least one replacement
    makes the whole check fail: the ranker reads the first unit of the empty
    original word. *)
Theorem checkWithLanguageTool_empty_span_throws
        (w : World) (text language : string)
        (response : HttpResponse LanguageToolResponse)
        (data : LanguageToolResponse) (m : LanguageToolMatch) :
  fetchLanguageTool w (mkLanguageToolRequest text language)
  = FetchResponse response ->
  ok response = true ->
  json response = Ok data ->
  In m (matches data) ->
  m_replacements m <> [] ->
  m_length m = 0 \/ (Js.len text <= m_offset m /\ 0 <= m_length m) ->
  checkWithLanguageTool w text language
  = Err (mkExn KError
           ("Failed to check text with LanguageTool: "
              ++ emessage Js.undefinedToUpperCase)).
Proof.
  intros Hfetch Hok Hjson Hm Hrep Hspan.
  unfold checkWithLanguageTool, languageToolRequest.
  rewrite Hfetch, Hok, Hjson. cbn [negb mbind res_bind bindRes].
  assert (Hfail : normalizeMatch m text = Err Js.undefinedToUpperCase).
  { unfold normalizeMatch. rewrite (substring_empty_span _ _ _ Hspan).
    rewrite smartOrderSuggestions_eq.
    destruct (m_replacements m) as [| r rs]; [congruence |].
    reflexivity. }
  destruct (mapRes_In_err (fun m => normalizeMatch m text) _ m _ Hm Hfail)
    as (e & He).
  pose proof He as He'.
  apply mapRes_err_In in He' as (m' & _ & Hm').
  apply normalizeMatch_err in Hm' as ->.
  rewrite He. reflexivity.
Qed.

Lemma checkWithLanguageTool_empty_span_throws_witness :
  checkWithLanguageTool
    (sampleWorld [ sampleMatch 16 0 [ "." ] ] 200 None (Ok memoryKV))
    "helo how are you" "en-US"
  = Err (mkExn KError
           ("Failed to check text with LanguageTool: "
              ++ emessage Js.undefinedToUpperCase)).
Proof.
  eapply (checkWithLanguageTool_empty_span_throws
            _ _ _ _ _ (sampleMatch 16 0 [ "." ])).
  - reflexivity.
  - reflexivity.
  - reflexivity.
  - left. reflexivity.
  - discriminate.
  - left. reflexivity.
Defined.

(** X8. When the rule-based client returns, the service answered in the
    200 range with a body that parsed, and the list has one error per match,
    in the order of the matches: each error has its match's message, offset,
    length and context, and its replacements are the first five of a
    rearrangement of the match's replacements. *)
Theorem checkWithLanguageTool_returns_matches
        (w : World) (text language : string) (errs : list GrammarError) :
  checkWithLanguageTool w text language = Ok errs ->
  exists response data,
    fetchLanguageTool w (mkLanguageToolRequest text language)
    = FetchResponse response
    /\ ok response = true
    /\ json response = Ok data
    /\ Forall2
         (fun m e =>
            e_message e = m_message m
            /\ e_offset e = m_offset m
            /\ e_length e = m_length m
            /\ e_context e = Some (m_context m)
            /\ exists ordered,
                Permutation (List.map value (m_replacements m)) ordered
                /\ e_replacements e = firstn 5 ordered)
         (matches data) errs.
Proof.
  unfold checkWithLanguageTool, throwError. intros H.
  apply tryCatch_rethrow_ok
    with (wrap := fun error =>
                    mkExn KError ("Failed to check text with LanguageTool: "
                                    ++ emessage error)) in H.
  unfold languageToolRequest in H.
  destruct (fetchLanguageTool w _) as [e | response]; [discriminate H |].
  destruct (ok response) eqn:Hok; [| discriminate H].
  cbn [negb] in H. apply bindRes_ok in H as (data & Hjson & H).
  exists response, data. repeat split; try assumption.
  apply mapRes_ok_Forall2 in H.
  induction H as [| m e ms es Hme _ IH]; constructor; [| exact IH].
  unfold normalizeMatch in Hme.
  apply bindRes_ok in Hme as (ordered & Hord & Hme). injection Hme as <-.
  cbn. repeat split.
  exists ordered. split; [| reflexivity].
  exact (proj1 (proj2 (smartOrderSuggestions_reorders _ _ _ _ _ Hord))).
Qed.

Lemma checkWithLanguageTool_returns_matches_witness :
  exists e,
    checkWithLanguageTool
      (sampleWorld [ sampleMatch 0 4 [ "help"; "hello"; "helot" ] ] 200 None
                   (Ok memoryKV))
      "helo how are you" "en-US" = Ok [ e ]
    /\ e_offset e = 0 /\ e_length e = 4
    /\ e_replacements e = [ "hello"; "help"; "helot" ].
Proof.
  destruct (checkWithLanguageTool
              (sampleWorld [ sampleMatch 0 4 [ "help"; "hello"; "helot" ] ]
                           200 None (Ok memoryKV))
              "helo how are you" "en-US") as [errs | err] eqn:H;
    [| vm_compute in H; discriminate H].
  destruct (checkWithLanguageTool_returns_matches _ _ _ _ H)
    as (response & data & Hfetch & _ & Hjson & Hshape).
  injection Hfetch as <-. injection Hjson as <-.
  cbn [matches] in Hshape.
  inversion Hshape as [| m e ms es (_ & Hoff & Hlen & _) Hrest]; subst.
  inversion Hrest; subst.
  exists e. repeat split; try assumption.
  vm_compute in H. injection H as <-. reflexivity.
Defined.

(* ================================================================== *)
(** * The language-model clients: failures and own answers *)
(* ================================================================== *)






(* ================================================================== *)
(** * The key-value client and the counters *)
(* ================================================================== *)

(** What a call of [getKV] that returns a client leaves behind: the module
    holds the client, and nothing else of the state has moved. *)
Lemma getKV_loaded_state (env : Env) (w : World) (st st' : State)
      (kvInstance : KVInstance) :
  getKV env w st = (Ok (Some kvInstance), st') ->
  kvModule st' = Some kvInstance
  /\ store st' = store st /\ ticks st' = ticks st /\ trace st' = trace st.
Proof.
  unfold getKV. destruct (isKVConfigured env); cbn [negb];
    [| discriminate].
  unfold mbind, m_bind, readKvModule, liftRes, setKvModule.
  destruct (kvModule st) as [k |] eqn:Hkv.
  - intros [= <- <-]. rewrite Hkv. repeat split.
  - destruct (importKV w) as [k | e]; [| discriminate].
    intros [= <- <-]. cbn. repeat split.
Qed.

(** X11. The client is loaded at most once: when [getKV] has returned a
    client, the module holds it, and every later call returns the same
    client without importing again, whatever the import would then do. *)
Theorem getKV_loads_once (env : Env) (w : World) (st st' : State)
        (kvInstance : KVInstance) :
  getKV env w st = (Ok (Some kvInstance), st') ->
  kvModule st' = Some kvInstance
  /\ store st' = store st /\ ticks st' = ticks st /\ trace st' = trace st
  /\ forall w', getKV env w' st' = (Ok (Some kvInstance), st').
Proof.
  intros Hget.
  destruct (getKV_loaded_state _ _ _ _ _ Hget)
    as (Hmod & Hstore & Hticks & Htrace).
  repeat (split; [assumption |]).
  intros w'. revert Hget. unfold getKV.
  destruct (isKVConfigured env); cbn [negb]; [| discriminate].
  intros _. unfold mbind, m_bind, readKvModule. now rewrite Hmod.
Qed.

Lemma getKV_loads_once_witness :
  let w := sampleWorld [] 200 None (Ok memoryKV) in
  let w' := sampleWorld [] 200 None (Err (mkExn KError "Cannot find module")) in
  let st' := snd (getKV fullEnv w initialState) in
  getKV fullEnv w' st' = (Ok (Some memoryKV), st')
  /\ fst (getKV fullEnv w' initialState)
     = Err (mkExn KError "Cannot find module").
Proof.
  split; [| reflexivity].
  refine (proj2 (proj2 (proj2 (proj2
            (getKV_loads_once fullEnv (sampleWorld [] 200 None (Ok memoryKV))
                              initialState _ memoryKV _)))) _).
  reflexivity.
Defined.

Lemma tryCatchM_swallows (body : M unit) (st : State) :
  fst (tryCatchM body (fun _ => mret tt) st) = Ok tt.
Proof.
  unfold tryCatchM. destruct (body st) as [[[] | e] st']; reflexivity.
Qed.

(** X12. The two counters are best-effort: [trackSession] and
    [incrementProviderUsage] return without raising whatever the client and
    the import do, and with no store configured they leave the state as it
    was. *)
Theorem counters_never_raise (env : Env) (w : World) (name : string)
        (st : State) :
  fst (trackSession env w name st) = Ok tt
  /\ fst (incrementProviderUsage env w name st) = Ok tt
  /\ (isKVConfigured env = false ->
      trackSession env w name st = (Ok tt, st)
      /\ incrementProviderUsage env w name st = (Ok tt, st)).
Proof.
  split; [apply tryCatchM_swallows |].
  split; [apply tryCatchM_swallows |].
  intros Hconf.
  unfold trackSession, incrementProviderUsage, tryCatchM, mbind, m_bind.
  rewrite (getKV_unconfigured _ _ _ Hconf). split; reflexivity.
Qed.

(** X13. A session that the store already knows is not counted again: when
    [exists] answers with a non-zero number, [trackSession] issues no write
    and does not read the clock; the store is as [exists] left it. *)
Theorem trackSession_known_session
        (env : Env) (w : World) (sessionId : string) (st : State)
        (kvInstance : KVInstance) (n : Z) (store' : Store) :
  isKVConfigured env = true ->
  resolveKV w st = Ok kvInstance ->
  kv_exists kvInstance ("session:" ++ sessionId)%string (store st)
  = (Ok n, store') ->
  n <> 0 ->
  fst (trackSession env w sessionId st) = Ok tt
  /\ store (snd (trackSession env w sessionId st)) = store'
  /\ ticks (snd (trackSession env w sessionId st)) = ticks st
  /\ kvModule (snd (trackSession env w sessionId st)) = Some kvInstance.
Proof.
  intros Hconf Hkv Hexists Hn.
  pose proof (getKV_configured env w st Hconf) as Hget.
  rewrite Hkv in Hget. destruct Hget as (st1 & Hget & Hstore & Htrace).
  destruct (getKV_loaded_state _ _ _ _ _ Hget) as (Hmod & _ & Hticks & _).
  unfold trackSession, tryCatchM, mbind, m_bind. rewrite Hget.
  unfold onStore. rewrite Hstore, Hexists.
  destruct (Z.eqb_spec n 0); [contradiction |].
  cbn. repeat split; assumption.
Qed.

Lemma trackSession_known_session_witness :
  let w := sampleWorld [] 200 None (Ok memoryKV) in
  let st := snd (trackSession fullEnv w "s-1" initialState) in
  store (snd (trackSession fullEnv w "s-1" st)) = store st
  /\ is_Some (store st !! "session:s-1").
Proof.
  split.
  - refine (proj1 (proj2 (trackSession_known_session
                            fullEnv _ "s-1" _ memoryKV 1 _ _ _ _ _)));
      try reflexivity. discriminate.
  - vm_compute. eauto.
Defined.

(** ** Against an in-memory store *)

Lemma session_key_not_total (sessionId : string) :
  ("session:" ++ sessionId)%string <> "sessions:total".
Proof. intros H. vm_compute in H. discriminate H. Qed.

(** What [trackSession] leaves behind when the client is the in-memory
    one: nothing new for a known session; for a new one, the marker, written
    with the reading of the clock and an expiry of 30 days, and the total
    moved up by one. *)
Lemma trackSession_memory (env : Env) (w : World) (sessionId : string)
      (st : State) :
  isKVConfigured env = true ->
  resolveKV w st = Ok memoryKV ->
  kvModule (snd (trackSession env w sessionId st)) = Some memoryKV
  /\ store (snd (trackSession env w sessionId st))
     = match store st !! ("session:" ++ sessionId)%string with
       | Some _ => store st
       | None =>
           let marked :=
             <[("session:" ++ sessionId)%string :=
                 mkEntry (VNumber (clock w (ticks st))) (Some 2592000)]>
               (store st) in
           <["sessions:total" :=
               mkEntry (VNumber (counterOf (store st !! "sessions:total") + 1))
                       ((store st !! "sessions:total") ≫= entryTtl)]> marked
       end.
Proof.
  intros Hconf Hkv.
  pose proof (getKV_configured env w st Hconf) as Hget.
  rewrite Hkv in Hget. destruct Hget as (st1 & Hget & Hstore & Htrace).
  destruct (getKV_loaded_state _ _ _ _ _ Hget) as (Hmod & _ & Hticks & _).
  unfold trackSession, tryCatchM, mbind, m_bind. rewrite Hget.
  unfold onStore, dateNow, mret, m_ret. cbn [memoryKV kv_exists kv_set kv_incr].
  rewrite Hstore.
  destruct (store st !! ("session:" ++ sessionId)%string) as [entry |] eqn:Hkey;
    cbn.
  - split; [assumption | reflexivity].
  - split; [assumption |].
    rewrite ?Hstore, ?Hticks.
    unfold Store in *.
    rewrite (lookup_insert_ne (store st) _ _ _ (session_key_not_total sessionId)).
    reflexivity.
Qed.

Lemma resolveKV_loaded (w : World) (st : State) (kvInstance : KVInstance) :
  kvModule st = Some kvInstance -> resolveKV w st = Ok kvInstance.
Proof. unfold resolveKV. now intros ->. Qed.

(** X14. Against the in-memory store each session is counted once.  A new
    session gets a marker that expires after 30 days (2,592,000 seconds) and
    moves [sessions:total] up by one; a known session changes nothing; so
    tracking the same session a second time leaves the store as the first
    call left it. *)
Theorem trackSession_counts_once (env : Env) (w : World)
        (sessionId : string) (st : State) :
  isKVConfigured env = true ->
  resolveKV w st = Ok memoryKV ->
  let key := ("session:" ++ sessionId)%string in
  let st1 := snd (trackSession env w sessionId st) in
  (store st !! key = None ->
   store st1 !! key
   = Some (mkEntry (VNumber (clock w (ticks st))) (Some 2592000))
   /\ counterOf (store st1 !! "sessions:total")
      = counterOf (store st !! "sessions:total") + 1)
  /\ (is_Some (store st !! key) -> store st1 = store st)
  /\ store (snd (trackSession env w sessionId st1)) = store st1.
Proof.
  intros Hconf Hkv key st1.
  destruct (trackSession_memory env w sessionId st Hconf Hkv) as [Hmod Hstore].
  fold st1 in Hmod, Hstore. fold key in Hstore.
  assert (Hknown : is_Some (store st1 !! key)).
  { rewrite Hstore. destruct (store st !! key) as [entry |] eqn:Hkey.
    - rewrite Hkey. eauto.
    - cbv zeta. unfold Store in *.
      rewrite lookup_insert_ne by (symmetry; apply session_key_not_total).
      rewrite lookup_insert_eq. eauto. }
  split; [| split].
  - intros Hnew. rewrite Hstore, Hnew. cbv zeta. unfold Store in *. split.
    + rewrite lookup_insert_ne by (symmetry; apply session_key_not_total).
      now rewrite lookup_insert_eq.
    + now rewrite lookup_insert_eq.
  - intros [entry Hentry]. now rewrite Hstore, Hentry.
  - destruct (trackSession_memory env w sessionId st1 Hconf
                                  (resolveKV_loaded w _ _ Hmod)) as [_ Hagain].
    rewrite Hagain. fold key. destruct Hknown as [entry ->]. reflexivity.
Qed.

Lemma trackSession_counts_once_witness :
  let w := sampleWorld [] 200 None (Ok memoryKV) in
  let st1 := snd (trackSession fullEnv w "s-1" initialState) in
  counterOf (store st1 !! "sessions:total") = 1
  /\ store (snd (trackSession fullEnv w "s-1" st1)) = store st1.
Proof.
  destruct (trackSession_counts_once
              fullEnv (sampleWorld [] 200 None (Ok memoryKV)) "s-1"
              initialState eq_refl eq_refl) as (Hnew & _ & Hagain).
  split; [| exact Hagain].
  destruct (Hnew eq_refl) as [_ Htotal]. exact Htotal.
Defined.

Lemma setCachedResult_memory (env : Env) (w : World) (key : string)
      (errors : list GrammarError) (ttl : Z) (st : State) :
  isKVConfigured env = true ->
  resolveKV w st = Ok memoryKV ->
  kvModule (snd (setCachedResult env w key errors ttl st)) = Some memoryKV
  /\ store (snd (setCachedResult env w key errors ttl st))
     = <[key := mkEntry (VErrors errors) (Some ttl)]> (store st).
Proof.
  intros Hconf Hkv.
  pose proof (getKV_configured env w st Hconf) as Hget.
  rewrite Hkv in Hget. destruct Hget as (st1 & Hget & Hstore & Htrace).
  destruct (getKV_loaded_state _ _ _ _ _ Hget) as (Hmod & _).
  unfold setCachedResult, tryCatchM, mbind, m_bind. rewrite Hget.
  unfold onStore. cbn. rewrite Hstore. split; [assumption | reflexivity].
Qed.

Lemma getCachedResult_memory (env : Env) (w : World) (key : string)
      (st : State) :
  isKVConfigured env = true ->
  resolveKV w st = Ok memoryKV ->
  fst (getCachedResult env w key st)
  = Ok (match store st !! key with
        | Some {| entryValue := VErrors errors |} => Some errors
        | _ => None
        end).
Proof.
  intros Hconf Hkv.
  pose proof (getKV_configured env w st Hconf) as Hget.
  rewrite Hkv in Hget. destruct Hget as (st1 & Hget & Hstore & Htrace).
  unfold getCachedResult, tryCatchM, mbind, m_bind. rewrite Hget.
  unfold onStore. cbn. rewrite Hstore.
  destruct (store st !! key) as [[[errors | n] ttl] |]; reflexivity.
Qed.

(** X15. Against the in-memory store the cache round-trips: a list written
    under a key is what a lookup of that key returns next, lookups of other
    keys are not affected, and of two writes to one key the later one is
    read. *)
Theorem cache_round_trip (env : Env) (w : World) (key : string)
        (errors : list GrammarError) (ttl : Z) (st : State) :
  isKVConfigured env = true ->
  resolveKV w st = Ok memoryKV ->
  let st1 := snd (setCachedResult env w key errors ttl st) in
  fst (getCachedResult env w key st1) = Ok (Some errors)
  /\ (forall key',
        key' <> key ->
        fst (getCachedResult env w key' st1)
        = fst (getCachedResult env w key' st))
  /\ (forall errors' ttl',
        fst (getCachedResult env w key
               (snd (setCachedResult env w key errors' ttl' st1)))
        = Ok (Some errors')).
Proof.
  intros Hconf Hkv st1.
  destruct (setCachedResult_memory env w key errors ttl st Hconf Hkv)
    as [Hmod Hstore].
  fold st1 in Hmod, Hstore.
  pose proof (resolveKV_loaded w _ _ Hmod) as Hkv1.
  split; [| split].
  - rewrite (getCachedResult_memory _ _ _ _ Hconf Hkv1), Hstore.
    unfold Store in *. now rewrite lookup_insert_eq.
  - intros key' Hne.
    rewrite (getCachedResult_memory _ _ _ _ Hconf Hkv1),
            (getCachedResult_memory _ _ _ _ Hconf Hkv), Hstore.
    unfold Store in *. now rewrite lookup_insert_ne by congruence.
  - intros errors' ttl'.
    destruct (setCachedResult_memory env w key errors' ttl' st1 Hconf Hkv1)
      as [Hmod2 Hstore2].
    rewrite (getCachedResult_memory _ _ _ _ Hconf
                                    (resolveKV_loaded w _ _ Hmod2)), Hstore2.
    unfold Store in *. now rewrite lookup_insert_eq.
Qed.

Lemma cache_round_trip_witness :
  let w := sampleWorld [] 200 None (Ok memoryKV) in
  let st1 := snd (setCachedResult fullEnv w "grammar:openai:en-US:ba7816bf8f01cfea"
                                  [ sampleNormalized ]
                                  CACHE_TTL initialState) in
  fst (getCachedResult fullEnv w "grammar:openai:en-US:ba7816bf8f01cfea" st1)
  = Ok (Some [ sampleNormalized ]).
Proof.
  exact (proj1 (cache_round_trip
                  fullEnv (sampleWorld [] 200 None (Ok memoryKV))
                  "grammar:openai:en-US:ba7816bf8f01cfea"
                  [ sampleNormalized ] CACHE_TTL
                  initialState eq_refl eq_refl)).
Defined.

(* ================================================================== *)
(** * The cache key: what it tells apart *)
(* ================================================================== *)

Lemma chars_app (s t : string) :
  chars (s ++ t)%string = (chars s ++ chars t)%list.
Proof.
  induction s as [| c s IH]; [reflexivity |].
  change (chars (String c (s ++ t)%string) = c :: (chars s ++ chars t)%list).
  unfold chars in *. simpl. now rewrite IH.
Qed.

Lemma split_at_first_colon (p1 p2 r1 r2 : list ascii) :
  forallb (fun c => negb (Ascii.eqb c ":"%char)) p1 = true ->
  forallb (fun c => negb (Ascii.eqb c ":"%char)) p2 = true ->
  (p1 ++ ":"%char :: r1 = p2 ++ ":"%char :: r2)%list ->
  p1 = p2 /\ r1 = r2.
Proof.
  revert p2. induction p1 as [| c p1 IH]; intros [| d p2] H1 H2 H;
    simpl in *.
  - injection H as <-. auto.
  - injection H as <- _. rewrite Ascii.eqb_refl in H2. discriminate H2.
  - injection H as -> _. rewrite Ascii.eqb_refl in H1. discriminate H1.
  - injection H as <- H.
    apply andb_prop in H1 as [_ H1]. apply andb_prop in H2 as [_ H2].
    destruct (IH p2 H1 H2 H) as [-> ->]. auto.
Qed.

(** X16. The key tells providers and languages apart as long as the
    provider has no colon, which holds for the three known identifiers: two
    equal keys then have the same provider, the same language and texts
    whose digests agree on the first 16 hexadecimal digits.  With a colon in
    the provider the boundary between provider and language is lost. *)
Theorem generateCacheKey_separates
        (provider1 language1 text1 provider2 language2 text2 : string) :
  noColon provider1 = true ->
  noColon provider2 = true ->
  generateCacheKey provider1 language1 text1
  = generateCacheKey provider2 language2 text2 ->
  (provider1 = provider2
   /\ language1 = language2
   /\ String.substring 0 16 (Sha256.digestHex text1)
      = String.substring 0 16 (Sha256.digestHex text2))
  /\ forallb noColon knownProviders = true
  /\ (forall p x l t,
        generateCacheKey (p ++ ":" ++ x) l t
        = generateCacheKey p (x ++ ":" ++ l) t).
Proof.
  intros Hp1 Hp2 Hkey. split; [| split].
  - unfold generateCacheKey in Hkey. rewrite !substring_digest in Hkey.
    set (h1 := String.substring 0 16 (Sha256.digestHex text1)) in *.
    set (h2 := String.substring 0 16 (Sha256.digestHex text2)) in *.
    assert (Hh1 : List.length (chars h1) = 16%nat).
    { rewrite chars_length. apply substring_prefix.
      rewrite digestHex_length. lia. }
    assert (Hh2 : List.length (chars h2) = 16%nat).
    { rewrite chars_length. apply substring_prefix.
      rewrite digestHex_length. lia. }
    apply (f_equal chars) in Hkey. rewrite !chars_app in Hkey.
    apply app_inv_head in Hkey.
    change (chars ":") with [ ":"%char ] in Hkey.
    apply split_at_first_colon in Hkey as [Hp Hrest]; try assumption.
    apply chars_inj in Hp.
    apply app_inj_2 in Hrest as [Hl Hh];
      [| rewrite !length_app; congruence].
    apply app_inv_head in Hh.
    apply chars_inj in Hl, Hh. auto.
  - reflexivity.
  - intros p x l t. unfold generateCacheKey.
    apply chars_inj. rewrite !chars_app, <- !app_assoc. reflexivity.
Qed.

Lemma generateCacheKey_separates_witness :
  (generateCacheKey "openai" "en-US" "abc"
   = generateCacheKey "openai" "en-US" "abc" ->
   "openai" = "openai" /\ "en-US" = "en-US")
  /\ generateCacheKey "a:b" "c" "abc" = generateCacheKey "a" "b:c" "abc".
Proof.
  split.
  - intros H.
    destruct (generateCacheKey_separates "openai" "en-US" "abc"
                "openai" "en-US" "abc" eq_refl eq_refl H)
      as ((Hp & Hl & _) & _). auto.
  - vm_compute. reflexivity.
Defined.

(* ================================================================== *)
(** * The orchestrator: every request *)
(* ================================================================== *)

Lemma bindM_ok {A B} (m : M A) (k : A -> M B) (st st1 : State) (a : A) :
  m st = (Ok a, st1) -> (m ≫= k) st = k a st1.
Proof. unfold mbind, m_bind. now intros ->. Qed.

Lemma bindM_err {A B} (m : M A) (k : A -> M B) (st st1 : State) (e : Exn) :
  m st = (Err e, st1) -> (m ≫= k) st = (Err e, st1).
Proof. unfold mbind, m_bind. now intros ->. Qed.

Lemma silent_ret {A} (a : A) : silent (mret a : M A).
Proof. intros st. reflexivity. Qed.

Lemma silent_bind {A B} (m : M A) (k : A -> M B) :
  silent m -> (forall a, silent (k a)) -> silent (m ≫= k).
Proof.
  intros Hm Hk st. unfold mbind, m_bind.
  specialize (Hm st). destruct (m st) as [[a | e] st1]; simpl in *.
  - now rewrite Hk.
  - exact Hm.
Qed.

Lemma silent_tryCatchM {A} (body : M A) (handler : Exn -> M A) :
  silent body -> (forall e, silent (handler e)) ->
  silent (tryCatchM body handler).
Proof.
  intros Hb Hh st. unfold tryCatchM.
  specialize (Hb st). destruct (body st) as [[a | e] st1]; simpl in *.
  - exact Hb.
  - now rewrite Hh.
Qed.

Lemma silent_onStore {A} (op : Store -> Res A * Store) : silent (onStore op).
Proof. intros st. unfold onStore. now destruct (op (store st)). Qed.

Lemma silent_liftRes {A} (r : Res A) : silent (liftRes r).
Proof. intros st. reflexivity. Qed.

Lemma silent_dateNow (w : World) : silent (dateNow w).
Proof. intros st. reflexivity. Qed.

Lemma silent_getKV (env : Env) (w : World) : silent (getKV env w).
Proof.
  unfold getKV. destruct (negb (isKVConfigured env)); [apply silent_ret |].
  apply silent_bind; [intros st; reflexivity |].
  intros [k |]; [apply silent_ret |].
  apply silent_bind; [apply silent_liftRes |]. intros k.
  apply silent_bind; [intros st; reflexivity |]. intros _. apply silent_ret.
Qed.

Lemma silent_getCachedResult (env : Env) (w : World) (key : string) :
  silent (getCachedResult env w key).
Proof.
  apply silent_tryCatchM; [| intros e; apply silent_ret].
  apply silent_bind; [apply silent_getKV |].
  intros [k |]; [| apply silent_ret].
  apply silent_bind; [apply silent_onStore | intros v; apply silent_ret].
Qed.

Lemma silent_setCachedResult (env : Env) (w : World) (key : string)
      (errors : list GrammarError) (ttl : Z) :
  silent (setCachedResult env w key errors ttl).
Proof.
  apply silent_tryCatchM; [| intros e; apply silent_ret].
  apply silent_bind; [apply silent_getKV |].
  intros [k |]; [apply silent_onStore | apply silent_ret].
Qed.

Lemma silent_incrementProviderUsage (env : Env) (w : World)
      (provider : string) :
  silent (incrementProviderUsage env w provider).
Proof.
  apply silent_tryCatchM; [| intros e; apply silent_ret].
  apply silent_bind; [apply silent_getKV |].
  intros [k |]; [| apply silent_ret].
  apply silent_bind; [apply silent_onStore | intros v; apply silent_ret].
Qed.

Lemma silent_trackSession (env : Env) (w : World) (sessionId : string) :
  silent (trackSession env w sessionId).
Proof.
  apply silent_tryCatchM; [| intros e; apply silent_ret].
  apply silent_bind; [apply silent_getKV |].
  intros [k |]; [| apply silent_ret].
  apply silent_bind; [apply silent_onStore |]. intros n.
  destruct (n =? 0); [| apply silent_ret].
  apply silent_bind; [apply silent_dateNow |]. intros now.
  apply silent_bind; [apply silent_onStore |]. intros _.
  apply silent_bind; [apply silent_onStore | intros _; apply silent_ret].
Qed.

(** A detached task returns, and records nothing when the task does not. *)
Lemma detach_run (task : M unit) (st : State) :
  silent task ->
  exists st1, detach task st = (Ok tt, st1) /\ trace st1 = trace st.
Proof.
  intros Hsilent. unfold detach.
  pose proof (tryCatchM_swallows task st) as Hok.
  pose proof (silent_tryCatchM task (fun _ => mret tt) Hsilent
                               (fun _ => silent_ret tt) st) as Htrace.
  destruct (tryCatchM task (fun _ => mret tt) st) as [r st1].
  simpl in *. subst r. eauto.
Qed.

Lemma emit_run (ev : Event) (st : State) :
  exists st1, emit ev st = (Ok tt, st1)
              /\ trace st1 = (trace st ++ [ ev ])%list.
Proof. eexists. split; reflexivity. Qed.

Lemma dateNow_run (w : World) (st : State) :
  exists st1, dateNow w st = (Ok (clock w (ticks st)), st1)
              /\ trace st1 = trace st /\ ticks st1 = S (ticks st).
Proof. eexists. repeat split. Qed.

Lemma getCachedResult_run (env : Env) (w : World) (key : string) (st : State) :
  exists v st1, getCachedResult env w key st = (Ok v, st1)
                /\ trace st1 = trace st.
Proof.
  destruct (getCachedResult_never_raises env w key st) as (v & Hv).
  pose proof (silent_getCachedResult env w key st) as Htrace.
  destruct (getCachedResult env w key st) as [r st1]. simpl in *. subst r.
  eauto.
Qed.

Lemma session_run (env : Env) (w : World) (sessionId : option string)
      (st : State) :
  exists st1,
    (if Js.truthy sessionId then
       _ ← emit (EvTrackSession (default "" sessionId));
       detach (trackSession env w (default "" sessionId))
     else mret tt) st = (Ok tt, st1)
    /\ trace st1 = (trace st ++ sessionEvents sessionId)%list.
Proof.
  unfold sessionEvents. destruct (Js.truthy sessionId).
  - destruct (emit_run (EvTrackSession (default "" sessionId)) st)
      as (st1 & Hemit & Ht1).
    destruct (detach_run (trackSession env w (default "" sessionId)) st1
                         (silent_trackSession _ _ _)) as (st2 & Hdet & Ht2).
    exists st2. rewrite (bindM_ok _ _ _ _ _ Hemit). split; [exact Hdet |].
    now rewrite Ht2, Ht1.
  - exists st. split; [reflexivity | now rewrite app_nil_r].
Qed.

(** The handler after validation: the three ways it ends, with the calls
    it has made by then. *)
Lemma serve_run (env : Env) (w : World) (startTime : Z)
      (text provider : string) (sessionId : option string)
      (language : string) (st : State) :
  exists response st',
    serve env w startTime text provider sessionId language st
    = (Ok response, st')
    /\ ((exists errs meta,
            response = mkResponse 200 (CheckBody (mkGrammarCheckResponse
                                                    errs meta))
            /\ md_cached meta = true
            /\ md_provider meta = provider /\ md_language meta = language
            /\ trace st'
               = (trace st ++ sessionEvents sessionId
                    ++ [ EvCacheGet (generateCacheKey provider language text) ])
                 %list)
        \/ (exists cause,
               dispatch env w provider text language = Err cause
               /\ response
                  = mkResponse 500
                      (ErrorBody ("Grammar check failed: "
                                    ++ emessage cause)%string)
               /\ trace st'
                  = (trace st ++ sessionEvents sessionId
                       ++ [ EvCacheGet (generateCacheKey provider language
                                                         text);
                            EvProviderCall provider text language ])%list)
        \/ (exists errs meta,
               dispatch env w provider text language = Ok errs
               /\ response = mkResponse 200 (CheckBody (mkGrammarCheckResponse
                                                          errs meta))
               /\ md_cached meta = false
               /\ md_provider meta = provider /\ md_language meta = language
               /\ trace st'
                  = (trace st ++ sessionEvents sessionId
                       ++ [ EvCacheGet (generateCacheKey provider language
                                                         text);
                            EvProviderCall provider text language;
                            EvCacheSet (generateCacheKey provider language
                                                         text);
                            EvUsage provider ])%list)).
Proof.
  unfold serve.
  destruct (session_run env w sessionId st) as (st1 & Hsession & Ht1).
  rewrite (bindM_ok _ _ _ _ _ Hsession). cbv zeta.
  destruct (emit_run (EvCacheGet (generateCacheKey provider language text))
                     st1) as (st2 & Hemit & Ht2).
  rewrite (bindM_ok _ _ _ _ _ Hemit).
  destruct (getCachedResult_run env w
              (generateCacheKey provider language text) st2)
    as (cached & st3 & Hget & Ht3).
  rewrite (bindM_ok _ _ _ _ _ Hget).
  destruct cached as [cachedResult |].
  - (* hit *)
    destruct (dateNow_run w st3) as (st4 & Hnow & Ht4 & _).
    rewrite (bindM_ok _ _ _ _ _ Hnow).
    destruct (dateNow_run w st4) as (st5 & Hstamp & Ht5 & _).
    rewrite (bindM_ok _ _ _ _ _ Hstamp).
    eexists _, st5. split; [reflexivity |]. left.
    eexists _, _. split; [reflexivity |]. repeat split.
    rewrite Ht5, Ht4, Ht3, Ht2, Ht1. now rewrite <- app_assoc.
  - (* miss *)
    destruct (emit_run (EvProviderCall provider text language) st3)
      as (st4 & Hcall & Ht4).
    rewrite (bindM_ok _ _ _ _ _ Hcall).
    destruct (dispatch env w provider text language) as [errs | cause] eqn:Hd.
    + destruct (emit_run (EvCacheSet (generateCacheKey provider language text))
                         st4) as (st5 & Hset & Ht5).
      rewrite (bindM_ok _ _ _ _ _ Hset).
      destruct (detach_run
                  (setCachedResult env w
                     (generateCacheKey provider language text) errs CACHE_TTL)
                  st5 (silent_setCachedResult _ _ _ _ _))
        as (st6 & Hstore & Ht6).
      rewrite (bindM_ok _ _ _ _ _ Hstore).
      destruct (emit_run (EvUsage provider) st6) as (st7 & Husage & Ht7).
      rewrite (bindM_ok _ _ _ _ _ Husage).
      destruct (detach_run (incrementProviderUsage env w provider) st7
                           (silent_incrementProviderUsage _ _ _))
        as (st8 & Hincr & Ht8).
      rewrite (bindM_ok _ _ _ _ _ Hincr).
      destruct (dateNow_run w st8) as (st9 & Hnow & Ht9 & _).
      rewrite (bindM_ok _ _ _ _ _ Hnow).
      destruct (dateNow_run w st9) as (st10 & Hstamp & Ht10 & _).
      rewrite (bindM_ok _ _ _ _ _ Hstamp).
      eexists _, st10. split; [reflexivity |]. right. right.
      eexists _, _. split; [reflexivity |]. split; [reflexivity |].
      repeat split.
      rewrite Ht10, Ht9, Ht8, Ht7, Ht6, Ht5, Ht4, Ht3, Ht2, Ht1.
      now rewrite <- !app_assoc.
    + eexists _, st4. split; [reflexivity |]. right. left.
      exists cause. repeat split.
      rewrite Ht4, Ht3, Ht2, Ht1. now rewrite <- !app_assoc.
Qed.

Lemma POST_valid (env : Env) (w : World) (request : RequestBody) (st : State) :
  validRequest request = true ->
  POST env w (Ok request) st
  = serve env w (clock w (ticks st)) (stringOf (text request))
          (stringOf (provider request)) (sessionId request)
          (default "en-US" (language request)) (afterClockRead st).
Proof.
  unfold validRequest. intros H.
  apply andb_prop in H as [H Hknown]. apply andb_prop in H as [H Hprov].
  apply andb_prop in H as [H Hlen]. apply andb_prop in H as [Htext Hstr].
  destruct (serve_run env w (clock w (ticks st)) (stringOf (text request))
                      (stringOf (provider request)) (sessionId request)
                      (default "en-US" (language request)) (afterClockRead st))
    as (response & st' & Hserve & _).
  rewrite Hserve.
  unfold POST, tryCatchM, mbind, m_bind, dateNow, liftRes. cbn iota beta.
  rewrite Htext, Hstr, Hprov, Hknown. cbn [negb orb].
  assert (Hgt : (Js.len (stringOf (text request)) >? MAX_TEXT_LENGTH) = false).
  { apply Z.leb_le in Hlen. rewrite Z.gtb_ltb. apply Z.ltb_ge. exact Hlen. }
  rewrite Hgt. fold (afterClockRead st). now rewrite Hserve.
Qed.

Lemma POST_invalid (env : Env) (w : World) (request : RequestBody)
      (st : State) :
  validRequest request = false ->
  exists msg,
    POST env w (Ok request) st
    = (Ok (mkResponse 400 (ErrorBody msg)), afterClockRead st).
Proof.
  unfold validRequest. intros H.
  destruct (jsTruthy (text request) && isString (text request)) eqn:Htext.
  2: { eexists. now apply POST_text_required. }
  destruct (Js.len (stringOf (text request)) <=? MAX_TEXT_LENGTH) eqn:Hlen.
  2: { apply andb_prop in Htext as [_ Hstr].
       destruct (text request) as [| | | | s |] eqn:Ht; try discriminate Hstr.
       eexists. apply (POST_text_too_long _ _ _ s); [exact Ht |].
       apply Z.leb_gt in Hlen. unfold MAX_TEXT_LENGTH in Hlen.
       exact Hlen. }
  destruct (includesValue knownProviders (provider request)) eqn:Hknown.
  - assert (Hprov : jsTruthy (provider request) = true).
    { unfold includesValue in Hknown.
      destruct (provider request) as [| | | | p |]; try discriminate Hknown.
      simpl in Hknown. simpl.
      destruct (String.eqb_spec p ""); [subst p; discriminate Hknown |].
      reflexivity. }
    rewrite Hprov in H. discriminate H.
  - destruct (POST_invalid_provider env w request st Hknown) as (msg & _ & Hm).
    eauto.
Qed.

(** X17. The handler answers every request.  The status is 200, 400 or
    500; for a body that parsed it is 400 exactly when the request fails one
    of the three checks (so a text of exactly 10,000 units passes); a body
    that did not parse is answered 500 "Internal server error" after one
    reading of the clock. *)
Theorem POST_always_answers (env : Env) (w : World)
        (requestJson : Res RequestBody) (st : State) :
  exists response,
    fst (POST env w requestJson st) = Ok response
    /\ (httpStatus response = 200 \/ httpStatus response = 400
        \/ httpStatus response = 500)
    /\ (forall request,
          requestJson = Ok request ->
          (httpStatus response = 400 <-> validRequest request = false))
    /\ (forall e,
          requestJson = Err e ->
          POST env w requestJson st
          = (Ok (mkResponse 500 (ErrorBody "Internal server error")),
             afterClockRead st)).
Proof.
  destruct requestJson as [request | e].
  - destruct (validRequest request) eqn:Hvalid.
    + rewrite (POST_valid _ _ _ _ Hvalid).
      destruct (serve_run env w (clock w (ticks st)) (stringOf (text request))
                          (stringOf (provider request)) (sessionId request)
                          (default "en-US" (language request))
                          (afterClockRead st))
        as (response & st' & -> & Hcases).
      exists response. split; [reflexivity |].
      assert (Hstatus : httpStatus response = 200 \/ httpStatus response = 500).
      { destruct Hcases as [(errs & meta & -> & _)
                           | [(cause & _ & -> & _) | (errs & meta & _ & -> & _)]];
          auto. }
      split; [tauto |]. split; [| discriminate].
      intros request' [= <-]. rewrite Hvalid. split; [| discriminate].
      intros H400. destruct Hstatus as [H | H]; rewrite H in H400;
        discriminate H400.
    + destruct (POST_invalid env w request st Hvalid) as (msg & ->).
      eexists. split; [reflexivity |]. split; [auto |].
      split; [| discriminate].
      intros request' [= <-]. rewrite Hvalid. split; reflexivity.
  - eexists. split; [reflexivity |]. split; [auto |].
    split; [discriminate |]. intros e' _. reflexivity.
Qed.

(** The handler after validation, by what the lookup returned. *)
Lemma serve_by_lookup (env : Env) (w : World) (startTime : Z)
      (text provider : string) (sessionId : option string)
      (language : string) (st : State) :
  let key := generateCacheKey provider language text in
  let before := (trace st ++ sessionEvents sessionId)%list in
  let atLookup :=
    snd ((_ ← (if Js.truthy sessionId then
                 _ ← emit (EvTrackSession (default "" sessionId));
                 detach (trackSession env w (default "" sessionId))
               else mret tt);
          emit (EvCacheGet key)) st) in
  exists response st',
    serve env w startTime text provider sessionId language st
    = (Ok response, st')
    /\ match fst (getCachedResult env w key atLookup) with
       | Ok (Some cachedResult) =>
           (exists meta,
               response = mkResponse 200 (CheckBody (mkGrammarCheckResponse
                                                       cachedResult meta))
               /\ md_cached meta = true
               /\ md_provider meta = provider /\ md_language meta = language)
           /\ trace st' = (before ++ [ EvCacheGet key ])%list
       | Ok None =>
           match dispatch env w provider text language with
           | Err cause =>
               response
               = mkResponse 500
                   (ErrorBody ("Grammar check failed: "
                                 ++ emessage cause)%string)
               /\ trace st'
                  = (before ++ [ EvCacheGet key;
                                 EvProviderCall provider text language ])%list
           | Ok errs =>
               (exists meta,
                   response = mkResponse 200 (CheckBody (mkGrammarCheckResponse
                                                           errs meta))
                   /\ md_cached meta = false
                   /\ md_provider meta = provider
                   /\ md_language meta = language)
               /\ trace st'
                  = (before ++ [ EvCacheGet key;
                                 EvProviderCall provider text language;
                                 EvCacheSet key; EvUsage provider ])%list
           end
       | Err _ => False
       end.
Proof.
  intros key before atLookup. unfold serve. fold key.
  destruct (session_run env w sessionId st) as (st1 & Hsession & Ht1).
  destruct (emit_run (EvCacheGet key) st1) as (st2 & Hemit & Ht2).
  assert (Hat : atLookup = st2).
  { unfold atLookup. rewrite (bindM_ok _ _ _ _ _ Hsession), Hemit.
    reflexivity. }
  rewrite Hat. clear Hat atLookup.
  rewrite (bindM_ok _ _ _ _ _ Hsession). cbv zeta.
  rewrite (bindM_ok _ _ _ _ _ Hemit).
  destruct (getCachedResult_run env w key st2)
    as (cached & st3 & Hget & Ht3).
  rewrite (bindM_ok _ _ _ _ _ Hget). rewrite Hget. cbn [fst].
  assert (Hbefore : trace st3 = (before ++ [ EvCacheGet key ])%list).
  { unfold before. now rewrite Ht3, Ht2, Ht1. }
  destruct cached as [cachedResult |].
  - (* hit *)
    destruct (dateNow_run w st3) as (st4 & Hnow & Ht4 & _).
    rewrite (bindM_ok _ _ _ _ _ Hnow).
    destruct (dateNow_run w st4) as (st5 & Hstamp & Ht5 & _).
    rewrite (bindM_ok _ _ _ _ _ Hstamp).
    eexists _, st5. split; [reflexivity |]. split.
    + eexists. split; [reflexivity |]. repeat split.
    + now rewrite Ht5, Ht4.
  - (* miss *)
    destruct (emit_run (EvProviderCall provider text language) st3)
      as (st4 & Hcall & Ht4).
    rewrite (bindM_ok _ _ _ _ _ Hcall).
    destruct (dispatch env w provider text language) as [errs | cause].
    + destruct (emit_run (EvCacheSet key) st4) as (st5 & Hset & Ht5).
      rewrite (bindM_ok _ _ _ _ _ Hset).
      destruct (detach_run (setCachedResult env w key errs CACHE_TTL)
                           st5 (silent_setCachedResult _ _ _ _ _))
        as (st6 & Hstore & Ht6).
      rewrite (bindM_ok _ _ _ _ _ Hstore).
      destruct (emit_run (EvUsage provider) st6) as (st7 & Husage & Ht7).
      rewrite (bindM_ok _ _ _ _ _ Husage).
      destruct (detach_run (incrementProviderUsage env w provider) st7
                           (silent_incrementProviderUsage _ _ _))
        as (st8 & Hincr & Ht8).
      rewrite (bindM_ok _ _ _ _ _ Hincr).
      destruct (dateNow_run w st8) as (st9 & Hnow & Ht9 & _).
      rewrite (bindM_ok _ _ _ _ _ Hnow).
      destruct (dateNow_run w st9) as (st10 & Hstamp & Ht10 & _).
      rewrite (bindM_ok _ _ _ _ _ Hstamp).
      eexists _, st10. split; [reflexivity |]. split.
      * eexists. split; [reflexivity |]. repeat split.
      * rewrite Ht10, Ht9, Ht8, Ht7, Ht6, Ht5, Ht4, Hbefore.
        now rewrite <- !app_assoc.
    + eexists _, st4. split; [reflexivity |]. split; [reflexivity |].
      rewrite Ht4, Hbefore. now rewrite <- !app_assoc.
Qed.

(** X18. The calls of a valid request, in order, by what the cache lookup
    returns.  After the optional session call comes the lookup.  When it
    returns a list, the handler answers 200 with that list and
    [cached = true] and calls nothing else.  When it returns nothing, the
    handler calls the provider: a failure is answered 500 "Grammar check
    failed: ..." and nothing is stored or counted; a result is stored,
    counted and answered 200 with [cached = false].  The cache key and the
    provider call use the request's language, "en-US" when it has none. *)
Theorem POST_calls_in_order (env : Env) (w : World) (request : RequestBody)
        (st : State) :
  validRequest request = true ->
  let text := stringOf (text request) in
  let provider := stringOf (provider request) in
  let language := default "en-US" (language request) in
  let key := generateCacheKey provider language text in
  let before := (trace st ++ sessionEvents (sessionId request))%list in
  let cachedResult :=
    fst (getCachedResult env w key
           (beforeLookup env w (sessionId request) key st)) in
  exists response st',
    POST env w (Ok request) st = (Ok response, st')
    /\ match cachedResult with
       | Ok (Some cachedErrors) =>
           (exists meta,
               response = mkResponse 200 (CheckBody (mkGrammarCheckResponse
                                                       cachedErrors meta))
               /\ md_cached meta = true
               /\ md_provider meta = provider /\ md_language meta = language)
           /\ trace st' = (before ++ [ EvCacheGet key ])%list
       | Ok None =>
           match dispatch env w provider text language with
           | Err cause =>
               response
               = mkResponse 500
                   (ErrorBody ("Grammar check failed: "
                                 ++ emessage cause)%string)
               /\ trace st'
                  = (before ++ [ EvCacheGet key;
                                 EvProviderCall provider text language ])%list
           | Ok errs =>
               (exists meta,
                   response = mkResponse 200 (CheckBody (mkGrammarCheckResponse
                                                           errs meta))
                   /\ md_cached meta = false
                   /\ md_provider meta = provider
                   /\ md_language meta = language)
               /\ trace st'
                  = (before ++ [ EvCacheGet key;
                                 EvProviderCall provider text language;
                                 EvCacheSet key; EvUsage provider ])%list
           end
       | Err _ => False
       end.
Proof.
  intros Hvalid text provider language key before cachedResult.
  rewrite (POST_valid _ _ _ _ Hvalid).
  exact (serve_by_lookup env w (clock w (ticks st)) text provider
                         (sessionId request) language (afterClockRead st)).
Qed.

Lemma POST_calls_in_order_witness :
  let w := sampleWorld [ sampleMatch 0 4 [ "hello" ] ] 503 None
                       (Ok memoryKV) in
  let request := mkRequestBody (JsString "helo how are you")
                               (JsString "openai") (Some "s-1") None in
  exists response st',
    POST noEnv w (Ok request) initialState = (Ok response, st')
    /\ httpStatus response = 500
    /\ trace st'
       = [ EvTrackSession "s-1";
           EvCacheGet "grammar:openai:en-US:0caedd70293888dc";
           EvProviderCall "openai" "helo how are you" "en-US" ].
Proof.
  intros w request.
  destruct (POST_calls_in_order noEnv w request initialState eq_refl)
    as (response & st' & Hpost & Hcases).
  exists response, st'. split; [exact Hpost |].
  vm_compute in Hcases. destruct Hcases as [-> Htrace].
  split; [reflexivity | exact Htrace].
Defined.

(* ================================================================== *)
(** * Substrings as slices *)
(* ================================================================== *)

Lemma chars_String_substring (n m : nat) (s : string) :
  chars (String.substring n m s) = take m (drop n (chars s)).
Proof.
  revert m s. induction n as [| n IHn]; intros m s.
  - revert s. induction m as [| m IHm]; intros [| c s]; try reflexivity.
    unfold chars in *. simpl. now rewrite IHm.
  - destruct s as [| c s]; [now destruct m |].
    unfold chars in *. simpl. apply IHn.
Qed.

(** [s.substring(a, b)] for [0 <= a <= b]: drop [a] units, keep [b - a]. *)
Lemma chars_substring (s : string) (a b : Z) :
  0 <= a <= b ->
  chars (Js.substring s a b)
  = take (Z.to_nat b - Z.to_nat a) (drop (Z.to_nat a) (chars s)).
Proof.
  intros Hab. unfold Js.substring, Js.clamp, Js.len.
  rewrite chars_String_substring, <- chars_length.
  set (l := chars s).
  destruct (Z_le_gt_dec a (Z.of_nat (List.length l))) as [Ha | Ha].
  - replace (Z.to_nat (Z.min (Z.max 0 (Z.min (Z.of_nat (List.length l)) a))
                             (Z.max 0 (Z.min (Z.of_nat (List.length l)) b))))
      with (Z.to_nat a) by lia.
    destruct (Z_le_gt_dec b (Z.of_nat (List.length l))) as [Hb | Hb].
    + f_equal. lia.
    + rewrite !take_ge; [reflexivity | |]; rewrite length_drop; lia.
  - rewrite !drop_ge by lia. now rewrite !take_nil.
Qed.

Lemma chars_substringFrom (s : string) (a : Z) :
  0 <= a -> chars (substringFrom s a) = drop (Z.to_nat a) (chars s).
Proof.
  intros Ha. unfold substringFrom.
  destruct (Z_le_gt_dec a (Js.len s)) as [Hle | Hgt].
  - rewrite chars_substring by lia.
    apply take_ge. rewrite length_drop, chars_length. unfold Js.len. lia.
  - unfold Js.substring, Js.clamp.
    replace (Z.max (Z.max 0 (Z.min (Js.len s) a))
                   (Z.max 0 (Z.min (Js.len s) (Js.len s)))
             - Z.min (Z.max 0 (Z.min (Js.len s) a))
                     (Z.max 0 (Z.min (Js.len s) (Js.len s))))
      with 0 by (unfold Js.len in *; lia).
    rewrite String_substring_zero.
    rewrite drop_ge; [reflexivity |].
    rewrite chars_length. unfold Js.len in Hgt. lia.
Qed.

Lemma replaceSpan_chars (text : string) (offset length : Z)
      (suggestion : string) :
  0 <= offset -> 0 <= offset + length ->
  chars (replaceSpan text offset length suggestion)
  = (take (Z.to_nat offset) (chars text) ++ chars suggestion
       ++ drop (Z.to_nat (offset + length)) (chars text))%list.
Proof.
  intros Ho Hol. unfold replaceSpan.
  rewrite !chars_app, chars_substring, chars_substringFrom by lia.
  change (Z.to_nat 0) with 0%nat. now rewrite Nat.sub_0_r.
Qed.

(* ================================================================== *)
(** * The editor: applying a suggestion *)
(* ================================================================== *)

Lemma len_chars (s : string) : Js.len s = Z.of_nat (List.length (chars s)).
Proof. unfold Js.len. now rewrite chars_length. Qed.

(** X19. Applying a suggestion to an error whose span lies within the text
    replaces exactly that span: the new text has the old length less the
    span plus the suggestion, reads the suggestion at the error's offset,
    and is the old text before the span and after it.  One more error is
    counted as fixed, and the popover is closed. *)
Theorem handleApplySuggestion_replaces_span
        (st : EditorState) (error : GrammarError) (suggestion : string) :
  0 <= e_offset error ->
  0 <= e_length error ->
  e_offset error + e_length error <= Js.len (ed_text st) ->
  let st' := handleApplySuggestion st error suggestion in
  Js.len (ed_text st')
  = Js.len (ed_text st) - e_length error + Js.len suggestion
  /\ Js.substring (ed_text st') (e_offset error)
                  (e_offset error + Js.len suggestion) = suggestion
  /\ Js.substring (ed_text st') 0 (e_offset error)
     = Js.substring (ed_text st) 0 (e_offset error)
  /\ substringFrom (ed_text st') (e_offset error + Js.len suggestion)
     = substringFrom (ed_text st) (e_offset error + e_length error)
  /\ ed_fixedErrors st' = ed_fixedErrors st + 1
  /\ ed_popoverOpen st' = false
  /\ ed_selectedError st' = None.
Proof.
  intros Ho Hl Hin st'. cbn [st' handleApplySuggestion ed_text ed_fixedErrors
                                 ed_popoverOpen ed_selectedError].
  set (text := ed_text st) in *. set (off := e_offset error) in *.
  set (n := e_length error) in *.
  assert (Hnew : chars (replaceSpan text off n suggestion)
                 = (take (Z.to_nat off) (chars text) ++ chars suggestion
                      ++ drop (Z.to_nat (off + n)) (chars text))%list)
    by (apply replaceSpan_chars; lia).
  rewrite len_chars in Hin.
  assert (Htake : List.length (take (Z.to_nat off) (chars text))
                  = Z.to_nat off) by (rewrite length_take; lia).
  repeat split.
  - rewrite !len_chars, Hnew, !length_app, Htake, length_drop. lia.
  - apply chars_inj. rewrite chars_substring, Hnew by (rewrite len_chars; lia).
    rewrite drop_app_length' by (now rewrite Htake).
    apply take_app_length'. rewrite len_chars. lia.
  - apply chars_inj. rewrite !chars_substring, Hnew by lia.
    change (Z.to_nat 0) with 0%nat. rewrite !Nat.sub_0_r, !drop_0.
    now rewrite take_app_length' by (now rewrite Htake).
  - apply chars_inj.
    rewrite !chars_substringFrom, Hnew by (rewrite ?len_chars; lia).
    rewrite app_assoc.
    apply drop_app_length'. rewrite length_app, Htake, len_chars. lia.
Qed.

Lemma handleApplySuggestion_replaces_span_witness :
  ed_text (handleApplySuggestion
             (mkEditorState "helo how are you" None true 0)
             sampleNormalized "hello")
  = "hello how are you"
  /\ Js.substring
       (ed_text (handleApplySuggestion
                   (mkEditorState "helo how are you" None true 0)
                   sampleNormalized "hello"))
       0 (0 + Js.len "hello") = "hello".
Proof.
  split; [reflexivity |].
  refine (proj1 (proj2 (handleApplySuggestion_replaces_span
                          (mkEditorState "helo how are you" None true 0)
                          sampleNormalized "hello"
                          _ _ _))); vm_compute; congruence.
Defined.

(** X20. Within the text, a correction can be undone: replacing a span by
    the very word it holds changes nothing, and after a suggestion has
    replaced a span, putting the old word back over the suggestion restores
    the text. *)
Theorem replaceSpan_undo (text : string) (offset length : Z)
        (suggestion : string) :
  0 <= offset ->
  0 <= length ->
  offset + length <= Js.len text ->
  let original := Js.substring text offset (offset + length) in
  replaceSpan text offset length original = text
  /\ replaceSpan (replaceSpan text offset length suggestion)
                 offset (Js.len suggestion) original
     = text.
Proof.
  intros Ho Hl Hin original.
  assert (Horig : chars original
                  = take (Z.to_nat length) (drop (Z.to_nat offset) (chars text))).
  { unfold original. rewrite chars_substring by lia. f_equal. lia. }
  rewrite len_chars in Hin.
  assert (Htake : List.length (take (Z.to_nat offset) (chars text))
                  = Z.to_nat offset) by (rewrite length_take; lia).
  assert (Hwhole : (take (Z.to_nat offset) (chars text) ++ chars original
                      ++ drop (Z.to_nat (offset + length)) (chars text))%list
                   = chars text).
  { rewrite Horig.
    replace (Z.to_nat (offset + length))
      with (Z.to_nat offset + Z.to_nat length)%nat by lia.
    rewrite <- drop_drop, take_drop. apply take_drop. }
  split; apply chars_inj.
  - rewrite replaceSpan_chars by lia. exact Hwhole.
  - rewrite replaceSpan_chars by (rewrite ?len_chars; lia).
    rewrite replaceSpan_chars by lia.
    rewrite take_app_length' by (now rewrite Htake).
    rewrite (app_assoc (take (Z.to_nat offset) (chars text))
                       (chars suggestion)).
    rewrite drop_app_length'
      by (rewrite length_app, Htake, len_chars; lia).
    exact Hwhole.
Qed.

Lemma replaceSpan_undo_witness :
  replaceSpan (replaceSpan "helo how are you" 0 4 "hello") 0 5 "helo"
  = "helo how are you".
Proof.
  refine (proj2 (replaceSpan_undo "helo how are you" 0 4 "hello" _ _ _));
    vm_compute; congruence.
Defined.

(** X21. Out of range and empty cases of a correction.  An error whose
    offset is at or beyond the end of the text (a stale error) does not
    replace anything: its suggestion is appended to the text.  An error with
    no replacement is left alone by auto-correct: the state is unchanged. *)
Theorem handleAutoCorrect_edge_cases (st : EditorState) (error : GrammarError) :
  (forall suggestion,
      Js.len (ed_text st) <= e_offset error ->
      0 <= e_length error ->
      ed_text (handleApplySuggestion st error suggestion)
      = (ed_text st ++ suggestion)%string)
  /\ (e_replacements error = [] -> handleAutoCorrect st error = st)
  /\ (forall first rest,
        e_replacements error = first :: rest ->
        handleAutoCorrect st error = handleApplySuggestion st error first).
Proof.
  split; [| split].
  - intros suggestion Hoff Hlen. cbn [handleApplySuggestion ed_text].
    apply chars_inj.
    assert (0 <= Js.len (ed_text st)) by (unfold Js.len; lia).
    rewrite replaceSpan_chars, chars_app by lia.
    rewrite len_chars in Hoff.
    rewrite take_ge, drop_ge by lia. now rewrite app_nil_r.
  - unfold handleAutoCorrect. now intros ->.
  - unfold handleAutoCorrect. now intros first rest ->.
Qed.

(* ================================================================== *)
(** * The editor: the highlight overlay *)
(* ================================================================== *)

Lemma overlayText_snoc (segments : list Segment) (seg : Segment) :
  chars (overlayText (segments ++ [ seg ]))
  = (chars (overlayText segments) ++ chars (segmentText seg))%list.
Proof.
  induction segments as [| s segments IH].
  - change (overlayText ([] ++ [ seg ])) with (segmentText seg ++ "")%string.
    rewrite chars_app. change (chars "") with (@nil ascii).
    now rewrite app_nil_r.
  - change (overlayText ((s :: segments) ++ [ seg ]))
      with (segmentText s ++ overlayText (segments ++ [ seg ]))%string.
    change (overlayText (s :: segments))
      with (segmentText s ++ overlayText segments)%string.
    rewrite !chars_app, IH. now rewrite app_assoc.
Qed.

Lemma marks_snoc (segments : list Segment) (seg : Segment) :
  marks (segments ++ [ seg ])
  = (marks segments ++ match seg with
                       | Plain _ => []
                       | Mark error s => [ (error, s) ]
                       end)%list.
Proof.
  unfold marks. rewrite flat_map_app. cbn [List.flat_map].
  now rewrite app_nil_r.
Qed.

Lemma chained_from_le (from : Z) (errors : list GrammarError) (len : Z) :
  chained from errors len -> from <= len.
Proof.
  revert from. induction errors as [| e errors IH]; intros from; simpl.
  - auto.
  - intros (Hfrom & Hlen & Hrest). apply IH in Hrest. lia.
Qed.

(** The loop keeps the overlay equal to the text read so far. *)
Lemma highlight_fold (text : string) (errors : list GrammarError)
      (segments : list Segment) (lastIndex : Z) :
  0 <= lastIndex ->
  chained lastIndex errors (Js.len text) ->
  chars (overlayText segments) = take (Z.to_nat lastIndex) (chars text) ->
  let '(segments', lastIndex') :=
    List.fold_left (highlightStep text) errors (segments, lastIndex) in
  chars (overlayText segments') = take (Z.to_nat lastIndex') (chars text)
  /\ lastIndex <= lastIndex' <= Js.len text
  /\ marks segments'
     = (marks segments
          ++ List.map (fun e =>
                         (e, Js.substring text (e_offset e)
                                          (e_offset e + e_length e)))
                      errors)%list.
Proof.
  revert segments lastIndex.
  induction errors as [| e errors IH]; intros segments lastIndex Hlast Hch Hov.
  - simpl in *. rewrite app_nil_r. repeat split; [exact Hov | lia | exact Hch].
  - destruct Hch as (Hfrom & Hlen & Hrest).
    cbn [List.fold_left].
    set (step := highlightStep text (segments, lastIndex) e).
    assert (Hstep : chars (overlayText (fst step))
                    = take (Z.to_nat (e_offset e + e_length e)) (chars text)
                    /\ snd step = e_offset e + e_length e
                    /\ marks (fst step)
                       = (marks segments
                            ++ [ (e, Js.substring text (e_offset e)
                                                  (e_offset e + e_length e)) ])
                         %list).
    { unfold step, highlightStep. cbn [fst snd].
      assert (Hplain : chars (overlayText
                                (if e_offset e >? lastIndex
                                 then (segments
                                         ++ [ Plain (Js.substring text lastIndex
                                                                  (e_offset e)) ])
                                      %list
                                 else segments))
                       = take (Z.to_nat (e_offset e)) (chars text)).
      { destruct (Z.gtb_spec (e_offset e) lastIndex) as [Hgt | Hle].
        - rewrite overlayText_snoc, Hov. cbn [segmentText].
          rewrite chars_substring by lia.
          rewrite take_take_drop. f_equal. lia.
        - rewrite Hov. f_equal. lia. }
      split; [| split; [reflexivity |]].
      - rewrite overlayText_snoc, Hplain. cbn [segmentText].
        rewrite chars_substring by lia.
        rewrite take_take_drop. f_equal. lia.
      - rewrite marks_snoc.
        destruct (e_offset e >? lastIndex); [| reflexivity].
        rewrite marks_snoc. now rewrite app_nil_r. }
    destruct Hstep as (Hov' & Hsnd & Hmarks).
    destruct step as [segments1 last1]. cbn [fst snd] in *. subst last1.
    specialize (IH segments1 (e_offset e + e_length e) ltac:(lia) Hrest Hov').
    destruct (List.fold_left (highlightStep text) errors
                             (segments1, e_offset e + e_length e))
      as [segments' lastIndex'].
    destruct IH as (Hfinal & Hbounds & Hm).
    repeat split; [exact Hfinal | lia | lia |].
    rewrite Hm, Hmarks, <- app_assoc. reflexivity.
Qed.

(** X22. When the errors, read in order of offset, do not overlap and lie
    within a non-empty text, the overlay shows the text itself, so that it
    lines up with the textarea beneath it; its marks are the errors in that
    order, each with the text of its span.  With no error the overlay is the
    text, and a single space when the text is empty. *)
Theorem renderHighlightedText_shows_text
        (text : string) (errors : list GrammarError) :
  text <> "" ->
  chained 0 (sort (fun a b => inject_Z (e_offset a - e_offset b)) errors)
          (Js.len text) ->
  overlayText (renderHighlightedText text errors) = text
  /\ (errors <> [] ->
      marks (renderHighlightedText text errors)
      = List.map (fun e =>
                    (e, Js.substring text (e_offset e)
                                     (e_offset e + e_length e)))
                 (sort (fun a b => inject_Z (e_offset a - e_offset b)) errors))
  /\ renderHighlightedText text [] = [ Plain text ]
  /\ renderHighlightedText "" errors = [ Plain " " ].
Proof.
  intros Hne Hch.
  assert (Htext : String.eqb text "" = false)
    by (now apply String.eqb_neq).
  assert (Hlen : (Js.len text =? 0) = false).
  { apply Z.eqb_neq. rewrite len_chars.
    destruct text; [congruence | cbn; lia]. }
  split; [| split; [| split]].
  - unfold renderHighlightedText. rewrite Hlen, orb_false_r.
    destruct (Z.of_nat (List.length errors) =? 0) eqn:Hnone.
    { rewrite Htext. cbn. apply chars_inj. rewrite chars_app.
      change (chars "") with (@nil ascii). apply app_nil_r. }
    cbv zeta.
    pose proof (highlight_fold text _ [] 0 ltac:(lia) Hch eq_refl) as Hfold.
    destruct (List.fold_left (highlightStep text) _ ([], 0))
      as [segments lastIndex].
    destruct Hfold as (Hov & Hbounds & _).
    apply chars_inj.
    destruct (Z.ltb_spec lastIndex (Js.len text)) as [Hlt | Hge].
    + rewrite overlayText_snoc, Hov. cbn [segmentText].
      rewrite chars_substringFrom by lia. apply take_drop.
    + rewrite Hov. apply take_ge. rewrite len_chars in *. lia.
  - intros Herr. unfold renderHighlightedText. rewrite Hlen, orb_false_r.
    destruct errors as [| e0 rest]; [congruence |].
    cbn [List.length Z.of_nat Z.eqb]. cbv zeta.
    replace (Z.of_nat (S (List.length rest)) =? 0) with false
      by (symmetry; apply Z.eqb_neq; lia).
    pose proof (highlight_fold text _ [] 0 ltac:(lia) Hch eq_refl) as Hfold.
    destruct (List.fold_left (highlightStep text) _ ([], 0))
      as [segments lastIndex].
    destruct Hfold as (_ & _ & Hmarks).
    destruct (lastIndex <? Js.len text); [rewrite marks_snoc, app_nil_r |];
      exact Hmarks.
  - unfold renderHighlightedText. cbn [List.length Z.of_nat Z.eqb orb].
    now rewrite Htext.
  - unfold renderHighlightedText. change (Js.len "" =? 0) with true.
    now rewrite orb_true_r.
Qed.

Lemma renderHighlightedText_shows_text_witness :
  overlayText
    (renderHighlightedText "helo how are yuo"
       [ mkGrammarError "Spelling" None 13 3 [ "you" ]
                        (mkRule "R" "r" "Typos") spelling None;
         mkGrammarError "Spelling" None 0 4 [ "hello" ]
                        (mkRule "R" "r" "Typos") spelling None ])
  = "helo how are yuo"
  /\ List.map snd
       (marks (renderHighlightedText "helo how are yuo"
          [ mkGrammarError "Spelling" None 13 3 [ "you" ]
                           (mkRule "R" "r" "Typos") spelling None;
            mkGrammarError "Spelling" None 0 4 [ "hello" ]
                           (mkRule "R" "r" "Typos") spelling None ]))
     = [ "helo"; "yuo" ].
Proof.
  split; [| vm_compute; reflexivity].
  refine (proj1 (renderHighlightedText_shows_text _ _ _ _));
    [discriminate | vm_compute; repeat split; discriminate].
Defined.

(* ================================================================== *)
(** * The client hook against the handler *)
(* ================================================================== *)

Lemma providerName_known (p : GrammarProvider) :
  Js.includes knownProviders (providerName p) = true
  /\ String.eqb (providerName p) "" = false.
Proof. destruct p; split; reflexivity. Qed.

(** X23. The hook sends a request only when it is enabled, the debounced
    text has at least 3 units and a session exists.  A request it sends
    passes the handler's checks on text and provider; the handler rejects it
    exactly when the text has more than 10,000 units, and then with "Text
    exceeds maximum length of 10000 characters".  The request names its
    session, so the session is tracked. *)
Theorem useGrammarCheck_request_passes_validation
        (enabled : bool) (debouncedText : string) (prov : GrammarProvider)
        (session : option string) (language : string) (request : RequestBody) :
  useGrammarCheckRequest enabled debouncedText prov session language
  = Some request ->
  enabled = true /\ 3 <= Js.len debouncedText /\ Js.truthy session = true
  /\ (validRequest request = true <-> Js.len debouncedText <= 10000)
  /\ sessionEvents (sessionId request)
     = [ EvTrackSession (default "" session) ]
  /\ (forall env w st,
        10000 < Js.len debouncedText ->
        POST env w (Ok request) st
        = (Ok (mkResponse 400
                 (ErrorBody "Text exceeds maximum length of 10000 characters")),
           afterClockRead st)).
Proof.
  unfold useGrammarCheckRequest.
  destruct enabled; cbn [negb orb]; [| discriminate].
  destruct (Z.ltb_spec (Js.len debouncedText) 3) as [Hshort | Hlong];
    cbn [orb]; [discriminate |].
  destruct (Js.truthy session) eqn:Hsession; cbn [negb]; [| discriminate].
  intros [= <-].
  destruct (providerName_known prov) as [Hknown Hname].
  assert (Htext : String.eqb debouncedText "" = false).
  { destruct debouncedText; [cbv in Hlong; congruence | reflexivity]. }
  repeat split; try assumption.
  - unfold validRequest. cbn [text provider jsTruthy isString stringOf].
    intros H. apply andb_prop in H as [H _]. apply andb_prop in H as [H _].
    apply andb_prop in H as [_ H]. apply Z.leb_le in H. exact H.
  - intros Hle. unfold validRequest, includesValue.
    cbn [text provider jsTruthy isString stringOf].
    rewrite Htext, Hname, Hknown. cbn [negb andb].
    rewrite !andb_true_r. apply Z.leb_le. exact Hle.
  - unfold sessionEvents. cbn [sessionId]. now rewrite Hsession.
  - intros env w st Hlen.
    now apply (POST_text_too_long _ _ _ debouncedText).
Qed.

Lemma useGrammarCheck_request_passes_validation_witness :
  exists request,
    useGrammarCheckRequest true "helo how are you" OpenRouterProvider
                           (Some "s-1") "en-US" = Some request
    /\ validRequest request = true.
Proof.
  eexists. split; [reflexivity |].
  refine (proj2 (proj1 (proj2 (proj2 (proj2
            (useGrammarCheck_request_passes_validation
               true "helo how are you" OpenRouterProvider (Some "s-1")
               "en-US" _ eq_refl))))) _).
  vm_compute. discriminate.
Defined.

(* ================================================================== *)
(** * The statistics *)
(* ================================================================== *)

Lemma sort_ext {A} (cmp1 cmp2 : A -> A -> Q) (l : list A) :
  (forall x y, (0 < cmp1 x y)%Q <-> (0 < cmp2 x y)%Q) ->
  sort cmp1 l = sort cmp2 l.
Proof.
  intros Hext. induction l as [| x l IH]; [reflexivity |].
  change (sortInsert cmp1 x (sort cmp1 l) = sortInsert cmp2 x (sort cmp2 l)).
  rewrite IH. generalize (sort cmp2 l). clear IH l.
  induction l as [| y l IH]; [reflexivity |].
  simpl. rewrite IH.
  destruct (Qlt_le_dec 0 (cmp1 x y)) as [H1 | H1],
           (Qlt_le_dec 0 (cmp2 x y)) as [H2 | H2]; try reflexivity.
  - apply Hext in H1. exfalso. apply (Qlt_not_le _ _ H1 H2).
  - apply Hext in H2. exfalso. apply (Qlt_not_le _ _ H2 H1).
Qed.

Lemma StronglySorted_impl {A} (R R' : A -> A -> Prop) (l : list A) :
  (forall a b, R a b -> R' a b) ->
  StronglySorted R l -> StronglySorted R' l.
Proof.
  intros Himpl. induction 1 as [| a l _ IH Ha]; constructor; [exact IH |].
  eapply List.Forall_impl; [| exact Ha]. intros b. apply Himpl.
Qed.

Lemma bump_spec (type : ErrorType) (acc : list (ErrorType * Z)) :
  Forall (fun entry => 1 <= snd entry) acc ->
  NoDup (List.map fst acc) ->
  Forall (fun entry => 1 <= snd entry) (bump type acc)
  /\ NoDup (List.map fst (bump type acc))
  /\ (forall t, In t (List.map fst (bump type acc))
                <-> t = type \/ In t (List.map fst acc))
  /\ fold_right Z.add 0 (List.map snd (bump type acc))
     = fold_right Z.add 0 (List.map snd acc) + 1.
Proof.
  induction acc as [| [t n] acc IH]; intros Hpos Hnd.
  - cbn. repeat split.
    + repeat constructor. cbn. lia.
    + repeat constructor. intros H. inversion H.
    + intros [-> | []]. now left.
    + intros [-> | []]. now left.
  - apply List.Forall_cons_iff in Hpos as [Hn Hpos]. cbn in Hn.
    apply NoDup_cons in Hnd as [Hnotin Hnd].
    cbn [bump]. destruct (decide (t = type)) as [-> | Hne].
    + replace (n =? 0) with false by (symmetry; apply Z.eqb_neq; lia).
      cbn. repeat split.
      * constructor; [cbn; lia | exact Hpos].
      * apply NoDup_cons. split; assumption.
      * intros [-> | H]; [now left | right; now right].
      * intros [-> | [-> | H]]; [now left | now left | now right].
      * lia.
    + destruct (IH Hpos Hnd) as (Hpos' & Hnd' & Hkeys & Hsum).
      cbn. repeat split.
      * constructor; [cbn; lia | exact Hpos'].
      * apply NoDup_cons. split; [| exact Hnd'].
        rewrite list_elem_of_In, Hkeys. intros [-> | H]; [congruence |].
        apply Hnotin. now apply list_elem_of_In.
      * intros [-> | H]; [right; now left |].
        apply Hkeys in H as [-> | H]; [now left | right; now right].
      * intros [-> | [-> | H]].
        -- right. apply Hkeys. now left.
        -- now left.
        -- right. apply Hkeys. now right.
      * rewrite Hsum. lia.
Qed.

Lemma errorsByType_fold (errors : list GrammarError)
      (acc : list (ErrorType * Z)) :
  Forall (fun entry => 1 <= snd entry) acc ->
  NoDup (List.map fst acc) ->
  let result := List.fold_left (fun acc error => bump (e_type error) acc)
                               errors acc in
  Forall (fun entry => 1 <= snd entry) result
  /\ NoDup (List.map fst result)
  /\ (forall t, In t (List.map fst result)
                <-> In t (List.map e_type errors) \/ In t (List.map fst acc))
  /\ fold_right Z.add 0 (List.map snd result)
     = fold_right Z.add 0 (List.map snd acc)
       + Z.of_nat (List.length errors).
Proof.
  revert acc. induction errors as [| e errors IH]; intros acc Hpos Hnd.
  - cbn. repeat split; try assumption; [tauto | intros [[] | H]; exact H | lia].
  - destruct (bump_spec (e_type e) acc Hpos Hnd) as (Hpos1 & Hnd1 & Hk1 & Hs1).
    destruct (IH _ Hpos1 Hnd1) as (Hpos' & Hnd' & Hkeys & Hsum).
    cbn [List.fold_left]. cbv zeta in *. repeat split; try assumption.
    + intros H. apply Hkeys in H as [H | H]; [left; now right |].
      apply Hk1 in H as [-> | H]; [left; now left | now right].
    + intros [[<- | H] | H]; apply Hkeys.
      * right. apply Hk1. now left.
      * now left.
      * right. apply Hk1. now right.
    + rewrite Hsum, Hs1. cbn [List.length]. lia.
Qed.

(** X24. The statistics add up.  The per-type counts list each type that
    occurs among the errors once, with a count of at least 1, and the counts
    sum to the number of errors; sorting them for display keeps these
    entries and puts larger counts first.  The "Remaining" figure is never
    negative, and is 0 once as many errors were fixed as are listed. *)
Theorem errorsByType_adds_up (errors : list GrammarError) (fixedErrors : Z) :
  fold_right Z.add 0 (List.map snd (errorsByType errors))
  = Z.of_nat (List.length errors)
  /\ NoDup (List.map fst (errorsByType errors))
  /\ Forall (fun entry => 1 <= snd entry) (errorsByType errors)
  /\ (forall t, In t (List.map fst (errorsByType errors))
                <-> In t (List.map e_type errors))
  /\ Permutation (sortedTypes errors) (errorsByType errors)
  /\ StronglySorted (fun a b => snd b <= snd a) (sortedTypes errors)
  /\ 0 <= remaining errors fixedErrors
  /\ (Z.of_nat (List.length errors) <= fixedErrors ->
      remaining errors fixedErrors = 0).
Proof.
  destruct (errorsByType_fold errors [] (Forall_nil_2 _) (NoDup_nil_2))
    as (Hpos & Hnd & Hkeys & Hsum).
  fold (errorsByType errors) in *.
  assert (Hsort : sortedTypes errors
                  = sort (fun a b : ErrorType * Z =>
                            (inject_Z (snd b) - inject_Z (snd a))%Q)
                         (errorsByType errors)).
  { unfold sortedTypes. apply sort_ext. intros a b.
    unfold Qlt. cbn. lia. }
  split; [rewrite Hsum; cbn; lia |].
  split; [exact Hnd |]. split; [exact Hpos |].
  split.
  { intros t. rewrite Hkeys. cbn. tauto. }
  split.
  { rewrite Hsort.
    apply (sort_perm (fun entry : ErrorType * Z => inject_Z (snd entry))). }
  split.
  { rewrite Hsort.
    pose proof (sort_descending
                  (fun entry : ErrorType * Z => inject_Z (snd entry))
                  (errorsByType errors)) as Hdesc.
    unfold descending in Hdesc.
    eapply StronglySorted_impl; [| exact Hdesc].
    intros a b Hab. cbn in Hab. unfold Qle in Hab. cbn in Hab. lia. }
  unfold remaining. split; [lia | intros; lia].
Qed.

(* ================================================================== *)
(** * The analytics endpoint *)
(* ================================================================== *)

Lemma getAnalyticsKV_unconfigured (env : Env) (import : Res AnalyticsKV)
      (st : AnalyticsState) :
  isKVConfigured env = false ->
  getAnalyticsKV env import st = (Ok None, st).
Proof. unfold getAnalyticsKV. now intros ->. Qed.

(** X25. The analytics [POST] never fails because of the store.  An event
    that lacks its session, its provider or its timestamp (a timestamp of 0
    counts as lacking) is answered 400 "Missing required fields" and nothing
    is stored.  Every other event is answered 200 with success, whatever the
    import and the store operations do; with no store configured the state
    is left as it was and the answer says [cached: false]. *)
Theorem analyticsPOST_best_effort (env : Env) (import : Res AnalyticsKV)
        (event : AnalyticsEvent) (st : AnalyticsState) :
  (missingFields event = true ->
   analyticsPOST env import (Ok event) st
   = (Ok (mkAnalyticsResponse 400 (AnalyticsError "Missing required fields")),
      st))
  /\ (missingFields event = false ->
      exists cached,
        fst (analyticsPOST env import (Ok event) st)
        = Ok (mkAnalyticsResponse 200 (AnalyticsSuccess cached)))
  /\ (missingFields event = false ->
      isKVConfigured env = false ->
      analyticsPOST env import (Ok event) st
      = (Ok (mkAnalyticsResponse 200 (AnalyticsSuccess (Some false))), st))
  /\ missingFields (mkAnalyticsEvent (ev_sessionId event) (ev_provider event)
                                     (ev_cached event) (Some 0)
                                     (ev_textLength event)
                                     (ev_errorCount event)) = true.
Proof.
  split; [| split; [| split]].
  - intros Hmiss. unfold analyticsPOST. now rewrite Hmiss.
  - intros Hok. unfold analyticsPOST. rewrite Hok.
    destruct (storeEvent env import event st) as [[[response |] | e] st'] eqn:H;
      cbn; eauto.
    unfold storeEvent, mbind, am_bind in H.
    destruct (getAnalyticsKV env import st) as [[[k |] | e0] st0];
      [| injection H as <- _; eauto | discriminate H].
    exfalso.
    repeat match type of H with
           | context [match ?x with _ => _ end] =>
               destruct x; try discriminate H
           end.
  - intros Hok Hconf. unfold analyticsPOST. rewrite Hok.
    unfold storeEvent, mbind, am_bind.
    now rewrite (getAnalyticsKV_unconfigured _ _ _ Hconf).
  - unfold missingFields. cbn. now rewrite !orb_true_r.
Qed.

Lemma suffix_keys_differ (prefix s1 s2 : string) :
  s1 <> s2 -> (prefix ++ s1)%string <> (prefix ++ s2)%string.
Proof.
  intros Hne H. apply Hne. apply chars_inj.
  apply (f_equal chars) in H. rewrite !chars_app in H.
  now apply app_inv_head in H.
Qed.

Lemma provider_key_differs (provider s1 s2 : string) :
  s1 <> s2 ->
  ("provider:" ++ provider ++ s1)%string
  <> ("provider:" ++ provider ++ s2)%string.
Proof.
  intros Hne. apply suffix_keys_differ, suffix_keys_differ, Hne.
Qed.

Lemma event_key_not_provider_key (rest1 rest2 : string) :
  ("event:" ++ rest1)%string <> ("provider:" ++ rest2)%string.
Proof. intros H. vm_compute in H. discriminate H. Qed.

(** X26. Against the in-memory store an event is counted as it reads: it
    is stored under [event:{sessionId}:{timestamp}], the provider's total
    goes up by one, its cached count by one when the event says cached, and
    its character and error counts by the event's text length and error
    count when it carries them. *)
Theorem analyticsPOST_counts (env : Env) (import : Res AnalyticsKV)
        (event : AnalyticsEvent) (st : AnalyticsState) :
  missingFields event = false ->
  isKVConfigured env = true ->
  match an_kv st with Some k => Ok k | None => import end
  = Ok memoryAnalyticsKV ->
  let p := default "" (ev_provider event) in
  let eventKey := ("event:" ++ default "" (ev_sessionId event) ++ ":"
                     ++ pretty (default 0 (ev_timestamp event)))%string in
  let store' := an_store (snd (analyticsPOST env import (Ok event) st)) in
  let count s := analyticsCounter (an_store st !! s) in
  let count' s := analyticsCounter (store' !! s) in
  fst (analyticsPOST env import (Ok event) st)
  = Ok (mkAnalyticsResponse 200 (AnalyticsSuccess None))
  /\ store' !! eventKey = Some (AEvent event)
  /\ count' ("provider:" ++ p ++ ":total")%string
     = count ("provider:" ++ p ++ ":total")%string + 1
  /\ count' ("provider:" ++ p ++ ":cached")%string
     = count ("provider:" ++ p ++ ":cached")%string
       + (if ev_cached event then 1 else 0)
  /\ count' ("provider:" ++ p ++ ":chars")%string
     = count ("provider:" ++ p ++ ":chars")%string
       + default 0 (ev_textLength event)
  /\ count' ("provider:" ++ p ++ ":errors")%string
     = count ("provider:" ++ p ++ ":errors")%string
       + default 0 (ev_errorCount event).
Proof.
  intros Hok Hconf Hkv p eventKey.
  assert (Hget : exists st0,
             getAnalyticsKV env import st = (Ok (Some memoryAnalyticsKV), st0)
             /\ an_store st0 = an_store st).
  { unfold getAnalyticsKV. rewrite Hconf. cbn [negb].
    destruct (an_kv st) as [k |].
    - injection Hkv as ->. eauto.
    - rewrite Hkv. eexists. split; reflexivity. }
  destruct Hget as (st0 & Hget & Hstore0).
  pose proof (provider_key_differs p ":total" ":cached" ltac:(discriminate)).
  pose proof (provider_key_differs p ":total" ":chars" ltac:(discriminate)).
  pose proof (provider_key_differs p ":total" ":errors" ltac:(discriminate)).
  pose proof (provider_key_differs p ":cached" ":chars" ltac:(discriminate)).
  pose proof (provider_key_differs p ":cached" ":errors" ltac:(discriminate)).
  pose proof (provider_key_differs p ":chars" ":errors" ltac:(discriminate)).
  pose proof (fun r => event_key_not_provider_key
                         (default "" (ev_sessionId event) ++ ":"
                            ++ pretty (default 0 (ev_timestamp event)))
                         (p ++ r)) as Hev.
  fold eventKey in Hev.
  unfold analyticsPOST. rewrite Hok.
  unfold storeEvent, mbind, am_bind. rewrite Hget.
  fold p. fold eventKey.
  unfold onAnalyticsStore, mret, am_ret.
  cbn [memoryAnalyticsKV a_set a_incr a_incrby].
  rewrite Hstore0. unfold AnalyticsStore in *.
  destruct (ev_cached event), (ev_textLength event) as [tl |],
           (ev_errorCount event) as [ec |];
    cbn [fst snd an_store default from_option id];
    repeat split;
    repeat first
      [ rewrite lookup_insert_eq
      | rewrite lookup_insert_ne by (first [ congruence | apply Hev
                                   | (intros Heq; symmetry in Heq;
                                      revert Heq; apply Hev) ]) ];
    cbn [analyticsCounter]; try reflexivity; try lia.
Qed.

Lemma analyticsPOST_counts_witness :
  let event := mkAnalyticsEvent (Some "s-1") (Some "openrouter") true
                                (Some 1700000000000) (Some 16) (Some 1) in
  let st' := snd (analyticsPOST fullEnv (Ok memoryAnalyticsKV) (Ok event)
                                (mkAnalyticsState None ∅)) in
  analyticsCounter (an_store st' !! "provider:openrouter:total") = 1
  /\ analyticsCounter (an_store st' !! "provider:openrouter:chars") = 16.
Proof.
  intros event st'.
  destruct (analyticsPOST_counts fullEnv (Ok memoryAnalyticsKV) event
              (mkAnalyticsState None ∅) eq_refl eq_refl eq_refl)
    as (_ & _ & Htotal & _ & Hchars & _).
  split; [exact Htotal | exact Hchars].
Defined.

(* ================================================================== *)
(** * The orchestrator: the times it reports *)
(* ================================================================== *)

Lemma advancing_ret {A} (a : A) : advancing (mret a : M A).
Proof. intros st. reflexivity. Qed.

Lemma advancing_bind {A B} (m : M A) (k : A -> M B) :
  advancing m -> (forall a, advancing (k a)) -> advancing (m ≫= k).
Proof.
  intros Hm Hk st. unfold mbind, m_bind.
  specialize (Hm st). destruct (m st) as [[a | e] st1]; simpl in *.
  - etransitivity; [exact Hm | apply Hk].
  - exact Hm.
Qed.

Lemma advancing_tryCatchM {A} (body : M A) (handler : Exn -> M A) :
  advancing body -> (forall e, advancing (handler e)) ->
  advancing (tryCatchM body handler).
Proof.
  intros Hb Hh st. unfold tryCatchM.
  specialize (Hb st). destruct (body st) as [[a | e] st1]; simpl in *.
  - exact Hb.
  - etransitivity; [exact Hb | apply Hh].
Qed.

Lemma advancing_onStore {A} (op : Store -> Res A * Store) :
  advancing (onStore op).
Proof. intros st. unfold onStore. now destruct (op (store st)). Qed.

Lemma advancing_dateNow (w : World) : advancing (dateNow w).
Proof. intros st. simpl. lia. Qed.

Lemma advancing_getKV (env : Env) (w : World) : advancing (getKV env w).
Proof.
  unfold getKV. destruct (negb (isKVConfigured env)); [apply advancing_ret |].
  apply advancing_bind; [intros st; reflexivity |].
  intros [k |]; [apply advancing_ret |].
  apply advancing_bind; [intros st; reflexivity |]. intros k.
  apply advancing_bind; [intros st; reflexivity |]. intros _.
  apply advancing_ret.
Qed.

Lemma advancing_getCachedResult (env : Env) (w : World) (key : string) :
  advancing (getCachedResult env w key).
Proof.
  apply advancing_tryCatchM; [| intros e; apply advancing_ret].
  apply advancing_bind; [apply advancing_getKV |].
  intros [k |]; [| apply advancing_ret].
  apply advancing_bind; [apply advancing_onStore | intros v; apply advancing_ret].
Qed.

Lemma advancing_setCachedResult (env : Env) (w : World) (key : string)
      (errors : list GrammarError) (ttl : Z) :
  advancing (setCachedResult env w key errors ttl).
Proof.
  apply advancing_tryCatchM; [| intros e; apply advancing_ret].
  apply advancing_bind; [apply advancing_getKV |].
  intros [k |]; [apply advancing_onStore | apply advancing_ret].
Qed.

Lemma advancing_incrementProviderUsage (env : Env) (w : World)
      (provider : string) :
  advancing (incrementProviderUsage env w provider).
Proof.
  apply advancing_tryCatchM; [| intros e; apply advancing_ret].
  apply advancing_bind; [apply advancing_getKV |].
  intros [k |]; [| apply advancing_ret].
  apply advancing_bind; [apply advancing_onStore | intros v; apply advancing_ret].
Qed.

Lemma advancing_trackSession (env : Env) (w : World) (sessionId : string) :
  advancing (trackSession env w sessionId).
Proof.
  apply advancing_tryCatchM; [| intros e; apply advancing_ret].
  apply advancing_bind; [apply advancing_getKV |].
  intros [k |]; [| apply advancing_ret].
  apply advancing_bind; [apply advancing_onStore |]. intros n.
  destruct (n =? 0); [| apply advancing_ret].
  apply advancing_bind; [apply advancing_dateNow |]. intros now.
  apply advancing_bind; [apply advancing_onStore |]. intros _.
  apply advancing_bind; [apply advancing_onStore | intros _; apply advancing_ret].
Qed.

Lemma advancing_emit (ev : Event) : advancing (emit ev).
Proof. intros st. reflexivity. Qed.

Lemma advancing_detach (task : M unit) : advancing task -> advancing (detach task).
Proof.
  intros H. apply advancing_tryCatchM; [exact H | intros e; apply advancing_ret].
Qed.

(** [m] run from [st] ends in [st1]: the clock was not set back. *)
Lemma advancing_run {A} (m : M A) (st st1 : State) (r : Res A) :
  advancing m -> m st = (r, st1) -> (ticks st <= ticks st1)%nat.
Proof. intros H Hrun. specialize (H st). now rewrite Hrun in H. Qed.

(** The two readings behind the metadata of a 200 answer: both are taken
    after the handler was entered, the time stamp after the processing
    time. *)
Lemma serve_times (env : Env) (w : World) (startTime : Z)
      (text provider : string) (sessionId : option string)
      (language : string) (st st' : State) (errs : list GrammarError)
      (meta : Metadata) :
  serve env w startTime text provider sessionId language st
  = (Ok (mkResponse 200 (CheckBody (mkGrammarCheckResponse errs meta))), st') ->
  exists n m : nat,
    (ticks st <= n)%nat /\ (n < m)%nat
    /\ md_processingTime meta = clock w n - startTime
    /\ md_timestamp meta = clock w m.
Proof.
  unfold serve.
  destruct (session_run env w sessionId st) as (st1 & Hsession & _).
  assert (H1 : (ticks st <= ticks st1)%nat).
  { refine (advancing_run _ _ _ _ _ Hsession).
    destruct (Js.truthy sessionId); [| apply advancing_ret].
    apply advancing_bind; [apply advancing_emit |]. intros _.
    apply advancing_detach, advancing_trackSession. }
  rewrite (bindM_ok _ _ _ _ _ Hsession). cbv zeta.
  destruct (emit_run (EvCacheGet (generateCacheKey provider language text))
                     st1) as (st2 & Hemit & _).
  pose proof (advancing_run _ _ _ _ (advancing_emit _) Hemit) as H2.
  rewrite (bindM_ok _ _ _ _ _ Hemit).
  destruct (getCachedResult_run env w
              (generateCacheKey provider language text) st2)
    as (cached & st3 & Hget & _).
  pose proof (advancing_run _ _ _ _ (advancing_getCachedResult _ _ _) Hget)
    as H3.
  rewrite (bindM_ok _ _ _ _ _ Hget).
  destruct cached as [cachedResult |].
  - destruct (dateNow_run w st3) as (st4 & Hnow & _ & Ht4).
    rewrite (bindM_ok _ _ _ _ _ Hnow).
    destruct (dateNow_run w st4) as (st5 & Hstamp & _ & Ht5).
    rewrite (bindM_ok _ _ _ _ _ Hstamp).
    intros [= <- <- _]. exists (ticks st3), (ticks st4). cbn.
    repeat split; lia.
  - destruct (emit_run (EvProviderCall provider text language) st3)
      as (st4 & Hcall & _).
    pose proof (advancing_run _ _ _ _ (advancing_emit _) Hcall) as H4.
    rewrite (bindM_ok _ _ _ _ _ Hcall).
    destruct (dispatch env w provider text language) as [errs' | cause];
      [| discriminate].
    destruct (emit_run (EvCacheSet (generateCacheKey provider language text))
                       st4) as (st5 & Hset & _).
    pose proof (advancing_run _ _ _ _ (advancing_emit _) Hset) as H5.
    rewrite (bindM_ok _ _ _ _ _ Hset).
    destruct (detach_run
                (setCachedResult env w
                   (generateCacheKey provider language text) errs' CACHE_TTL)
                st5 (silent_setCachedResult _ _ _ _ _))
      as (st6 & Hstore & _).
    pose proof (advancing_run _ _ _ _
                  (advancing_detach _ (advancing_setCachedResult _ _ _ _ _))
                  Hstore) as H6.
    rewrite (bindM_ok _ _ _ _ _ Hstore).
    destruct (emit_run (EvUsage provider) st6) as (st7 & Husage & _).
    pose proof (advancing_run _ _ _ _ (advancing_emit _) Husage) as H7.
    rewrite (bindM_ok _ _ _ _ _ Husage).
    destruct (detach_run (incrementProviderUsage env w provider) st7
                         (silent_incrementProviderUsage _ _ _))
      as (st8 & Hincr & _).
    pose proof (advancing_run _ _ _ _
                  (advancing_detach _ (advancing_incrementProviderUsage _ _ _))
                  Hincr) as H8.
    rewrite (bindM_ok _ _ _ _ _ Hincr).
    destruct (dateNow_run w st8) as (st9 & Hnow & _ & Ht9).
    rewrite (bindM_ok _ _ _ _ _ Hnow).
    destruct (dateNow_run w st9) as (st10 & Hstamp & _ & Ht10).
    rewrite (bindM_ok _ _ _ _ _ Hstamp).
    intros [= <- <- _]. exists (ticks st8), (ticks st9). cbn.
    repeat split; lia.
Qed.

(** X27. On a clock that never runs backwards, a 200 answer reports a
    processing time that is not negative and a time stamp that is not
    earlier than the entry into the handler plus that processing time. *)
Theorem POST_times (env : Env) (w : World) (request : RequestBody)
        (st st' : State) (errs : list GrammarError) (meta : Metadata) :
  (forall n m : nat, (n <= m)%nat -> clock w n <= clock w m) ->
  POST env w (Ok request) st
  = (Ok (mkResponse 200 (CheckBody (mkGrammarCheckResponse errs meta))), st') ->
  0 <= md_processingTime meta
  /\ clock w (ticks st) + md_processingTime meta <= md_timestamp meta.
Proof.
  intros Hclock Hpost.
  destruct (validRequest request) eqn:Hvalid.
  - rewrite (POST_valid _ _ _ _ Hvalid) in Hpost.
    apply serve_times in Hpost as (n & m & Hn & Hm & -> & ->).
    cbn [afterClockRead ticks] in Hn.
    pose proof (Hclock (ticks st) n ltac:(lia)).
    pose proof (Hclock n m ltac:(lia)). lia.
  - destruct (POST_invalid env w request st Hvalid) as (msg & Hm).
    rewrite Hm in Hpost. discriminate Hpost.
Qed.

Lemma POST_times_witness :
  let w := sampleWorld [ sampleMatch 0 4 [ "help"; "hello" ] ] 200 None
                       (Ok memoryKV) in
  let request := mkRequestBody (JsString "helo how are you")
                               (JsString "languagetool") (Some "s-1") None in
  match fst (POST fullEnv w (Ok request) initialState) with
  | Ok {| body := CheckBody r |} => 0 <= md_processingTime (metadata r)
  | _ => False
  end.
Proof.
  intros w request.
  destruct (POST fullEnv w (Ok request) initialState) as [r st'] eqn:Hpost.
  destruct r as [[status [msg | [errs meta]]] | e];
    try (exfalso; vm_compute in Hpost; discriminate Hpost).
  assert (Hstatus : status = 200).
  { vm_compute in Hpost. now injection Hpost as <- _ _ _. }
  subst status. cbn [fst body metadata].
  refine (proj1 (POST_times fullEnv w request initialState st' errs meta _ Hpost)).
  intros n m Hnm. cbn. lia.
Defined.

(* ================================================================== *)
(** * The orchestrator against the in-memory store: the second request *)
(* ================================================================== *)

Lemma grammar_key_not_session (provider language text sessionId : string) :
  generateCacheKey provider language text
  <> ("session:" ++ sessionId)%string.
Proof.
  unfold generateCacheKey. cbv zeta.
  generalize (Js.substring (Sha256.digestHex text) 0 16). intros hash H.
  vm_compute in H. discriminate H.
Qed.

Lemma grammar_key_not_total (provider language text : string) :
  generateCacheKey provider language text <> "sessions:total".
Proof.
  unfold generateCacheKey. cbv zeta.
  generalize (Js.substring (Sha256.digestHex text) 0 16). intros hash H.
  vm_compute in H. discriminate H.
Qed.

Lemma grammar_key_not_usage (provider language text name : string) :
  generateCacheKey provider language text
  <> ("usage:" ++ name ++ ":count")%string.
Proof.
  unfold generateCacheKey. cbv zeta.
  generalize (Js.substring (Sha256.digestHex text) 0 16). intros hash H.
  vm_compute in H. discriminate H.
Qed.

Lemma detach_ok (task : M unit) (st st1 : State) :
  task st = (Ok tt, st1) -> detach task st = (Ok tt, st1).
Proof. unfold detach, tryCatchM. now intros ->. Qed.

Lemma run_parts {A} (m : M A) (st : State) (v : A) :
  fst (m st) = Ok v -> m st = (Ok v, snd (m st)).
Proof. destruct (m st) as [r st1]. simpl. now intros ->. Qed.

(** Tracking a session does not touch the entries of the result cache. *)
Lemma trackSession_keeps_cache (env : Env) (w : World)
      (sessionId : string) (st : State) (key : string) :
  isKVConfigured env = true ->
  resolveKV w st = Ok memoryKV ->
  key <> ("session:" ++ sessionId)%string ->
  key <> "sessions:total" ->
  exists st1,
    trackSession env w sessionId st = (Ok tt, st1)
    /\ resolveKV w st1 = Ok memoryKV
    /\ store st1 !! key = store st !! key.
Proof.
  intros Hconf Hkv Hk1 Hk2.
  destruct (trackSession_memory env w sessionId st Hconf Hkv) as [Hmod Hstore].
  exists (snd (trackSession env w sessionId st)). split; [| split].
  - apply run_parts, tryCatchM_swallows.
  - now apply resolveKV_loaded.
  - rewrite Hstore.
    destruct (store st !! ("session:" ++ sessionId)%string); [reflexivity |].
    cbv zeta. unfold Store in *.
    now rewrite !lookup_insert_ne by congruence.
Qed.

Lemma getCachedResult_memory_run (env : Env) (w : World) (key : string)
      (st : State) :
  isKVConfigured env = true ->
  resolveKV w st = Ok memoryKV ->
  exists st1,
    getCachedResult env w key st
    = (Ok (match store st !! key with
           | Some {| entryValue := VErrors errors |} => Some errors
           | _ => None
           end), st1)
    /\ resolveKV w st1 = Ok memoryKV
    /\ store st1 = store st.
Proof.
  intros Hconf Hkv.
  pose proof (getKV_configured env w st Hconf) as Hget.
  rewrite Hkv in Hget. destruct Hget as (st1 & Hget & Hstore & _).
  destruct (getKV_loaded_state _ _ _ _ _ Hget) as (Hmod & _).
  exists st1.
  unfold getCachedResult, tryCatchM, mbind, m_bind. rewrite Hget.
  unfold onStore. cbn [memoryKV kv_get].
  split; [| split; [now apply resolveKV_loaded | exact Hstore]].
  rewrite <- Hstore. destruct st1 as [k s t tr]. cbn [store].
  destruct (s !! key) as [[[errors | n] ttl] |]; reflexivity.
Qed.

Lemma setCachedResult_memory_run (env : Env) (w : World) (key : string)
      (errors : list GrammarError) (ttl : Z) (st : State) :
  isKVConfigured env = true ->
  resolveKV w st = Ok memoryKV ->
  exists st1,
    setCachedResult env w key errors ttl st = (Ok tt, st1)
    /\ resolveKV w st1 = Ok memoryKV
    /\ store st1 = <[key := mkEntry (VErrors errors) (Some ttl)]> (store st).
Proof.
  intros Hconf Hkv.
  destruct (setCachedResult_memory env w key errors ttl st Hconf Hkv)
    as [Hmod Hstore].
  exists (snd (setCachedResult env w key errors ttl st)).
  split; [| split; [now apply resolveKV_loaded | exact Hstore]].
  apply run_parts, setCachedResult_never_raises.
Qed.

Lemma incrementProviderUsage_memory_run (env : Env) (w : World)
      (provider : string) (st : State) (key : string) :
  isKVConfigured env = true ->
  resolveKV w st = Ok memoryKV ->
  key <> ("usage:" ++ provider ++ ":count")%string ->
  exists st1,
    incrementProviderUsage env w provider st = (Ok tt, st1)
    /\ resolveKV w st1 = Ok memoryKV
    /\ store st1 !! key = store st !! key
    /\ counterOf (store st1 !! ("usage:" ++ provider ++ ":count")%string)
       = counterOf (store st !! ("usage:" ++ provider ++ ":count")%string) + 1.
Proof.
  intros Hconf Hkv Hkey.
  pose proof (getKV_configured env w st Hconf) as Hget.
  rewrite Hkv in Hget. destruct Hget as (st1 & Hget & Hstore & _).
  destruct (getKV_loaded_state _ _ _ _ _ Hget) as (Hmod & _).
  unfold incrementProviderUsage, tryCatchM, mbind, m_bind. rewrite Hget.
  unfold onStore. cbn [memoryKV kv_incr]. rewrite Hstore.
  eexists. split; [reflexivity |]. cbn. unfold Store in *.
  split; [now apply resolveKV_loaded |]. split.
  - now rewrite lookup_insert_ne by congruence.
  - now rewrite lookup_insert_eq.
Qed.

(** The handler after validation, against the in-memory store: what it
    answers and what the cache holds under the request's key afterwards. *)
Lemma serve_memory (env : Env) (w : World) (startTime : Z)
      (text provider : string) (sessionId : option string)
      (language : string) (st : State) :
  isKVConfigured env = true ->
  resolveKV w st = Ok memoryKV ->
  let key := generateCacheKey provider language text in
  exists response st',
    serve env w startTime text provider sessionId language st
    = (Ok response, st')
    /\ resolveKV w st' = Ok memoryKV
    /\ match store st !! key with
       | Some {| entryValue := VErrors cachedErrors |} =>
           (exists meta,
               response = mkResponse 200 (CheckBody (mkGrammarCheckResponse
                                                       cachedErrors meta))
               /\ md_cached meta = true)
           /\ store st' !! key = store st !! key
       | _ =>
           match dispatch env w provider text language with
           | Ok errs =>
               (exists meta,
                   response = mkResponse 200 (CheckBody (mkGrammarCheckResponse
                                                           errs meta))
                   /\ md_cached meta = false)
               /\ store st' !! key
                  = Some (mkEntry (VErrors errs) (Some CACHE_TTL))
           | Err cause => httpStatus response = 500
           end
       end.
Proof.
  intros Hconf Hkv key. unfold serve. fold key.
  assert (Hsession : exists st1,
             (if Js.truthy sessionId then
                _ ← emit (EvTrackSession (default "" sessionId));
                detach (trackSession env w (default "" sessionId))
              else mret tt) st = (Ok tt, st1)
             /\ resolveKV w st1 = Ok memoryKV
             /\ store st1 !! key = store st !! key).
  { destruct (Js.truthy sessionId); [| exists st; auto].
    destruct (emit_run (EvTrackSession (default "" sessionId)) st)
      as (st0 & Hemit & _).
    assert (Hst0 : resolveKV w st0 = Ok memoryKV /\ store st0 = store st).
    { unfold emit in Hemit. injection Hemit as <-. auto. }
    destruct Hst0 as [Hkv0 Hstore0].
    destruct (trackSession_keeps_cache env w (default "" sessionId) st0 key
                Hconf Hkv0 (grammar_key_not_session _ _ _ _)
                (grammar_key_not_total _ _ _))
      as (st1 & Htrack & Hkv1 & Hstore1).
    exists st1. rewrite (bindM_ok _ _ _ _ _ Hemit).
    split; [now apply detach_ok |]. split; [exact Hkv1 |].
    now rewrite Hstore1, Hstore0. }
  destruct Hsession as (st1 & Hsession & Hkv1 & Hstore1).
  rewrite (bindM_ok _ _ _ _ _ Hsession). cbv zeta.
  destruct (emit_run (EvCacheGet key) st1) as (st2 & Hemit & _).
  assert (Hst2 : resolveKV w st2 = Ok memoryKV /\ store st2 = store st1).
  { unfold emit in Hemit. injection Hemit as <-. auto. }
  destruct Hst2 as [Hkv2 Hstore2].
  rewrite (bindM_ok _ _ _ _ _ Hemit).
  destruct (getCachedResult_memory_run env w key st2 Hconf Hkv2)
    as (st3 & Hget & Hkv3 & Hstore3).
  rewrite (bindM_ok _ _ _ _ _ Hget).
  assert (Hlookup : store st2 !! key = store st !! key)
    by (now rewrite Hstore2).
  rewrite Hlookup.
  destruct (store st !! key) as [[[cachedErrors | n] ttl] |] eqn:Hentry.
  - (* hit *)
    eexists _, _. split; [reflexivity |]. cbn.
    split; [exact Hkv3 |]. split; [eauto |].
    now rewrite Hstore3, Hlookup.
  - (* a number under the key: a miss *)
    destruct (emit_run (EvProviderCall provider text language) st3)
      as (st4 & Hcall & _).
    assert (Hst4 : resolveKV w st4 = Ok memoryKV /\ store st4 = store st3).
    { unfold emit in Hcall. injection Hcall as <-. auto. }
    destruct Hst4 as [Hkv4 Hstore4].
    rewrite (bindM_ok _ _ _ _ _ Hcall).
    destruct (dispatch env w provider text language) as [errs | cause].
    + destruct (emit_run (EvCacheSet key) st4) as (st5 & Hset & _).
      assert (Hst5 : resolveKV w st5 = Ok memoryKV /\ store st5 = store st4).
      { unfold emit in Hset. injection Hset as <-. auto. }
      destruct Hst5 as [Hkv5 Hstore5].
      rewrite (bindM_ok _ _ _ _ _ Hset).
      destruct (setCachedResult_memory_run env w key errs CACHE_TTL st5
                                           Hconf Hkv5)
        as (st6 & Hwrite & Hkv6 & Hstore6).
      rewrite (bindM_ok _ _ _ _ _ (detach_ok _ _ _ Hwrite)).
      destruct (emit_run (EvUsage provider) st6) as (st7 & Husage & _).
      assert (Hst7 : resolveKV w st7 = Ok memoryKV /\ store st7 = store st6).
      { unfold emit in Husage. injection Husage as <-. auto. }
      destruct Hst7 as [Hkv7 Hstore7].
      rewrite (bindM_ok _ _ _ _ _ Husage).
      destruct (incrementProviderUsage_memory_run env w provider st7 key
                  Hconf Hkv7 (grammar_key_not_usage _ _ _ _))
        as (st8 & Hincr & Hkv8 & Hstore8 & _).
      rewrite (bindM_ok _ _ _ _ _ (detach_ok _ _ _ Hincr)).
      eexists _, _. split; [reflexivity |]. cbn.
      split; [exact Hkv8 |]. split; [eauto |].
      rewrite Hstore8, Hstore7, Hstore6. unfold Store in *.
      now rewrite lookup_insert_eq.
    + eexists _, _. split; [reflexivity |]. cbn. split; [exact Hkv4 | reflexivity].
  - (* nothing under the key: a miss *)
    destruct (emit_run (EvProviderCall provider text language) st3)
      as (st4 & Hcall & _).
    assert (Hst4 : resolveKV w st4 = Ok memoryKV /\ store st4 = store st3).
    { unfold emit in Hcall. injection Hcall as <-. auto. }
    destruct Hst4 as [Hkv4 Hstore4].
    rewrite (bindM_ok _ _ _ _ _ Hcall).
    destruct (dispatch env w provider text language) as [errs | cause].
    + destruct (emit_run (EvCacheSet key) st4) as (st5 & Hset & _).
      assert (Hst5 : resolveKV w st5 = Ok memoryKV /\ store st5 = store st4).
      { unfold emit in Hset. injection Hset as <-. auto. }
      destruct Hst5 as [Hkv5 Hstore5].
      rewrite (bindM_ok _ _ _ _ _ Hset).
      destruct (setCachedResult_memory_run env w key errs CACHE_TTL st5
                                           Hconf Hkv5)
        as (st6 & Hwrite & Hkv6 & Hstore6).
      rewrite (bindM_ok _ _ _ _ _ (detach_ok _ _ _ Hwrite)).
      destruct (emit_run (EvUsage provider) st6) as (st7 & Husage & _).
      assert (Hst7 : resolveKV w st7 = Ok memoryKV /\ store st7 = store st6).
      { unfold emit in Husage. injection Husage as <-. auto. }
      destruct Hst7 as [Hkv7 Hstore7].
      rewrite (bindM_ok _ _ _ _ _ Husage).
      destruct (incrementProviderUsage_memory_run env w provider st7 key
                  Hconf Hkv7 (grammar_key_not_usage _ _ _ _))
        as (st8 & Hincr & Hkv8 & Hstore8 & _).
      rewrite (bindM_ok _ _ _ _ _ (detach_ok _ _ _ Hincr)).
      eexists _, _. split; [reflexivity |]. cbn.
      split; [exact Hkv8 |]. split; [eauto |].
      rewrite Hstore8, Hstore7, Hstore6. unfold Store in *.
      now rewrite lookup_insert_eq.
    + eexists _, _. split; [reflexivity |]. cbn. split; [exact Hkv4 | reflexivity].
Qed.

(** X28. Against the in-memory store, a request that was answered 200 is
    answered from the cache when it is sent again: the second answer is 200
    with [cached = true] and the same errors, and the handler makes no
    provider call, no cache write and no usage count for it. *)
Theorem POST_second_request_is_a_hit
        (env : Env) (w : World) (request : RequestBody) (st st1 : State)
        (errs : list GrammarError) (meta : Metadata) :
  isKVConfigured env = true ->
  resolveKV w st = Ok memoryKV ->
  POST env w (Ok request) st
  = (Ok (mkResponse 200 (CheckBody (mkGrammarCheckResponse errs meta))), st1) ->
  exists meta2 st2,
    POST env w (Ok request) st1
    = (Ok (mkResponse 200 (CheckBody (mkGrammarCheckResponse errs meta2))),
       st2)
    /\ md_cached meta2 = true
    /\ trace st2
       = (trace st1 ++ sessionEvents (sessionId request)
            ++ [ EvCacheGet
                   (generateCacheKey (stringOf (provider request))
                                     (default "en-US" (language request))
                                     (stringOf (text request))) ])%list.
Proof.
  intros Hconf Hkv Hpost.
  destruct (validRequest request) eqn:Hvalid.
  2: { destruct (POST_invalid env w request st Hvalid) as (msg & Hm).
       rewrite Hm in Hpost. discriminate Hpost. }
  set (key := generateCacheKey (stringOf (provider request))
                               (default "en-US" (language request))
                               (stringOf (text request))).
  (* after the first request the cache holds the errors under the key *)
  assert (Hafter : resolveKV w st1 = Ok memoryKV
                   /\ exists ttl,
                       store st1 !! key = Some (mkEntry (VErrors errs) ttl)).
  { rewrite (POST_valid _ _ _ _ Hvalid) in Hpost.
    destruct (serve_memory env w (clock w (ticks st))
                (stringOf (text request)) (stringOf (provider request))
                (sessionId request) (default "en-US" (language request))
                (afterClockRead st) Hconf Hkv)
      as (response & st' & Hserve & Hkv' & Hcases).
    rewrite Hserve in Hpost. injection Hpost as -> ->.
    split; [exact Hkv' |]. fold key in Hcases.
    change (store (afterClockRead st)) with (store st) in Hcases.
    destruct (store st !! key) as [[[cachedErrors | n] ttl] |] eqn:Hentry.
    - destruct Hcases as [(meta' & [= <- _] & _) Hstore]. rewrite Hstore. eauto.
    - destruct (dispatch env w _ _ _) as [errs' | cause];
        [| discriminate Hcases].
      destruct Hcases as [(meta' & [= <- _] & _) Hstore]. eauto.
    - destruct (dispatch env w _ _ _) as [errs' | cause];
        [| discriminate Hcases].
      destruct Hcases as [(meta' & [= <- _] & _) Hstore]. eauto. }
  destruct Hafter as (Hkv1 & ttl & Hentry).
  (* the second request *)
  destruct (serve_run env w (clock w (ticks st1))
              (stringOf (text request)) (stringOf (provider request))
              (sessionId request) (default "en-US" (language request))
              (afterClockRead st1))
    as (response2 & st2 & Hrun & Hcalls).
  assert (Hpost2 : POST env w (Ok request) st1 = (Ok response2, st2))
    by (rewrite (POST_valid _ _ _ _ Hvalid); exact Hrun).
  change (trace (afterClockRead st1)) with (trace st1) in Hcalls.
  pose proof Hpost2 as Hserve2.
  rewrite (POST_valid _ _ _ _ Hvalid) in Hserve2.
  destruct (serve_memory env w (clock w (ticks st1))
              (stringOf (text request)) (stringOf (provider request))
              (sessionId request) (default "en-US" (language request))
              (afterClockRead st1) Hconf Hkv1)
    as (response & st' & Hserve & _ & Hcases).
  rewrite Hserve in Hserve2. injection Hserve2 as -> ->.
  fold key in Hcases.
  change (store (afterClockRead st1)) with (store st1) in Hcases.
  rewrite Hentry in Hcases.
  destruct Hcases as [(meta2 & -> & Hcached) _].
  exists meta2, st2. split; [exact Hpost2 |]. split; [exact Hcached |].
  cbv zeta in Hcalls. fold key in Hcalls.
  destruct Hcalls as [(errs' & meta' & _ & _ & _ & _ & Htrace)
                     | [(cause & _ & Hresp & _)
                       | (errs' & meta' & _ & Hresp & Hnot & _)]].
  - exact Htrace.
  - discriminate Hresp.
  - injection Hresp as _ <-. congruence.
Qed.

Lemma POST_second_request_is_a_hit_witness :
  let w := sampleWorld [ sampleMatch 0 4 [ "help"; "hello"; "helot" ] ] 200
                       None (Ok memoryKV) in
  let request := mkRequestBody (JsString "helo how are you")
                               (JsString "languagetool") (Some "s-1") None in
  let st1 := snd (POST fullEnv w (Ok request) initialState) in
  match fst (POST fullEnv w (Ok request) st1) with
  | Ok {| body := CheckBody r |} => md_cached (metadata r) = true
  | _ => False
  end.
Proof.
  intros w request st1.
  destruct (POST fullEnv w (Ok request) initialState) as [r0 st0] eqn:Hpost.
  destruct r0 as [[status [msg | [errs meta]]] | e];
    try (exfalso; vm_compute in Hpost; discriminate Hpost).
  assert (Hstatus : status = 200).
  { vm_compute in Hpost. now injection Hpost as <- _ _ _. }
  subst status.
  destruct (POST_second_request_is_a_hit fullEnv w request initialState st0
              errs meta eq_refl eq_refl Hpost)
    as (meta2 & st2 & Hsecond & Hcached & _).
  subst st1. cbn [snd]. rewrite Hsecond. exact Hcached.
Defined.

(* ================================================================== *)
(** * The editor: the word count *)
(* ================================================================== *)

Lemma chars_of_list (l : list ascii) : chars (string_of_list_ascii l) = l.
Proof. apply list_ascii_of_string_of_list_ascii. Qed.

Lemma append_unit_not_empty (cur : string) (c : ascii) :
  (Js.len (cur ++ String c "") >? 0) = true.
Proof.
  rewrite len_chars, chars_app, length_app. cbn. apply Z.gtb_lt. lia.
Qed.

(** The pieces of [split] that are not empty are the words.  While a run
    of white space is being skipped no piece is open. *)
Lemma splitGo_words (s cur : string) (inSep : bool) :
  (inSep = true -> (Js.len cur >? 0) = false) ->
  List.length (List.filter (fun w => Js.len w >? 0) (Js.splitGo s cur inSep))
  = if Js.len cur >? 0 then S (wordStarts (chars s) true)
    else wordStarts (chars s) false.
Proof.
  revert cur inSep. induction s as [| c s IH]; intros cur inSep Hsep.
  - cbn. destruct (Js.len cur >? 0); reflexivity.
  - cbn [Js.splitGo]. change (chars (String c s)) with (c :: chars s).
    cbn [wordStarts]. destruct (Js.isSpace c).
    + destruct inSep.
      * rewrite IH by exact Hsep. now rewrite (Hsep eq_refl).
      * cbn [List.filter]. destruct (Js.len cur >? 0); cbn [List.length];
          rewrite IH by reflexivity; reflexivity.
    + rewrite IH by discriminate. rewrite append_unit_not_empty.
      destruct (Js.len cur >? 0); reflexivity.
Qed.

Lemma wordStarts_spaces (sp : list ascii) (inWord : bool) :
  Forall (fun c => Js.isSpace c = true) sp -> wordStarts sp inWord = 0%nat.
Proof.
  intros H. revert inWord.
  induction H as [| c sp Hc _ IH]; intros inWord; cbn; [reflexivity |].
  rewrite Hc. apply IH.
Qed.

Lemma wordStarts_trailing_spaces (l sp : list ascii) (inWord : bool) :
  Forall (fun c => Js.isSpace c = true) sp ->
  wordStarts (l ++ sp) inWord = wordStarts l inWord.
Proof.
  intros Hsp. revert inWord.
  induction l as [| c l IH]; intros inWord; cbn.
  - now apply wordStarts_spaces.
  - destruct (Js.isSpace c); now rewrite IH.
Qed.

Lemma dropSpaces_split (l : list ascii) :
  exists sp, Forall (fun c => Js.isSpace c = true) sp
             /\ l = (sp ++ dropSpaces l)%list.
Proof.
  induction l as [| c l (sp & Hsp & Hl)]; cbn.
  - exists []. split; [constructor | reflexivity].
  - destruct (Js.isSpace c) eqn:Hc.
    + exists (c :: sp). split; [now constructor | cbn; congruence].
    + exists []. split; [constructor | reflexivity].
Qed.

Lemma wordStarts_dropSpaces (l : list ascii) :
  wordStarts (dropSpaces l) false = wordStarts l false.
Proof.
  induction l as [| c l IH]; cbn; [reflexivity |].
  destruct (Js.isSpace c) eqn:Hc; [exact IH |].
  cbn. now rewrite Hc.
Qed.

Lemma wordStarts_trim (text : string) :
  wordStarts (chars (trim text)) false = wordStarts (chars text) false.
Proof.
  unfold trim. rewrite chars_of_list.
  set (l := dropSpaces (chars text)).
  destruct (dropSpaces_split (List.rev l)) as (sp & Hsp & Hrev).
  assert (Hl : l = (List.rev (dropSpaces (List.rev l)) ++ List.rev sp)%list).
  { rewrite <- rev_app_distr, <- Hrev. now rewrite rev_involutive. }
  rewrite <- (wordStarts_trailing_spaces _ (List.rev sp)).
  - rewrite <- Hl. apply wordStarts_dropSpaces.
  - apply List.Forall_forall. intros c Hc. apply in_rev in Hc.
    rewrite List.Forall_forall in Hsp. now apply Hsp.
Qed.

Lemma wordCount_wordStarts (text : string) :
  wordCount text = Z.of_nat (wordStarts (chars text) false).
Proof.
  unfold wordCount, Js.splitWhitespace.
  rewrite splitGo_words by discriminate.
  change (Js.len "" >? 0) with false. cbv iota.
  now rewrite wordStarts_trim.
Qed.

Lemma wordStarts_app_space (a b : list ascii) (inWord : bool) :
  wordStarts (a ++ " "%char :: b) inWord
  = (wordStarts a inWord + wordStarts b false)%nat.
Proof.
  revert inWord. induction a as [| c a IH]; intros inWord; cbn.
  - reflexivity.
  - destruct (Js.isSpace c); rewrite IH; lia.
Qed.

(** X29. The word count of the editor is the number of places where a
    word starts; white space at either end and repeated white space do not
    count, so a text of white space only has 0 words, and the count of two
    texts joined by a space is the sum of their counts. *)
Theorem wordCount_counts_words (text other : string) :
  wordCount text = Z.of_nat (wordStarts (chars text) false)
  /\ (forallb Js.isSpace (chars text) = true -> wordCount text = 0)
  /\ wordCount (text ++ " " ++ other) = wordCount text + wordCount other
  /\ wordCount (" " ++ text ++ " ") = wordCount text.
Proof.
  split; [apply wordCount_wordStarts |]. split; [| split].
  - intros Hsp. rewrite wordCount_wordStarts, wordStarts_spaces; [reflexivity |].
    apply List.Forall_forall. intros c Hc.
    rewrite List.forallb_forall in Hsp. now apply Hsp.
  - rewrite !wordCount_wordStarts, !chars_app.
    change (chars " ") with [ " "%char ]. cbn [app].
    rewrite wordStarts_app_space. lia.
  - rewrite !wordCount_wordStarts, !chars_app.
    change (chars " ") with [ " "%char ]. cbn [app wordStarts].
    change (Js.isSpace " ") with true. cbv iota.
    rewrite (wordStarts_trailing_spaces (chars text) [ " "%char ]);
      [reflexivity |].
    repeat constructor.
Qed.
